(** * fs-simple: [Path] and [FS.tree] of [src/FileSystem.js]

    A shallow embedding of the two classes of [src/FileSystem.js]:

    - [Path], a mutable wrapper around one string ([_path]), whose
      composition methods delegate to Node's [path] module and to
      [String.prototype.replace] with a [RegExp] built from the path text;
    - [FS.tree], the recursive resolver that builds a graph of
      [{path, isDirectory, children}] nodes from [fs/promises], and the three
      traversals [FS.tree.flatten], [FS.tree.files], [FS.tree.directories].

    [Path] objects are mutable and shared by reference, so they live in an
    explicit object store; a node holds the address of its [Path]. The code
    that is not part of the repository is modelled where it is needed:
    Node's [path.posix] functions at the level of path segments, the part of
    ECMAScript regular expressions the two patterns of [Path] can produce,
    and [fs/promises] as a record of functions on absolute path strings. *)

From Stdlib Require Import String Ascii List Lia Bool Arith.
From stdpp Require Import base list strings.
Import ListNotations.
Open Scope string_scope.
Open Scope list_scope.
Set Warnings "-register-all".

(** ** Strings *)

Module Str.

Definition is_empty (s : string) : bool :=
  match s with EmptyString => true | String _ _ => false end.

(** [s.startsWith(x)] *)
Definition startsWith (s x : string) : bool := String.prefix x s.

Fixpoint endsWith_char (c : ascii) (s : string) : bool :=
  match s with
  | EmptyString => false
  | String d EmptyString => Ascii.eqb d c
  | String _ s' => endsWith_char c s'
  end.

Definition first_is (c : ascii) (s : string) : bool :=
  match s with
  | String d _ => Ascii.eqb d c
  | EmptyString => false
  end.

Fixpoint has_char (c : ascii) (s : string) : bool :=
  match s with
  | EmptyString => false
  | String d s' => Ascii.eqb d c || has_char c s'
  end.

End Str.

(** ** The platform: Node's [path] module

    [Path] reaches the platform through [npath.join], [npath.resolve] and
    [npath.basename] only. The class below is that interface; [Path] and [FS]
    are written against it. *)

Class NodePath := {
  (** [npath.join(...args)] *)
  npath_join : list string -> string;
  (** [npath.resolve(p)], one argument, against [process.cwd()] *)
  npath_resolve : string -> string;
  (** [npath.basename(p)], no suffix argument *)
  npath_basename : string -> string;
}.

(** *** [path.posix]

    Node's implementation scans the characters of the path and keeps the
    result string [res] together with the length of its last segment. The
    model keeps the same result as the stack of its segments, last segment
    first: a separator closes a segment, an empty segment and ["."] are
    dropped, [".."] removes the last segment unless there is none or it is
    [".."] itself, in which case [".."] is kept when [allowAboveRoot]. *)

Module Posix.

Definition sep : string := "/".

(** the pieces of [s] between separators, empty pieces included *)
Fixpoint split (s : string) : list string :=
  match s with
  | EmptyString => [""]
  | String c s' =>
      if Ascii.eqb c "/" then "" :: split s'
      else match split s' with
           | seg :: segs => String c seg :: segs
           | [] => [String c ""]
           end
  end.

Definition isAbsolute (path : string) : bool := Str.first_is "/" path.

Definition trailingSeparator (path : string) : bool :=
  Str.endsWith_char "/" path.

Definition step (allowAboveRoot : bool) (res : list string) (seg : string)
  : list string :=
  if String.eqb seg "" || String.eqb seg "." then res
  else if String.eqb seg ".." then
    match res with
    | top :: below =>
        if String.eqb top ".."
        then (if allowAboveRoot then ".." :: res else res)
        else below
    | [] => if allowAboveRoot then [".."] else []
    end
  else seg :: res.

Definition segments (allowAboveRoot : bool) (path : string) : list string :=
  fold_left (step allowAboveRoot) (split path) [].

Definition normalizeString (path : string) (allowAboveRoot : bool) : string :=
  String.concat sep (rev (segments allowAboveRoot path)).

Definition normalize (path : string) : string :=
  if Str.is_empty path then "."
  else
    let isAbs := isAbsolute path in
    let trailing := trailingSeparator path in
    let p := normalizeString path (negb isAbs) in
    if Str.is_empty p then
      (if isAbs then "/" else if trailing then "./" else ".")
    else
      let p := if trailing then p +:+ "/" else p in
      if isAbs then "/" +:+ p else p.

(** zero-length arguments are skipped; the rest is joined with ["/"] and
    normalized; no argument left gives ["."] *)
Definition join (args : list string) : string :=
  match List.filter (fun a => negb (Str.is_empty a)) args with
  | [] => "."
  | parts => normalize (String.concat sep parts)
  end.

(** [resolve(p)]: the loop runs over [p] and then, while the result is not
    absolute, over [process.cwd()]; zero-length pieces are skipped. *)
Definition resolve (cwd : string) (p : string) : string :=
  let '(resolvedPath, resolvedAbsolute) :=
    if Str.is_empty p then ("", false) else (p +:+ "/", isAbsolute p) in
  let '(resolvedPath, resolvedAbsolute) :=
    if resolvedAbsolute then (resolvedPath, true)
    else if Str.is_empty cwd then (resolvedPath, false)
    else (cwd +:+ "/" +:+ resolvedPath, isAbsolute cwd) in
  let r := normalizeString resolvedPath (negb resolvedAbsolute) in
  if resolvedAbsolute then "/" +:+ r
  else if Str.is_empty r then "." else r.

(** the last non-empty piece of the path, [""] when there is none *)
Definition basename (path : string) : string :=
  List.last (List.filter (fun a => negb (Str.is_empty a)) (split path)) "".

(** The process the code runs in: [process.cwd()] is an absolute path. *)
Record process := {
  cwd : string;
  cwd_absolute : isAbsolute cwd = true;
}.

(** [const npath = require('path')] on a POSIX platform *)
Definition npath (pr : process) : NodePath := {|
  npath_join := join;
  npath_resolve := resolve (cwd pr);
  npath_basename := basename;
|}.

(** a name a directory listing can hold *)
Definition is_name (n : string) : bool :=
  negb (Str.is_empty n) && negb (String.eqb n ".") && negb (String.eqb n "..")
  && negb (Str.has_char "/" n).

(** the absolute path of the entry [n] of the directory at absolute path [a] *)
Definition child_abs (a n : string) : string :=
  if String.eqb a "/" then "/" +:+ n else a +:+ "/" +:+ n.

(** the vocabulary of the facts about the model *)

Definition nosep (s : string) : Prop := Str.has_char "/" s = false.

(** a piece that leaves the stack as it is *)
Definition dropped (s : string) : Prop := s = "" \/ s = ".".

(** what a stack holds: names, and [".."] when above the root is allowed *)
Definition kept (s : string) : Prop := is_name s = true \/ s = "..".

(** the absolute path with the given segments *)
Definition abs_of (segs : list string) : string :=
  "/" +:+ String.concat sep segs.

(** the result of [normalize] from its three ingredients *)
Definition render (isAbs trailing : bool) (stack : list string) : string :=
  match stack with
  | [] => if isAbs then "/" else if trailing then "./" else "."
  | _ =>
      (if isAbs then "/" else "")
        +:+ (String.concat sep (rev stack) +:+ (if trailing then "/" else ""))
  end.

(** the stack [resolve] ends with *)
Definition abs_segments (cwd p : string) : list string :=
  fold_left (step false)
    (if isAbsolute p then split p else split cwd ++ split p) [].

End Posix.

Definition root_process : Posix.process :=
  {| Posix.cwd := "/"; Posix.cwd_absolute := eq_refl |}.
Definition home_process : Posix.process :=
  {| Posix.cwd := "/home/u"; Posix.cwd_absolute := eq_refl |}.

(** ** The language: [RegExp] and [String.prototype.replace]

    [pop] and [relativeTo] build a pattern by pasting path text between
    fixed pieces and hand it to [new RegExp]. The model covers the fragment
    of the ECMAScript pattern grammar (no flags, single-byte characters)
    those patterns need: literal characters, [.], identity escapes of syntax
    characters, character classes of literal characters, groups,
    alternation, the assertions [^] and [$], and the greedy quantifiers
    [*], [+], [?] and [{0,1}]. A pattern the grammar rejects is a
    [SyntaxError]; a pattern outside the fragment is [PUnsupported], about
    which the model says nothing. *)

Module RegExp.

Inductive re :=
| Empty
| Char (c : ascii)
| AnyChar
| Class (cs : list ascii)
| Bol
| Eol
| Seq (r1 r2 : re)
| Alt (r1 r2 : re)
| Star (r : re)
| Opt (r : re).

Inductive presult (A : Type) :=
| POk (a : A)
| PSyntaxError
| PUnsupported.
Arguments POk {A} a.
Arguments PSyntaxError {A}.
Arguments PUnsupported {A}.

Definition is_char (c d : ascii) : bool := Ascii.eqb c d.

Definition in_chars (c : ascii) (cs : string) : bool := Str.has_char c cs.

(** SyntaxCharacter of the grammar *)
Definition syntax_char (c : ascii) : bool := in_chars c "^$\.*+?()[]{}|".

Definition tail (s : string) : string :=
  match s with EmptyString => "" | String _ s' => s' end.

(** the items of a character class up to its closing bracket *)
Fixpoint parse_class (s : string) (acc : list ascii)
  : presult (list ascii * string) :=
  match s with
  | EmptyString => PSyntaxError
  | String c rest =>
      if is_char c "]" then POk (rev acc, rest)
      else if is_char c "\" then
        match rest with
        | EmptyString => PSyntaxError
        | String d rest' =>
            if syntax_char d || is_char d "/" || is_char d "-"
            then parse_class rest' (d :: acc)
            else PUnsupported
        end
      else if is_char c "-" then PUnsupported
      else parse_class rest (c :: acc)
  end.

(** a quantifier after the atom [r], if there is one *)
Definition quantify (r : re) (s : string) : presult (re * string) :=
  let lazy (q : re) (rest : string) :=
    if Str.first_is "?" rest then PUnsupported else POk (q, rest) in
  match s with
  | EmptyString => POk (r, s)
  | String c rest =>
      if is_char c "*" then lazy (Star r) rest
      else if is_char c "+" then lazy (Seq r (Star r)) rest
      else if is_char c "?" then lazy (Opt r) rest
      else if is_char c "{" then
        if String.prefix "0,1}" rest
        then lazy (Opt r) (String.substring 4 (String.length rest - 4) rest)
        else PUnsupported
      else POk (r, s)
  end.

Fixpoint parse_disjunction (fuel : nat) (s : string) : presult (re * string) :=
  match fuel with
  | 0 => PUnsupported
  | S f =>
      match parse_alternative f s with
      | POk (r, rest) =>
          if Str.first_is "|" rest then
            match parse_disjunction f (tail rest) with
            | POk (r2, rest2) => POk (Alt r r2, rest2)
            | e => e
            end
          else POk (r, rest)
      | e => e
      end
  end
with parse_alternative (fuel : nat) (s : string) : presult (re * string) :=
  match fuel with
  | 0 => PUnsupported
  | S f =>
      match s with
      | EmptyString => POk (Empty, s)
      | String c rest =>
          if is_char c "|" || is_char c ")" then POk (Empty, s)
          else
            match parse_term f c rest with
            | POk (r, rest') =>
                match parse_alternative f rest' with
                | POk (r2, rest2) => POk (Seq r r2, rest2)
                | e => e
                end
            | e => e
            end
      end
  end
with parse_term (fuel : nat) (c : ascii) (rest : string)
  : presult (re * string) :=
  match fuel with
  | 0 => PUnsupported
  | S f =>
      if is_char c "^" then POk (Bol, rest)
      else if is_char c "$" then POk (Eol, rest)
      else if is_char c "*" || is_char c "+" || is_char c "?"
      then PSyntaxError
      else if is_char c "{" then PUnsupported
      else if is_char c "(" then
        if Str.first_is "?" rest then PUnsupported
        else
          match parse_disjunction f rest with
          | POk (r, rest') =>
              if Str.first_is ")" rest' then quantify r (tail rest')
              else PSyntaxError
          | e => e
          end
      else if is_char c "[" then
        if Str.first_is "^" rest then PUnsupported
        else
          match parse_class rest [] with
          | POk (cs, rest') => quantify (Class cs) rest'
          | PSyntaxError => PSyntaxError
          | PUnsupported => PUnsupported
          end
      else if is_char c "\" then
        match rest with
        | EmptyString => PSyntaxError
        | String d rest' =>
            if syntax_char d || is_char d "/" then quantify (Char d) rest'
            else PUnsupported
        end
      else if is_char c "." then quantify AnyChar rest
      else quantify (Char c) rest
  end.

(** [new RegExp(pattern)] *)
Definition compile (pattern : string) : presult re :=
  match parse_disjunction (3 * String.length pattern + 3) pattern with
  | POk (r, EmptyString) => POk r
  | POk (_, String _ _) => PSyntaxError
  | PSyntaxError => PSyntaxError
  | PUnsupported => PUnsupported
  end.

Definition line_terminator (c : ascii) : bool :=
  is_char c "010" || is_char c "013".

Definition in_class (c : ascii) (cs : list ascii) : bool :=
  existsb (is_char c) cs.

(** Backtracking matcher: [rmatch r i s k] matches [r] at index [i], where
    [s] is the input from [i] on, and passes the index and input after the
    match to the continuation [k]; the result is the index where the whole
    match ends. A repetition gives up an iteration that consumed nothing. *)
Fixpoint rmatch (r : re) (i : nat) (s : string)
  (k : nat -> string -> option nat) : option nat :=
  match r with
  | Empty => k i s
  | Char c =>
      match s with
      | String d s' => if is_char d c then k (S i) s' else None
      | EmptyString => None
      end
  | AnyChar =>
      match s with
      | String d s' => if line_terminator d then None else k (S i) s'
      | EmptyString => None
      end
  | Class cs =>
      match s with
      | String d s' => if in_class d cs then k (S i) s' else None
      | EmptyString => None
      end
  | Bol => if Nat.eqb i 0 then k i s else None
  | Eol => if Str.is_empty s then k i s else None
  | Seq r1 r2 => rmatch r1 i s (fun i' s' => rmatch r2 i' s' k)
  | Alt r1 r2 =>
      match rmatch r1 i s k with
      | Some e => Some e
      | None => rmatch r2 i s k
      end
  | Opt r1 =>
      match rmatch r1 i s
              (fun i' s' => if Nat.eqb i' i then None else k i' s') with
      | Some e => Some e
      | None => k i s
      end
  | Star r1 =>
      (fix star (n : nat) (i : nat) (s : string) : option nat :=
         match n with
         | 0 => k i s
         | S n' =>
             match rmatch r1 i s
                     (fun i' s' => if Nat.eqb i' i then None
                                   else star n' i' s') with
             | Some e => Some e
             | None => k i s
             end
         end) (S (String.length s)) i s
  end.

(** the leftmost match: its start and end index *)
Fixpoint search (r : re) (i : nat) (s : string) : option (nat * nat) :=
  match rmatch r i s (fun e _ => Some e) with
  | Some e => Some (i, e)
  | None =>
      match s with
      | EmptyString => None
      | String _ s' => search r (S i) s'
      end
  end.

(** [str.replace(regexp, replacement)] for a regexp without flags and a
    replacement without [$] patterns: the leftmost match is replaced, a
    string without match is returned as it is *)
Definition replace (r : re) (replacement : string) (str : string) : string :=
  match search r 0 str with
  | Some (b, e) =>
      String.substring 0 b str +:+ replacement
        +:+ String.substring e (String.length str - e) str
  | None => str
  end.

(** [str.replace(new RegExp(pattern), replacement)], when the pattern is
    in the fragment and accepted *)
Definition replaced (pattern replacement str : string) : option string :=
  match compile pattern with
  | POk r => Some (replace r replacement str)
  | _ => None
  end.

End RegExp.

(** ** Errors and outcomes *)

Inductive error :=
| SyntaxError (pattern : string)
    (** [new RegExp(pattern)] rejected the pattern *)
| NotAccessible (abs : string)
    (** [FS.stat]: ['<abs>' does not exist or is not accessible by this user.] *)
| NotADirectory (abs : string)
    (** [FS.ls]: [You can not perform an 'ls' on a non-directory path (<abs>).] *)
| Native (call : string) (abs : string).
    (** a rejection of [fs/promises] itself, passed on as it is *)

(** What a call does: it returns, it throws (an async function: it
    rejects), or the model does not say ([Beyond]: the pattern is outside
    the modelled fragment of the pattern grammar, or the recursion budget of
    the resolver is used up). *)
Inductive outcome (A : Type) :=
| Returns (a : A)
| Throws (e : error)
| Beyond.
Arguments Returns {A} a.
Arguments Throws {A} e.
Arguments Beyond {A}.

(** ** The object store

    A [Path] object is one mutable field, [_path]. The store holds the
    field of every [Path] object created so far, by address; [new Path]
    takes the next address. *)

Abbreviation addr := nat (only parsing).
Abbreviation store := (list string) (only parsing).

Definition alloc (s : string) (h : store) : addr * store :=
  (length h, h ++ [s]).

Definition set_path (a : addr) (s : string) (h : store) : store :=
  <[a := s]> h.

(** an argument that is tested with [instanceof Path] *)
Inductive path_like :=
| Raw (s : string)
| Obj (a : addr).

(** a [Path] argument is an object of the store *)
Definition path_like_in (p : path_like) (h : store) : Prop :=
  match p with
  | Raw _ => True
  | Obj a => a < length h
  end.

(** ** [class Path] *)

Section Path.
Context `{NP : NodePath}.

(** [get path()] *)
Definition Path_path (a : addr) (h : store) : string :=
  match h !! a with Some s => s | None => "" end.

(** [path instanceof Path ? path.path : path] *)
Definition path_string (p : path_like) (h : store) : string :=
  match p with Raw s => s | Obj a => Path_path a h end.

(** [new Path(path)] *)
Definition Path_new (p : path_like) (h : store) : addr * store :=
  alloc (path_string p h) h.

(** [Path.from(path)] *)
Definition Path_from (p : path_like) (h : store) : addr * store :=
  match p with
  | Obj a => (a, h)
  | Raw _ => Path_new p h
  end.

(** [clone()] *)
Definition Path_clone (a : addr) (h : store) : addr * store :=
  Path_from (Raw (Path_path a h)) h.

(** [get absolute()] and [get basename()] *)
Definition Path_absolute (a : addr) (h : store) : string :=
  npath_resolve (Path_path a h).

Definition Path_basename (a : addr) (h : store) : string :=
  npath_basename (Path_path a h).

(** The composition methods return [this]; the model returns the store. *)

Definition Path_prefix (a : addr) (prefix : path_like) (h : store) : store :=
  let '(q, h1) := Path_from prefix h in
  set_path a (npath_join [Path_path q h1; Path_path a h1]) h1.

Definition Path_postfix (a : addr) (postfix : path_like) (h : store) : store :=
  let '(q, h1) := Path_from postfix h in
  set_path a (npath_join [Path_path a h1; Path_path q h1]) h1.

Definition Path_append (a : addr) (paths : list path_like) (h : store)
  : store :=
  let paths := map (fun p => path_string p h) paths in
  set_path a (npath_join (Path_path a h :: paths)) h.

Definition Path_prepend (a : addr) (paths : list path_like) (h : store)
  : store :=
  let paths := map (fun p => path_string p h) paths in
  set_path a (npath_join (paths ++ [Path_path a h])) h.

Definition pop_pattern (basename : string) : string :=
  "[/\\]{0,1}" +:+ basename +:+ "$".

Definition Path_pop (a : addr) (h : store) : outcome store :=
  let pattern := pop_pattern (Path_basename a h) in
  match RegExp.compile pattern with
  | RegExp.POk r => Returns (set_path a (RegExp.replace r "" (Path_path a h)) h)
  | RegExp.PSyntaxError => Throws (SyntaxError pattern)
  | RegExp.PUnsupported => Beyond
  end.

Definition Path_push (a : addr) (path : path_like) (h : store) : store :=
  Path_append a [path] h.

(** [replace(matcher, replacement)]: the two arguments enter only through
    the string function [s => s.replace(matcher, replacement)] they denote *)
Definition Path_replace (a : addr) (String_replace : string -> string)
  (h : store) : store :=
  set_path a (String_replace (Path_path a h)) h.

(** the test of [inside] on the two absolute forms *)
Definition inside_abs (tAbs iAbs : string) : bool :=
  Str.startsWith tAbs (iAbs +:+ "/") || Str.startsWith tAbs (iAbs +:+ "\").

Definition Path_inside (a : addr) (path : path_like) (h : store)
  : bool * store :=
  let '(q, h1) := Path_from path h in
  let iAbs := Path_absolute q h1 in
  let tAbs := Path_absolute a h1 in
  (inside_abs tAbs iAbs, h1).

Definition Path_is (a : addr) (path : path_like) (h : store) : bool * store :=
  let '(q, h1) := Path_from path h in
  let iAbs := Path_absolute q h1 in
  let tAbs := Path_absolute a h1 in
  (String.eqb tAbs iAbs, h1).

Definition relativeTo_pattern (iAbs : string) : string := iAbs +:+ "[/\\]".

Definition Path_relativeTo (a : addr) (path : path_like) (h : store)
  : outcome (addr * store) :=
  let '(q, h1) := Path_from path h in
  let iAbs := Path_absolute q h1 in
  let tAbs := Path_absolute a h1 in
  let pattern := relativeTo_pattern iAbs in
  match RegExp.compile pattern with
  | RegExp.POk r => Returns (Path_from (Raw (RegExp.replace r "" tAbs)) h1)
  | RegExp.PSyntaxError => Throws (SyntaxError pattern)
  | RegExp.PUnsupported => Beyond
  end.

(** One call of an in-place composition method on a [Path]. *)
Inductive mutation :=
| Mappend (paths : list path_like)
| Mprepend (paths : list path_like)
| Mpop
| Mpush (path : path_like)
| Mreplace (String_replace : string -> string)
| Mprefix (prefix : path_like)
| Mpostfix (postfix : path_like).

Definition mutate (a : addr) (m : mutation) (h : store) : outcome store :=
  match m with
  | Mappend paths => Returns (Path_append a paths h)
  | Mprepend paths => Returns (Path_prepend a paths h)
  | Mpop => Path_pop a h
  | Mpush path => Returns (Path_push a path h)
  | Mreplace f => Returns (Path_replace a f h)
  | Mprefix p => Returns (Path_prefix a p h)
  | Mpostfix p => Returns (Path_postfix a p h)
  end.

(** A sequence of such calls, each on one [Path]; a call that throws leaves
    the store as it found it and ends the sequence. *)
Fixpoint mutate_all (calls : list (addr * mutation)) (h : store)
  : store :=
  match calls with
  | [] => h
  | (a, m) :: rest =>
      match mutate a m h with
      | Returns h' => mutate_all rest h'
      | _ => h
      end
  end.

End Path.

(** ** [fs/promises]

    The three calls the resolver makes, as functions of the absolute path
    they are given. The file system is not modified while a tree is
    resolved. *)

Record Stats := { stats_isDirectory : bool }.

Record Storage := {
  (** [nfs.access(abs)] resolves *)
  nfs_access : string -> bool;
  (** [nfs.stat(abs)], [None] when it rejects *)
  nfs_stat : string -> option Stats;
  (** [nfs.readdir(abs)], [None] when it rejects *)
  nfs_readdir : string -> option (list string);
}.

(** [Promise.all] rejects with the reason of the promise that rejects
    first in time. Which one that is depends on the order in which the
    I/O completes: the scheduler picks it among the rejections. *)
Record Scheduler := {
  first_rejection : error -> list error -> error;
  first_rejection_In : forall e es, In (first_rejection e es) (e :: es);
}.

Definition in_order : Scheduler :=
  {| first_rejection := fun e _ => e;
     first_rejection_In := fun e es => or_introl eq_refl |}.

(** ** Async functions: store passing with rejection *)

Definition M (A : Type) : Type := store -> outcome (A * store).

Definition ret {A} (a : A) : M A := fun h => Returns (a, h).

Definition bind {A B} (m : M A) (f : A -> M B) : M B :=
  fun h =>
    match m h with
    | Returns (a, h') => f a h'
    | Throws e => Throws e
    | Beyond => Beyond
    end.

(** [const x = await m; k] *)
Notation "'await' x <- m ; k" := (bind m (fun x => k))
  (at level 10, x name, m at level 100, k at level 200).

(** [Promise.all] over calls started one after the other: every call runs,
    the store is threaded through those that return. *)
Fixpoint all_settled {A} (ps : list (M A)) (h : store)
  : list (outcome A) * store :=
  match ps with
  | [] => ([], h)
  | p :: ps' =>
      match p h with
      | Returns (a, h') =>
          let '(rs, h'') := all_settled ps' h' in (Returns a :: rs, h'')
      | Throws e =>
          let '(rs, h'') := all_settled ps' h in (Throws e :: rs, h'')
      | Beyond =>
          let '(rs, h'') := all_settled ps' h in (Beyond :: rs, h'')
      end
  end.

Definition is_beyond {A} (r : outcome A) : bool :=
  match r with Beyond => true | _ => false end.

Fixpoint rejections {A} (rs : list (outcome A)) : list error :=
  match rs with
  | [] => []
  | Throws e :: rs' => e :: rejections rs'
  | _ :: rs' => rejections rs'
  end.

Fixpoint values {A} (rs : list (outcome A)) : list A :=
  match rs with
  | [] => []
  | Returns a :: rs' => a :: values rs'
  | _ :: rs' => values rs'
  end.

Definition Promise_all {A} (sched : Scheduler) (ps : list (M A))
  : M (list A) :=
  fun h =>
    let '(rs, h') := all_settled ps h in
    if existsb is_beyond rs then Beyond
    else
      match rejections rs with
      | [] => Returns (values rs, h')
      | e :: es => Throws (first_rejection sched e es)
      end.

(** ** [class FS] *)

(** A node of the tree: [{path, isDirectory}] and, when it was assigned,
    [children]. [None] is the property that was never assigned. *)
Inductive TreeNode :=
| Node (path : addr) (isDirectory : bool) (children : option (list TreeNode)).

Definition node_path (n : TreeNode) : addr :=
  match n with Node p _ _ => p end.
Definition node_isDirectory (n : TreeNode) : bool :=
  match n with Node _ d _ => d end.
Definition node_children (n : TreeNode) : option (list TreeNode) :=
  match n with Node _ _ c => c end.

Section FS.
Context `{NP : NodePath}.
Variable st : Storage.
Variable sched : Scheduler.

Definition FS_isAccessible (path : path_like) (h : store) : bool * store :=
  let '(a, h1) := Path_from path h in
  (nfs_access st (Path_absolute a h1), h1).

Definition FS_stat (path : path_like) : M Stats :=
  fun h =>
    let '(a, h1) := Path_from path h in
    let abs := Path_absolute a h1 in
    let '(accessible, h2) := FS_isAccessible (Raw abs) h1 in
    if negb accessible then Throws (NotAccessible abs)
    else
      match nfs_stat st abs with
      | Some stat => Returns (stat, h2)
      | None => Throws (Native "stat" abs)
      end.

(** the loop of [FS.ls]: each name becomes a [Path] with the directory's
    path prepended *)
Fixpoint ls_subpaths (dir : addr) (names : list string) (h : store)
  : list addr * store :=
  match names with
  | [] => ([], h)
  | name :: names' =>
      let '(subpath, h1) := Path_from (Raw name) h in
      let h2 := Path_prepend subpath [Raw (Path_path dir h1)] h1 in
      let '(subpaths, h3) := ls_subpaths dir names' h2 in
      (subpath :: subpaths, h3)
  end.

Definition FS_ls (path : path_like) : M (list addr) :=
  fun h =>
    let '(a, h1) := Path_from path h in
    match FS_stat (Obj a) h1 with
    | Returns (stat, h2) =>
        if negb (stats_isDirectory stat)
        then Throws (NotADirectory (Path_absolute a h2))
        else
          match nfs_readdir st (Path_absolute a h2) with
          | Some names => Returns (ls_subpaths a names h2)
          | None => Throws (Native "readdir" (Path_absolute a h2))
          end
    | Throws e => Throws e
    | Beyond => Beyond
    end.

(** the child nodes in listing order, each with what its own
    [_resolveChildren] left in [children] *)
Fixpoint childNodes (children : list addr) (childrenStats : list Stats)
  (resolved : list (option (list TreeNode))) : list TreeNode :=
  match children, childrenStats, resolved with
  | child :: cs, stat :: ss, kids :: ks =>
      Node child (stats_isDirectory stat) kids :: childNodes cs ss ks
  | _, _, _ => []
  end.

(** [FS.tree._resolveChildren(node)]. The source assigns [node.children];
    the model returns what [node.children] is afterwards. [fuel] bounds the
    depth of the recursion. *)
Fixpoint _resolveChildren (fuel : nat) (path : addr) (isDirectory : bool)
  : M (option (list TreeNode)) :=
  match fuel with
  | 0 => fun _ => Beyond
  | S fuel' =>
      if negb isDirectory then ret None
      else
        await children <- FS_ls (Obj path) ;
        if Nat.eqb (length children) 0 then ret None
        else
          await childrenStats <-
            Promise_all sched
              (map (fun child => FS_stat (Obj child)) children) ;
          await resolved <-
            Promise_all sched
              (map (fun '(child, stat) =>
                      if isDirectory
                      then _resolveChildren fuel' child (stats_isDirectory stat)
                      else ret None)
                 (combine children childrenStats)) ;
          ret (Some (childNodes children childrenStats resolved))
  end.

(** [FS.tree(path)] *)
Definition FS_tree (fuel : nat) (path : path_like) : M TreeNode :=
  fun h =>
    let '(a, h1) := Path_from path h in
    (await stat <- FS_stat (Obj a) ;
     let isDirectory := stats_isDirectory stat in
     await children <- _resolveChildren fuel a isDirectory ;
     ret (Node a isDirectory children)) h1.

(** [!node.children || !node.children.length] *)
Definition absent_or_empty (children : option (list TreeNode)) : bool :=
  match children with
  | None => true
  | Some cs => Nat.eqb (length cs) 0
  end.

(** [!node.isDirectory || !node.children || !node.children.length] *)
Definition no_children (node : TreeNode) : bool :=
  match node with
  | Node _ isDirectory children => negb isDirectory || absent_or_empty children
  end.

(** [FS.tree.flatten(node)] *)
Fixpoint tree_flatten (node : TreeNode) (h : store) : list addr * store :=
  match node with
  | Node path isDirectory children =>
      let '(c, h1) := Path_clone path h in
      let paths := [c] in
      if no_children (Node path isDirectory children) then (paths, h1)
      else
        match children with
        | None => (paths, h1)
        | Some cs =>
            (fix loop (cs : list TreeNode) (paths : list addr) (h : store) :=
               match cs with
               | [] => (paths, h)
               | childNode :: cs' =>
                   let '(sub, h') := tree_flatten childNode h in
                   loop cs' (paths ++ sub) h'
               end) cs paths h1
        end
  end.

(** [FS.tree.files(node)] *)
Fixpoint tree_files (node : TreeNode) (h : store) : list addr * store :=
  match node with
  | Node path isDirectory children =>
      if negb isDirectory then
        let '(c, h1) := Path_clone path h in ([c], h1)
      else if absent_or_empty children then ([], h)
      else
        match children with
        | None => ([], h)
        | Some cs =>
            (fix loop (cs : list TreeNode) (paths : list addr) (h : store) :=
               match cs with
               | [] => (paths, h)
               | childNode :: cs' =>
                   let '(sub, h') := tree_files childNode h in
                   loop cs' (paths ++ sub) h'
               end) cs [] h
        end
  end.

(** [FS.tree.directories(node)] *)
Fixpoint tree_directories (node : TreeNode) (h : store)
  : list addr * store :=
  match node with
  | Node path isDirectory children =>
      if no_children (Node path isDirectory children) then ([], h)
      else
        let '(c, h1) := Path_clone path h in
        match children with
        | None => ([c], h1)
        | Some cs =>
            (fix loop (cs : list TreeNode) (paths : list addr) (h : store) :=
               match cs with
               | [] => (paths, h)
               | childNode :: cs' =>
                   let '(sub, h') := tree_directories childNode h in
                   loop cs' (paths ++ sub) h'
               end) cs [c] h1
        end
  end.

End FS.

(** ** Vocabulary of the statements *)

(** *** Views of a tree and of a traversal result *)

Section Views.
Context `{NP : NodePath}.

(** the path strings of the [Path] objects a traversal returned *)
Definition strings_of (r : list addr * store) : list string :=
  map (fun a => Path_path a (snd r)) (fst r).

(** the children sequence of a node, absent read as empty *)
Definition children_of (n : TreeNode) : list TreeNode :=
  match node_children n with Some cs => cs | None => [] end.

(** every address of the graph, in pre-order *)
Fixpoint node_addrs (n : TreeNode) : list addr :=
  match n with
  | Node p _ children =>
      p :: match children with
           | None => []
           | Some cs => flat_map node_addrs cs
           end
  end.

(** every [Path] of the graph is an object of the store *)
Definition in_store (n : TreeNode) (h : store) : Prop :=
  Forall (fun a => a < length h) (node_addrs n).

(** the invariant of a resolved graph: [children] is only ever assigned
    on a directory, and then it is not empty *)
Fixpoint well_built (n : TreeNode) : bool :=
  match n with
  | Node _ isDirectory children =>
      match children with
      | None => true
      | Some cs =>
          isDirectory && negb (Nat.eqb (length cs) 0) && forallb well_built cs
      end
  end.

(** the node's own path, then the pre-order of each child in order *)
Fixpoint preorder (h : store) (n : TreeNode) : list string :=
  match n with
  | Node p _ children =>
      Path_path p h
        :: match children with
           | None => []
           | Some cs => flat_map (preorder h) cs
           end
  end.

(** the paths of the nodes that are not directories, in pre-order *)
Fixpoint leaf_paths (h : store) (n : TreeNode) : list string :=
  match n with
  | Node p isDirectory children =>
      (if isDirectory then [] else [Path_path p h])
        ++ match children with
           | None => []
           | Some cs => flat_map (leaf_paths h) cs
           end
  end.

(** the paths of the directory nodes that have a child, in pre-order *)
Fixpoint nonempty_directory_paths (h : store) (n : TreeNode) : list string :=
  match n with
  | Node p isDirectory children =>
      match children with
      | None => []
      | Some cs =>
          (if isDirectory && negb (Nat.eqb (length cs) 0)
           then [Path_path p h] else [])
            ++ flat_map (nonempty_directory_paths h) cs
      end
  end.

(** the path string of a node *)
Definition path_in (h : store) (n : TreeNode) : string :=
  Path_path (node_path n) h.

(** every node of the graph, in pre-order *)
Fixpoint subnodes (n : TreeNode) : list TreeNode :=
  n :: match node_children n with
       | None => []
       | Some cs => flat_map subnodes cs
       end.

Definition is_leaf (n : TreeNode) : bool := negb (node_isDirectory n).

Definition is_nonempty_directory (n : TreeNode) : bool :=
  node_isDirectory n && negb (Nat.eqb (length (children_of n)) 0).

(** the [for] loop the three traversals share: [paths = paths.concat(g(child))]
    for each child in order *)
Definition concat_loop (g : TreeNode -> store -> list addr * store) :=
  fix loop (cs : list TreeNode) (paths : list addr) (h : store)
    : list addr * store :=
    match cs with
    | [] => (paths, h)
    | childNode :: cs' =>
        let '(sub, h') := g childNode h in
        loop cs' (paths ++ sub) h'
    end.

(** a traversal [g] returns fresh clones holding the strings [s] *)
Definition clones (g : TreeNode -> store -> list addr * store)
  (s : store -> TreeNode -> list string) (n : TreeNode) : Prop :=
  forall h, in_store n h ->
    g n h = (seq (length h) (length (s h n)), h ++ s h n).

(** a view [s] reads the store at the graph's own addresses only *)
Definition local_view (s : store -> TreeNode -> list string) : Prop :=
  forall n (h h' : store),
    in_store n h -> h `prefix_of` h' -> s h' n = s h n.

(** every [children] that was never assigned, read as the empty sequence *)
Fixpoint absent_as_empty (n : TreeNode) : TreeNode :=
  match n with
  | Node p isDirectory children =>
      Node p isDirectory
        (Some match children with
              | None => []
              | Some cs => map absent_as_empty cs
              end)
  end.

End Views.

(** *** Clones

    What it is for the result [r] of a traversal of [node], started in the
    store [h], to consist of fresh clones of the nodes [selected]: the
    returned objects hold, in order, the path strings of the selected nodes;
    they are distinct objects, none of which existed before, so none is the
    [Path] of a node; and whatever in-place composition calls are then made
    on them, every [Path] of the graph still holds the string it held. *)

Section Clones.
Context `{NP : NodePath}.

Definition fresh_clones (h : store) (node : TreeNode)
  (selected : list TreeNode) (r : list addr * store) : Prop :=
  strings_of r = map (path_in (snd r)) selected
  /\ NoDup (fst r)
  /\ Forall (fun a => length h <= a < length (snd r)
                      /\ ~ In a (node_addrs node)) (fst r)
  /\ (forall calls : list (addr * mutation),
         Forall (fun c => In (fst c) (fst r)) calls ->
         Forall (fun b => Path_path b (mutate_all calls (snd r))
                          = Path_path b h)
           (node_addrs node)).

End Clones.

(** *** A graph against the storage it was resolved from *)

Section Agreement.
Context `{NP : NodePath}.
Variable st : Storage.

(** a directory node has one child per name of its listing *)
Definition listed (h : store) (m : TreeNode) : Prop :=
  node_isDirectory m = true ->
  exists names,
    nfs_readdir st (Path_absolute (node_path m) h) = Some names
    /\ length (children_of m) = length names.

Definition agrees (h : store) (n : TreeNode) : Prop :=
  Forall (listed h) (subnodes n).

(** what the resolver establishes of a graph *)
Definition built (h : store) (n : TreeNode) : Prop :=
  in_store n h /\ well_built n = true /\ agrees h n.

End Agreement.

(** *** A directory subtree on disk

    What the storage holds at and below one absolute path: a file, a
    directory with its listing in [readdir] order, or an entry on which one
    of the three storage calls fails. *)

Inductive entry :=
| File
| Dir (listing : list (string * entry))
| Missing      (** [access] rejects *)
| Unstatable   (** [access] resolves, [stat] rejects *)
| Unlistable.  (** a directory whose [readdir] rejects *)

Definition stat_is (st : Storage) (abs : string) (d : bool) : bool :=
  match nfs_stat st abs with
  | Some s => Bool.eqb (stats_isDirectory s) d
  | None => false
  end.

Definition listing_is (st : Storage) (abs : string) (names : list string)
  : bool :=
  match nfs_readdir st abs with
  | Some l => if decide (l = names) then true else false
  | None => false
  end.

(** what [stat] says of the entry *)
Definition is_dir (e : entry) : bool :=
  match e with
  | Dir _ | Unlistable => true
  | _ => false
  end.

(** the entry can be stat'ed *)
Definition statable (e : entry) : bool :=
  match e with
  | Missing | Unstatable => false
  | _ => true
  end.

(** what [FS.stat] does on the entry at [abs] *)
Definition stat_of (abs : string) (e : entry) : outcome Stats :=
  match e with
  | Missing => Throws (NotAccessible abs)
  | Unstatable => Throws (Native "stat" abs)
  | _ => Returns {| stats_isDirectory := is_dir e |}
  end.

(** the storage holds [e] at the absolute path [abs] *)
Fixpoint holds (st : Storage) (abs : string) (e : entry) : bool :=
  match e with
  | File => nfs_access st abs && stat_is st abs false
  | Dir l =>
      nfs_access st abs && stat_is st abs true
      && listing_is st abs (map fst l)
      && (fix all (l : list (string * entry)) : bool :=
            match l with
            | [] => true
            | (n, c) :: l' => holds st (Posix.child_abs abs n) c && all l'
            end) l
  | Missing => negb (nfs_access st abs)
  | Unstatable =>
      nfs_access st abs
      && match nfs_stat st abs with None => true | Some _ => false end
  | Unlistable =>
      nfs_access st abs && stat_is st abs true
      && match nfs_readdir st abs with None => true | Some _ => false end
  end.

(** every listing holds names, each once *)
Fixpoint names_ok (e : entry) : bool :=
  match e with
  | Dir l =>
      forallb Posix.is_name (map fst l)
      && (if decide (NoDup (map fst l)) then true else false)
      && (fix all (l : list (string * entry)) : bool :=
            match l with
            | [] => true
            | (_, c) :: l' => names_ok c && all l'
            end) l
  | _ => true
  end.

(** the number of entries below the root *)
Fixpoint entries (e : entry) : nat :=
  match e with
  | Dir l =>
      (fix sum (l : list (string * entry)) : nat :=
         match l with
         | [] => 0
         | (_, c) :: l' => S (entries c) + sum l'
         end) l
  | _ => 0
  end.

(** the number of levels, the root included *)
Fixpoint height (e : entry) : nat :=
  match e with
  | Dir l =>
      S ((fix most (l : list (string * entry)) : nat :=
            match l with
            | [] => 0
            | (_, c) :: l' => Nat.max (height c) (most l')
            end) l)
  | _ => 1
  end.

(** the rejections the storage has in store at and below [abs] *)
Fixpoint failures (abs : string) (e : entry) : list error :=
  match e with
  | File => []
  | Dir l =>
      (fix each (l : list (string * entry)) : list error :=
         match l with
         | [] => []
         | (n, c) :: l' => failures (Posix.child_abs abs n) c ++ each l'
         end) l
  | Missing => [NotAccessible abs]
  | Unstatable => [Native "stat" abs]
  | Unlistable => [Native "readdir" abs]
  end.

(** the path strings of the subtree in pre-order, from the root's own *)
Fixpoint expected_paths (p : string) (e : entry) : list string :=
  p :: match e with
       | Dir l =>
           (fix each (l : list (string * entry)) : list string :=
              match l with
              | [] => []
              | (n, c) :: l' =>
                  expected_paths (Posix.join [p; n]) c ++ each l'
              end) l
       | _ => []
       end.

(** the segments of the absolute paths of the subtree in pre-order, from
    the root's own *)
Fixpoint expected_segments (segs : list string) (e : entry)
  : list (list string) :=
  segs :: match e with
          | Dir l =>
              (fix each (l : list (string * entry)) : list (list string) :=
                 match l with
                 | [] => []
                 | (n, c) :: l' => expected_segments (segs ++ [n]) c ++ each l'
                 end) l
          | _ => []
          end.

(** what resolving the children of a node does when the storage holds [e]
    at the node's absolute path and [stat] succeeded on it: without any
    rejection in store the node is completed and its pre-order is the
    subtree's; with one, the call rejects with one of them *)
Definition resolver_spec `{NP : NodePath} (st : Storage) (sched : Scheduler)
  (e : entry) : Prop :=
  forall fuel a (h : store),
    a < length h ->
    holds st (Path_absolute a h) e = true ->
    names_ok e = true ->
    statable e = true ->
    height e <= fuel ->
    match failures (Path_absolute a h) e with
    | [] =>
        exists kids h',
          _resolveChildren st sched fuel a (is_dir e) h = Returns (kids, h')
          /\ preorder h' (Node a (is_dir e) kids)
             = expected_paths (Path_path a h) e
    | fs =>
        exists err,
          _resolveChildren st sched fuel a (is_dir e) h = Throws err
          /\ In err fs
    end.

(** *** [Path] calls on fresh objects

    The calls of the statements on strings: each makes its [Path] objects in
    an empty store and reads the result back. *)

Section Calls.
Context `{NP : NodePath}.

(** [new Path(x).append(y).path] *)
Definition joined (x y : string) : string :=
  let '(a, h) := Path_new (Raw x) [] in
  Path_path a (Path_append a [Raw y] h).

(** [new Path(x).postfix(y).path] *)
Definition postfixed (x y : string) : string :=
  let '(a, h) := Path_new (Raw x) [] in
  Path_path a (Path_postfix a (Raw y) h).

(** [new Path(p).inside(q)] *)
Definition inside_of (p q : string) : bool :=
  let '(a, h) := Path_new (Raw p) [] in
  fst (Path_inside a (Raw q) h).

(** [new Path(p).pop().path] *)
Definition popped (p : string) : outcome string :=
  let '(a, h) := Path_new (Raw p) [] in
  match Path_pop a h with
  | Returns h' => Returns (Path_path a h')
  | Throws e => Throws e
  | Beyond => Beyond
  end.

(** [new Path(p).relativeTo(q).path] *)
Definition relative_of (p q : string) : outcome string :=
  let '(a, h) := Path_new (Raw p) [] in
  match Path_relativeTo a (Raw q) h with
  | Returns (r, h') => Returns (Path_path r h')
  | Throws e => Throws e
  | Beyond => Beyond
  end.

(** [new Path(p).absolute] *)
Definition absolute_of (p : string) : string :=
  let '(a, h) := Path_new (Raw p) [] in Path_absolute a h.

End Calls.

(** an error of [FS.stat] on the absolute path [abs] *)
Definition stat_failure (err : error) (abs : string) : Prop :=
  err = NotAccessible abs \/ err = Native "stat" abs.

(** *** Descendants, in the words of the specification *)

(** [t] is [q] followed by one or more names, on absolute forms *)
Definition strict_descendant (t q : string) : Prop :=
  exists n names,
    Forall (fun m => Posix.is_name m = true) (n :: names)
    /\ t = fold_left Posix.child_abs (n :: names) q.

(** ** The scenario of the specification: [/a] holds the file [x.txt] and
    the empty directory [y] *)

Definition scenario_entry : entry := Dir [("x.txt", File); ("y", Dir [])].

Definition scenario_storage : Storage := {|
  nfs_access := fun abs =>
    existsb (String.eqb abs) ["/a"; "/a/x.txt"; "/a/y"];
  nfs_stat := fun abs =>
    if String.eqb abs "/a" then Some {| stats_isDirectory := true |}
    else if String.eqb abs "/a/x.txt" then Some {| stats_isDirectory := false |}
    else if String.eqb abs "/a/y" then Some {| stats_isDirectory := true |}
    else None;
  nfs_readdir := fun abs =>
    if String.eqb abs "/a" then Some ["x.txt"; "y"]
    else if String.eqb abs "/a/y" then Some []
    else None;
|}.

(** the graph [FS.tree("/a")] returns on it, and the store it leaves *)
Definition scenario_node : TreeNode :=
  Node 0 true (Some [Node 3 false None; Node 4 true None]).

Definition scenario_store : list string :=
  ["/a"; "/a"; "/a"; "/a/x.txt"; "/a/y"; "/a/x.txt"; "/a/y"; "/a/y"].

(** the same directory after [x.txt] was removed behind the listing's back *)
Definition broken_entry : entry := Dir [("x.txt", Missing); ("y", Dir [])].

Definition broken_storage : Storage := {|
  nfs_access := fun abs => existsb (String.eqb abs) ["/a"; "/a/y"];
  nfs_stat := nfs_stat scenario_storage;
  nfs_readdir := nfs_readdir scenario_storage;
|}.

(** ** More of [Path] and [FS] *)

Section MoreCalls.
Context `{NP : NodePath}.

(** [new Path(p).is(q)] *)
Definition is_of (p q : string) : bool :=
  let '(a, h) := Path_new (Raw p) [] in
  fst (Path_is a (Raw q) h).

(** the calls that set the path to a result of [npath.join] *)
Definition joins (m : mutation) : bool :=
  match m with
  | Mappend _ | Mprepend _ | Mpush _ | Mprefix _ | Mpostfix _ => true
  | Mpop | Mreplace _ => false
  end.

End MoreCalls.

(** the arguments that [npath.join] keeps *)
Definition nonempty (args : list string) : list string :=
  List.filter (fun a => negb (Str.is_empty a)) args.

Module Text.

(** a character that a pattern takes for itself, or the dot, which a
    pattern takes for any character *)
Definition plain_char (c : ascii) : bool :=
  negb (RegExp.syntax_char c) || Ascii.eqb c ".".

Fixpoint plain (s : string) : bool :=
  match s with
  | EmptyString => true
  | String c s' => plain_char c && plain s'
  end.

(** what [new RegExp] makes of plain text that is followed by [k] *)
Fixpoint literal (s : string) (k : RegExp.re) : RegExp.re :=
  match s with
  | EmptyString => k
  | String c s' =>
      RegExp.Seq (if Ascii.eqb c "." then RegExp.AnyChar else RegExp.Char c)
        (literal s' k)
  end.

(** the two separators of the patterns of [pop] and [relativeTo] *)
Definition separators : RegExp.re := RegExp.Class ["/"%char; "\"%char].

(** [new RegExp(pop_pattern n)] and [new RegExp(relativeTo_pattern a)] on
    plain text *)
Definition pop_re (n : string) : RegExp.re :=
  RegExp.Seq (RegExp.Opt separators)
    (literal n (RegExp.Seq RegExp.Eol RegExp.Empty)).

Definition relativeTo_re (a : string) : RegExp.re :=
  literal a (RegExp.Seq separators RegExp.Empty).

(** the text does not start with a quantifier *)
Definition unquantified (s : string) : bool :=
  match s with
  | EmptyString => true
  | String c _ =>
      negb (RegExp.is_char c "*" || RegExp.is_char c "+"
            || RegExp.is_char c "?" || RegExp.is_char c "{")
  end.

(** the text [t] is what the plain pattern text [n] matches, character by
    character *)
Fixpoint agree (n t : string) : bool :=
  match n, t with
  | EmptyString, EmptyString => true
  | String c n', String d t' =>
      (if Ascii.eqb c "." then negb (RegExp.line_terminator d)
       else RegExp.is_char d c)
      && agree n' t'
  | _, _ => false
  end.

(** the continuation of [search]: the match ends where the pattern does *)
Definition matched : nat -> string -> option nat := fun e _ => Some e.

End Text.

Section MoreViews.
Context `{NP : NodePath}.

(** a directory node without children *)
Definition is_empty_directory (n : TreeNode) : bool :=
  node_isDirectory n && Nat.eqb (length (children_of n)) 0.

End MoreViews.

(** [npath.dirname], which [get dirname()] calls, and through it
    [FS.write] and [FS.append] *)
Class NodePathDirname := {
  npath_dirname : string -> string;
}.

Module PosixDirname.

(** the [for] loop of [dirname], from the character at index [i] down to
    the one at index 1, the characters coming last first: [Some end] when
    it breaks, [None] when it runs out with [end] still [-1] *)
Fixpoint dirname_loop (chars : list ascii) (i : nat) (matchedSlash : bool)
  : option nat :=
  match chars, i with
  | c :: chars', S i' =>
      if Ascii.eqb c "/" then
        if matchedSlash then dirname_loop chars' i' true else Some i
      else dirname_loop chars' i' false
  | _, _ => None
  end.

Definition dirname (path : string) : string :=
  if Str.is_empty path then "."
  else
    let hasRoot := Str.first_is "/" path in
    match dirname_loop (rev (list_ascii_of_string path))
            (String.length path - 1) true with
    | None => if hasRoot then "/" else "."
    | Some e =>
        if hasRoot && Nat.eqb e 1 then "//" else String.substring 0 e path
    end.

#[export] Instance npath_posix_dirname : NodePathDirname :=
  {| npath_dirname := dirname |}.

(** [k] separators *)
Fixpoint slashes (k : nat) : string :=
  match k with
  | 0 => ""
  | S k' => String "/" (slashes k')
  end.

End PosixDirname.

Section Getters.
Context `{NP : NodePath} `{ND : NodePathDirname}.

(** [get dirname()] *)
Definition Path_dirname (a : addr) (h : store) : string :=
  npath_dirname (Path_path a h).

(** [new Path(p).dirname] and [new Path(p).basename] *)
Definition dirname_of (p : string) : string :=
  let '(a, h) := Path_new (Raw p) [] in Path_dirname a h.

Definition basename_of (p : string) : string :=
  let '(a, h) := Path_new (Raw p) [] in Path_basename a h.

End Getters.

(** ** [fs/promises], the calls on file contents

    [disk] is the state of the file system. What is read is a function of
    the state; [writeFile], [appendFile] and [mkdir] give the next state,
    or reject. Nothing else changes the file system meanwhile. *)

Record Files (disk : Type) := {
  (** [nfs.access], [nfs.stat] and [nfs.readdir] in a state *)
  files_storage : disk -> Storage;
  (** [isFile()] of the [Stats] that [nfs.stat(abs)] resolves with *)
  files_isFile : disk -> string -> bool;
  (** [(await nfs.readFile(abs)).toString()], [None] when it rejects *)
  nfs_readFile : disk -> string -> option string;
  (** [nfs.writeFile(abs, content)], [None] when it rejects *)
  nfs_writeFile : string -> string -> disk -> option disk;
  (** [nfs.appendFile(abs, content)], [None] when it rejects *)
  nfs_appendFile : string -> string -> disk -> option disk;
  (** [nfs.mkdir(abs, {recursive: true})], [None] when it rejects *)
  nfs_mkdir : string -> disk -> option disk;
}.
Arguments files_storage {disk}.
Arguments files_isFile {disk}.
Arguments nfs_readFile {disk}.
Arguments nfs_writeFile {disk}.
Arguments nfs_appendFile {disk}.
Arguments nfs_mkdir {disk}.

Inductive file_error :=
| OfStat (e : error)
    (** the rejection of [FS.stat], passed on *)
| NotAFile (abs : string)
    (** [FS.read]: ['<abs>' is not a file that can be read.] *)
| NotADirectoryToWrite (abs : string)
    (** [FS.write], [FS.append]:
        ['<abs>' is not a directory to which a file can be written.] *)
| NativeFile (call : string) (abs : string).
    (** a rejection of [fs/promises] itself, passed on as it is *)

Inductive settled (A : Type) :=
| Resolves (a : A)
| Rejects (e : file_error)
| Unsettled.
Arguments Resolves {A} a.
Arguments Rejects {A} e.
Arguments Unsettled {A}.

Section Files.
Context `{NP : NodePath} `{ND : NodePathDirname}.
Context {disk : Type}.
Variable F : Files disk.

(** [FS.read(path)] *)
Definition FS_read (path : path_like) (d : disk) (h : store)
  : settled (string * store) :=
  let '(a, h1) := Path_from path h in
  match FS_stat (files_storage F d) (Obj a) h1 with
  | Returns (stat, h2) =>
      if negb (files_isFile F d (Path_absolute a h1))
      then Rejects (NotAFile (Path_absolute a h2))
      else
        match nfs_readFile F d (Path_absolute a h2) with
        | Some content => Resolves (content, h2)
        | None => Rejects (NativeFile "readFile" (Path_absolute a h2))
        end
  | Throws e => Rejects (OfStat e)
  | Beyond => Unsettled
  end.

(** [FS.write(path, content)] *)
Definition FS_write (path : path_like) (content : string) (d : disk)
  (h : store) : settled (disk * store) :=
  let '(a, h1) := Path_from path h in
  let '(dir, h2) := Path_from (Raw (Path_dirname a h1)) h1 in
  match FS_stat (files_storage F d) (Raw (Path_absolute dir h2)) h2 with
  | Returns (dirstat, h3) =>
      if negb (stats_isDirectory dirstat)
      then Rejects (NotADirectoryToWrite (Path_absolute dir h3))
      else
        match nfs_writeFile F (Path_absolute a h3) content d with
        | Some d' => Resolves (d', h3)
        | None => Rejects (NativeFile "writeFile" (Path_absolute a h3))
        end
  | Throws e => Rejects (OfStat e)
  | Beyond => Unsettled
  end.

(** [FS.append(path, content)] *)
Definition FS_append (path : path_like) (content : string) (d : disk)
  (h : store) : settled (disk * store) :=
  let '(a, h1) := Path_from path h in
  let '(dir, h2) := Path_from (Raw (Path_dirname a h1)) h1 in
  match FS_stat (files_storage F d) (Raw (Path_absolute dir h2)) h2 with
  | Returns (dirstat, h3) =>
      if negb (stats_isDirectory dirstat)
      then Rejects (NotADirectoryToWrite (Path_absolute dir h3))
      else
        match nfs_appendFile F (Path_absolute a h3) content d with
        | Some d' => Resolves (d', h3)
        | None => Rejects (NativeFile "appendFile" (Path_absolute a h3))
        end
  | Throws e => Rejects (OfStat e)
  | Beyond => Unsettled
  end.

(** [FS.mkdir(path)] *)
Definition FS_mkdir (path : path_like) (d : disk) (h : store)
  : settled (disk * store) :=
  let '(a, h1) := Path_from path h in
  match nfs_mkdir F (Path_absolute a h1) d with
  | Some d' => Resolves (d', h1)
  | None => Rejects (NativeFile "mkdir" (Path_absolute a h1))
  end.

End Files.

(** what a call settles with, the store left aside *)
Definition settled_with {A} (r : settled (A * list string)) : settled A :=
  match r with
  | Resolves (a, _) => Resolves a
  | Rejects e => Rejects e
  | Unsettled => Unsettled
  end.

(** what the file system is taken to do: a file that was written is
    there, is a file, and holds what was written; a file that was appended
    to holds what it held and then what was appended; a directory that was
    made is there and is a directory *)
Record lawful {disk : Type} (F : Files disk) : Prop := {
  written : forall abs content d d',
    nfs_writeFile F abs content d = Some d' ->
    nfs_access (files_storage F d') abs = true
    /\ (exists s, nfs_stat (files_storage F d') abs = Some s)
    /\ files_isFile F d' abs = true
    /\ nfs_readFile F d' abs = Some content;
  appended : forall abs content d d' before,
    nfs_readFile F d abs = Some before ->
    nfs_appendFile F abs content d = Some d' ->
    nfs_access (files_storage F d') abs = true
    /\ (exists s, nfs_stat (files_storage F d') abs = Some s)
    /\ files_isFile F d' abs = true
    /\ nfs_readFile F d' abs = Some (before +:+ content);
  made : forall abs d d',
    nfs_mkdir F abs d = Some d' ->
    nfs_access (files_storage F d') abs = true
    /\ exists s, nfs_stat (files_storage F d') abs = Some s
                 /\ stats_isDirectory s = true;
}.

(** a file system in memory, for the examples: the files that were
    written, by absolute path, the last one first; every other path is a
    directory *)
Definition memory : Type := list (string * string).

Fixpoint memory_file (d : memory) (abs : string) : option string :=
  match d with
  | [] => None
  | (p, content) :: d' =>
      if String.eqb p abs then Some content else memory_file d' abs
  end.

Definition memory_is_file (d : memory) (abs : string) : bool :=
  match memory_file d abs with Some _ => true | None => false end.

Definition memory_files : Files memory := {|
  files_storage := fun d => {|
    nfs_access := fun _ => true;
    nfs_stat := fun abs =>
      Some {| stats_isDirectory := negb (memory_is_file d abs) |};
    nfs_readdir := fun _ => None;
  |};
  files_isFile := memory_is_file;
  nfs_readFile := memory_file;
  nfs_writeFile := fun abs content d => Some ((abs, content) :: d);
  nfs_appendFile := fun abs content d =>
    match memory_file d abs with
    | Some before => Some ((abs, before +:+ content) :: d)
    | None => Some ((abs, content) :: d)
    end;
  nfs_mkdir := fun abs d =>
    if memory_is_file d abs then None else Some d;
|}.

(** * Facts *)

(** ** The models on the examples of Node's documentation *)

Module ModelChecks.

Example normalize_documented :
  map Posix.normalize
    [""; "/foo/bar//baz/asdf/quux/.."; "a/"; "./"; "a/.."; "/../b";
     "../../a/./b/..//c/"; "a//."; "a/../.."; "/a/../.."]
  = ["."; "/foo/bar/baz/asdf"; "a/"; "./"; "."; "/b"; "../../a/c/"; "a";
     ".."; "/"].
Proof. reflexivity. Qed.

Example join_documented :
  map Posix.join
    [["/foo"; "bar"; "baz/asdf"; "quux"; ".."]; [""; ""]; ["."; "/x"];
     [""; "/x"]; ["a"; "/.."]; ["/.."; "b"]; ["/"; "a"]]
  = ["/foo/bar/baz/asdf"; "."; "x"; "/x"; "."; "/b"; "/a"].
Proof. reflexivity. Qed.

Example resolve_documented :
  map (Posix.resolve "/home/u")
    [""; "a"; "/"; "/a/../b/"; "../../../x"; "./a/"; "/foo/bar/./baz"]
  = ["/home/u"; "/home/u/a"; "/"; "/b"; "/x"; "/home/u/a"; "/foo/bar/baz"].
Proof. reflexivity. Qed.

Example basename_documented :
  map Posix.basename [""; "/"; "a/b/"; "a("; "/foo/bar/quux.html"]
  = [""; ""; "b"; "a("; "quux.html"].
Proof. reflexivity. Qed.

Example compile_rejects :
  map RegExp.compile ["a)"; "a["; "a+*"; "(a"; "a\"]
  = [RegExp.PSyntaxError; RegExp.PSyntaxError; RegExp.PSyntaxError;
     RegExp.PSyntaxError; RegExp.PSyntaxError].
Proof. reflexivity. Qed.

Example replace_leftmost :
  [RegExp.replaced "(a|b)*c" "X" "zzababcq";
   RegExp.replaced "a.c$" "" "abcabc";
   RegExp.replaced "[/\\]{0,1}b$" "" "a/b";
   RegExp.replaced "[/\\]{0,1}b$" "" "a/b/";
   RegExp.replaced "x*" "-" "abc"]
  = [Some "zzXq"; Some "abc"; Some "a"; Some "a/b/"; Some "-abc"].
Proof. reflexivity. Qed.

Section Pop.
#[local] Instance posix_at_root : NodePath := Posix.npath root_process.

(** [pop] removes the base name and one separator before it; after a
    trailing separator the base name is no suffix and nothing is removed *)
Example pop_examples :
  map popped ["/a/b.txt"; "a/b"; "a"; "a/b/"; ""]
  = [Returns "/a"; Returns "a"; Returns ""; Returns "a/b/"; Returns ""].
Proof. reflexivity. Qed.

Example relativeTo_examples :
  [relative_of "/a/b/c" "/a"; relative_of "/a/b" "/c"; relative_of "/a" "/a"]
  = [Returns "b/c"; Returns "/a/b"; Returns "/a"].
Proof. reflexivity. Qed.

End Pop.

End ModelChecks.

(** ** Strings *)

Module StrFacts.
Import Str.

Lemma is_empty_true s : is_empty s = true <-> s = "".
Proof. destruct s; simpl; split; congruence. Qed.

Lemma is_empty_false s : is_empty s = false <-> s <> "".
Proof. destruct s; simpl; split; congruence. Qed.

Lemma sapp_nil_l (a : string) : "" +:+ a = a.
Proof. reflexivity. Qed.

Lemma sapp_cons (x : ascii) (a b : string) :
  String x a +:+ b = String x (a +:+ b).
Proof. reflexivity. Qed.

Ltac str_simpl := rewrite ?sapp_cons, ?sapp_nil_l in *; simpl in *.

Lemma sapp_assoc (a b c : string) : (a +:+ b) +:+ c = a +:+ (b +:+ c).
Proof. induction a as [|x a IH]; str_simpl; [reflexivity | now rewrite IH]. Qed.

Lemma sapp_nil_r (a : string) : a +:+ "" = a.
Proof. induction a as [|x a IH]; str_simpl; [reflexivity | now rewrite IH]. Qed.

Lemma sapp_length (a b : string) :
  String.length (a +:+ b) = String.length a + String.length b.
Proof. induction a as [|x a IH]; str_simpl; [reflexivity | now rewrite IH]. Qed.

Lemma sapp_eq_nil (a b : string) : a +:+ b = "" -> a = "" /\ b = "".
Proof. destruct a; str_simpl; [auto | discriminate]. Qed.

Lemma sapp_inv_head (a b c : string) : a +:+ b = a +:+ c -> b = c.
Proof. induction a as [|x a IH]; str_simpl; [auto | intros [= H]; auto]. Qed.

Lemma prefix_app (a b : string) : String.prefix a (a +:+ b) = true.
Proof.
  induction a as [|x a IH]; str_simpl.
  - now destruct b.
  - destruct (ascii_dec x x); [assumption | congruence].
Qed.

Lemma prefix_split (a s : string) :
  String.prefix a s = true -> exists r, s = a +:+ r.
Proof.
  revert s; induction a as [|x a IH]; intros s H.
  - now exists s.
  - destruct s as [|y s]; simpl in H; [discriminate |].
    destruct (ascii_dec x y) as [->|]; [| discriminate].
    destruct (IH _ H) as [r ->]. now exists r.
Qed.

Lemma prefix_iff (a s : string) :
  String.prefix a s = true <-> exists r, s = a +:+ r.
Proof.
  split; [apply prefix_split | intros [r ->]; apply prefix_app].
Qed.

Lemma prefix_length (a s : string) :
  String.prefix a s = true -> String.length a <= String.length s.
Proof. intros [r ->]%prefix_split. rewrite sapp_length. lia. Qed.

Lemma first_is_app c (a b : string) :
  a <> "" -> first_is c (a +:+ b) = first_is c a.
Proof. destruct a; str_simpl; congruence. Qed.

Lemma endsWith_char_app c (a b : string) :
  b <> "" -> endsWith_char c (a +:+ b) = endsWith_char c b.
Proof.
  intros Hb. induction a as [|x a IH]; str_simpl; [reflexivity |].
  rewrite IH. destruct (a +:+ b) eqn:E; [| reflexivity].
  apply sapp_eq_nil in E. tauto.
Qed.

Lemma has_char_app c (a b : string) :
  has_char c (a +:+ b) = has_char c a || has_char c b.
Proof.
  induction a as [|x a IH]; str_simpl; [reflexivity |].
  rewrite IH. now rewrite orb_assoc.
Qed.

Lemma has_char_first c (s : string) :
  has_char c s = false -> first_is c s = false.
Proof. destruct s; simpl; [reflexivity |]. now intros [? ?]%orb_false_iff. Qed.

Lemma has_char_last c (s : string) :
  has_char c s = false -> endsWith_char c s = false.
Proof.
  induction s as [|x s IH]; simpl; [reflexivity |].
  intros [Hx Hs]%orb_false_iff. destruct s; [assumption | now apply IH].
Qed.

Lemma concat_cons2 (sp x y : string) (l : list string) :
  String.concat sp (x :: y :: l) = x +:+ sp +:+ String.concat sp (y :: l).
Proof. reflexivity. Qed.

Lemma concat_snoc (sp : string) (l : list string) (x : string) :
  l <> [] -> String.concat sp (l ++ [x]) = String.concat sp l +:+ sp +:+ x.
Proof.
  induction l as [|y l IH]; [congruence |]. intros _.
  destruct l as [|z l].
  - reflexivity.
  - change ((y :: z :: l) ++ [x]) with (y :: (z :: l) ++ [x]).
    change ((z :: l) ++ [x]) with (z :: l ++ [x]) at 1.
    rewrite concat_cons2.
    change (z :: l ++ [x]) with ((z :: l) ++ [x]).
    rewrite IH by congruence. rewrite concat_cons2.
    now rewrite !sapp_assoc.
Qed.

Lemma concat_nonempty (sp : string) (l : list string) :
  l <> [] -> Forall (fun s => s <> "") l -> String.concat sp l <> "".
Proof.
  destruct l as [|x l]; [congruence |]. intros _ H.
  apply Forall_cons_iff in H as [Hx _].
  destruct l; [exact Hx |].
  rewrite concat_cons2. intros E%sapp_eq_nil. tauto.
Qed.

End StrFacts.

(** ** [path.posix] *)

Module PosixFacts.
Import Str StrFacts Posix.

(** *** Pieces *)

Lemma split_not_nil s : split s <> [].
Proof.
  destruct s as [|c s]; simpl; [congruence |].
  destruct (Ascii.eqb c "/"); [congruence |].
  destruct (split s); congruence.
Qed.

Lemma split_cons_sep s : split (String "/" s) = "" :: split s.
Proof. reflexivity. Qed.

Lemma split_app_sep x y : split (x +:+ "/" +:+ y) = split x ++ split y.
Proof.
  induction x as [|c x IH].
  - reflexivity.
  - rewrite sapp_cons. simpl. rewrite IH.
    destruct (Ascii.eqb c "/"); [reflexivity |].
    destruct (split x) eqn:E; [now apply split_not_nil in E | reflexivity].
Qed.

Lemma split_snoc_sep x : split (x +:+ "/") = split x ++ [""].
Proof.
  rewrite <- (sapp_nil_r (x +:+ "/")), sapp_assoc. apply split_app_sep.
Qed.

Lemma split_nosep s : nosep s -> split s = [s].
Proof.
  unfold nosep. induction s as [|c s IH]; simpl; [reflexivity |].
  intros [Hc Hs]%orb_false_iff. rewrite Hc, (IH Hs). reflexivity.
Qed.

Lemma split_all_nosep s : Forall nosep (split s).
Proof.
  induction s as [|c s IH]; simpl.
  - now repeat constructor.
  - destruct (Ascii.eqb c "/") eqn:Hc.
    + constructor; [reflexivity | assumption].
    + destruct (split s) as [|seg segs].
      * constructor; [| constructor]. unfold nosep. simpl. now rewrite Hc.
      * apply Forall_cons_iff in IH as [Hseg Hsegs].
        constructor; [| assumption]. unfold nosep in *. simpl.
        now rewrite Hc.
Qed.

Lemma split_concat (segs : list string) :
  segs <> [] -> Forall nosep segs -> split (String.concat "/" segs) = segs.
Proof.
  induction segs as [|x l IH]; [congruence |]. intros _ H.
  apply Forall_cons_iff in H as [Hx Hl].
  destruct l as [|y l].
  - now apply split_nosep.
  - rewrite concat_cons2, split_app_sep, (split_nosep x Hx).
    rewrite IH; [reflexivity | congruence | assumption].
Qed.

(** *** One segment at a time *)

Lemma is_name_spec n :
  is_name n = true <-> n <> "" /\ n <> "." /\ n <> ".." /\ nosep n.
Proof.
  unfold is_name, nosep. rewrite !andb_true_iff, !negb_true_iff.
  rewrite is_empty_false, !String.eqb_neq. tauto.
Qed.

Lemma step_dropped m res s : dropped s -> step m res s = res.
Proof. now intros [-> | ->]. Qed.

Lemma step_name m res n : is_name n = true -> step m res n = n :: res.
Proof.
  intros (H1 & H2 & H3 & _)%is_name_spec. unfold step.
  apply String.eqb_neq in H1, H2, H3. now rewrite H1, H2, H3.
Qed.

Lemma step_up_name m res n :
  is_name n = true -> step m (n :: res) ".." = res.
Proof.
  intros (_ & _ & H3 & _)%is_name_spec. unfold step.
  apply String.eqb_neq in H3. now rewrite H3.
Qed.

Lemma step_up m res :
  step m res ".."
  = match res with
    | top :: below =>
        if String.eqb top ".."
        then (if m then ".." :: res else res)
        else below
    | [] => if m then [".."] else []
    end.
Proof. reflexivity. Qed.

Lemma step_cases s :
  nosep s -> dropped s \/ s = ".." \/ is_name s = true.
Proof.
  intros Hs. destruct (String.eqb_spec s ""); [left; now left |].
  destruct (String.eqb_spec s "."); [left; now right |].
  destruct (String.eqb_spec s ".."); [right; now left |].
  right; right. now apply is_name_spec.
Qed.

Lemma step_kept m res s :
  nosep s -> Forall kept res -> Forall kept (step m res s).
Proof.
  intros Hs Hres. destruct (step_cases s Hs) as [H | [-> | H]].
  - now rewrite step_dropped.
  - rewrite step_up. destruct res as [|top below].
    + destruct m; [| constructor].
      constructor; [now right | constructor].
    + destruct (String.eqb top "..").
      * destruct m; [constructor; [now right | assumption] | assumption].
      * now inversion Hres.
  - rewrite step_name by assumption. constructor; [now left | assumption].
Qed.

Lemma step_names res s :
  nosep s -> Forall (fun n => is_name n = true) res ->
  Forall (fun n => is_name n = true) (step false res s).
Proof.
  intros Hs Hres. destruct (step_cases s Hs) as [H | [-> | H]].
  - now rewrite step_dropped.
  - rewrite step_up. destruct res as [|top below]; [constructor |].
    destruct (String.eqb top ".."); [assumption | now inversion Hres].
  - rewrite step_name by assumption. now constructor.
Qed.

Lemma fold_step_kept m segs res :
  Forall nosep segs -> Forall kept res ->
  Forall kept (fold_left (step m) segs res).
Proof.
  revert res; induction segs as [|s segs IH]; intros res Hs Hres; simpl.
  - assumption.
  - inversion Hs; subst. apply IH; [assumption |]. now apply step_kept.
Qed.

Lemma fold_step_names segs res :
  Forall nosep segs -> Forall (fun n => is_name n = true) res ->
  Forall (fun n => is_name n = true) (fold_left (step false) segs res).
Proof.
  revert res; induction segs as [|s segs IH]; intros res Hs Hres; simpl.
  - assumption.
  - inversion Hs; subst. apply IH; [assumption |]. now apply step_names.
Qed.

Lemma fold_step_snoc m segs s res :
  fold_left (step m) (segs ++ [s]) res = step m (fold_left (step m) segs res) s.
Proof. now rewrite fold_left_app. Qed.

(** pushing names back on a stack *)
Lemma fold_step_push m (names res : list string) :
  Forall (fun n => is_name n = true) names ->
  fold_left (step m) names res = rev names ++ res.
Proof.
  revert res; induction names as [|n names IH]; intros res H; simpl.
  - reflexivity.
  - inversion H; subst. rewrite step_name by assumption.
    rewrite IH by assumption. now rewrite <- List.app_assoc.
Qed.

(** normalizing a relative tail first changes nothing *)
Lemma refold m (ys res : list string) :
  Forall nosep ys ->
  fold_left (step m) (rev (fold_left (step true) ys [])) res
  = fold_left (step m) ys res.
Proof.
  induction ys as [|y ys IH] using rev_ind; intros Hys; [reflexivity |].
  apply Forall_app in Hys as [Hys Hy]. inversion Hy; subst.
  specialize (IH Hys). rewrite !fold_step_snoc.
  pose proof (fold_step_kept true ys [] Hys ltac:(constructor)) as HT.
  set (T := fold_left (step true) ys []) in *.
  destruct (step_cases y H1) as [Hd | [-> | Hn]].
  - now rewrite !step_dropped.
  - rewrite <- IH. destruct T as [|t T'].
    + reflexivity.
    + inversion HT as [|? ? [Ht | ->] HT']; subst.
      * rewrite (step_up_name true) by assumption.
        simpl rev. rewrite fold_step_snoc.
        rewrite (step_name m _ t) by assumption.
        now rewrite step_up_name.
      * change (step true (".." :: T') "..") with (".." :: ".." :: T').
        change (rev (".." :: ".." :: T')) with (rev (".." :: T') ++ [".."]).
        now rewrite fold_step_snoc.
  - rewrite (step_name true) by assumption.
    simpl rev. rewrite fold_step_snoc, IH. reflexivity.
Qed.

(** *** [normalize] *)

Lemma kept_nonempty s : kept s -> s <> "".
Proof. intros [H%is_name_spec | ->]; [tauto | discriminate]. Qed.

Lemma kept_nosep s : kept s -> nosep s.
Proof. intros [H%is_name_spec | ->]; [tauto | reflexivity]. Qed.

Lemma name_kept s : is_name s = true -> kept s.
Proof. now left. Qed.

Lemma names_kept l :
  Forall (fun n => is_name n = true) l -> Forall kept l.
Proof. intros H. eapply Forall_impl; [exact H | intros; now left]. Qed.

Lemma segments_kept m x : Forall kept (segments m x).
Proof. apply fold_step_kept; [apply split_all_nosep | constructor]. Qed.

Lemma segments_names x : Forall (fun n => is_name n = true) (segments false x).
Proof. apply fold_step_names; [apply split_all_nosep | constructor]. Qed.

Lemma concat_kept_nonempty (T : list string) :
  T <> [] -> Forall kept T -> String.concat sep T <> "".
Proof.
  intros HT HK. apply concat_nonempty; [assumption |].
  eapply Forall_impl; [exact HK | apply kept_nonempty].
Qed.

Lemma normalize_render x :
  x <> "" ->
  normalize x
  = render (isAbsolute x) (trailingSeparator x)
      (segments (negb (isAbsolute x)) x).
Proof.
  intros Hx. unfold normalize, normalizeString, render.
  apply is_empty_false in Hx. rewrite Hx.
  pose proof (segments_kept (negb (isAbsolute x)) x) as HK.
  destruct (segments (negb (isAbsolute x)) x) as [|t T] eqn:E.
  - reflexivity.
  - assert (Hne : String.concat sep (rev (t :: T)) <> "").
    { apply concat_kept_nonempty.
      - intros H%(f_equal (@length _)). rewrite length_rev in H. discriminate.
      - now apply Forall_rev. }
    apply is_empty_false in Hne. rewrite Hne.
    destruct (isAbsolute x), (trailingSeparator x);
      rewrite ?sapp_nil_r; reflexivity.
Qed.

Lemma render_nonempty a t T : Forall kept T -> render a t T <> "".
Proof.
  intros HK. unfold render. destruct T as [|s T].
  - destruct a, t; discriminate.
  - assert (Hne : String.concat sep (rev (s :: T)) <> "").
    { apply concat_kept_nonempty.
      - intros H%(f_equal (@length _)). rewrite length_rev in H. discriminate.
      - now apply Forall_rev. }
    intros [E1 [E2 _]%sapp_eq_nil]%sapp_eq_nil. contradiction.
Qed.

Lemma normalize_nonempty x : normalize x <> "".
Proof.
  destruct (String.eqb_spec x "") as [-> | Hx]; [discriminate |].
  rewrite normalize_render by assumption.
  apply render_nonempty, segments_kept.
Qed.

Lemma concat_first_nosep (s : string) (l : list string) :
  s <> "" -> nosep s -> first_is "/" (String.concat sep (s :: l)) = false.
Proof.
  intros Hs Hn. destruct l.
  - now apply has_char_first.
  - rewrite concat_cons2, first_is_app by assumption.
    now apply has_char_first.
Qed.

Lemma isAbsolute_render a t T :
  Forall kept T -> isAbsolute (render a t T) = a.
Proof.
  intros HK. unfold render, isAbsolute. destruct T as [|s T].
  - destruct a, t; reflexivity.
  - destruct a; [reflexivity |]. rewrite sapp_nil_l.
    assert (HK' : Forall kept (rev (s :: T))) by now apply Forall_rev.
    destruct (rev (s :: T)) as [|u U] eqn:E.
    + apply (f_equal (@length _)) in E. rewrite length_rev in E. discriminate.
    + inversion HK'; subst.
      rewrite first_is_app.
      * apply concat_first_nosep; [now apply kept_nonempty | now apply kept_nosep].
      * apply concat_kept_nonempty; [congruence | assumption].
Qed.

Lemma trailing_render a t T :
  Forall kept T ->
  trailingSeparator (render a t T)
  = t || (a && match T with [] => true | _ => false end).
Proof.
  intros HK. unfold render, trailingSeparator. destruct T as [|s T].
  - destruct a, t; reflexivity.
  - rewrite andb_false_r, orb_false_r.
    assert (HK' : Forall kept (rev (s :: T))) by now apply Forall_rev.
    assert (Hne : rev (s :: T) <> []).
    { intros H%(f_equal (@length _)). rewrite length_rev in H. discriminate. }
    pose proof (concat_kept_nonempty _ Hne HK') as Hc.
    assert (Hlast : endsWith_char "/" (String.concat sep (rev (s :: T))) = false).
    { simpl rev. destruct (rev T) as [|u U] eqn:E.
      - simpl. apply has_char_last. inversion HK; subst. now apply kept_nosep.
      - rewrite concat_snoc by congruence.
        rewrite endsWith_char_app.
        + change (sep +:+ s) with (String "/" s).
          inversion HK; subst. pose proof (kept_nonempty _ H1).
          pose proof (has_char_last "/" s (kept_nosep _ H1)).
          destruct s; [congruence | exact H0].
        + discriminate. }
    destruct t.
    + rewrite <- sapp_assoc. now rewrite endsWith_char_app by discriminate.
    + rewrite sapp_nil_r.
      rewrite endsWith_char_app by assumption. exact Hlast.
Qed.

Lemma fold_step_render m a t T res :
  Forall kept T ->
  fold_left (step m) (split (render a t T)) res
  = fold_left (step m) (rev T) res.
Proof.
  intros HK. unfold render. destruct T as [|s T].
  - destruct a, t; reflexivity.
  - assert (HK' : Forall kept (rev (s :: T))) by now apply Forall_rev.
    assert (Hne : rev (s :: T) <> []).
    { intros H%(f_equal (@length _)). rewrite length_rev in H. discriminate. }
    assert (Hsp : split (String.concat sep (rev (s :: T))) = rev (s :: T)).
    { apply split_concat; [assumption |].
      eapply Forall_impl; [exact HK' | apply kept_nosep]. }
    destruct a, t; rewrite ?sapp_nil_l, ?sapp_nil_r.
    + change ("/" +:+ ?x) with (String "/" x). rewrite split_cons_sep.
      rewrite split_snoc_sep, Hsp. simpl fold_left at 1.
      rewrite fold_left_app. reflexivity.
    + change ("/" +:+ ?x) with (String "/" x). rewrite split_cons_sep, Hsp.
      reflexivity.
    + rewrite split_snoc_sep, Hsp, fold_left_app. reflexivity.
    + now rewrite Hsp.
Qed.

Lemma render_trailing_irrelevant a t1 t2 T :
  t1 = t2 \/ (a = true /\ T = []) -> render a t1 T = render a t2 T.
Proof. intros [-> | [-> ->]]; reflexivity. Qed.

(** the three ingredients of [normalize x] again, for a normalized [x] *)
Lemma segments_normalize m x res :
  x <> "" ->
  fold_left (step m) (split (normalize x)) res
  = fold_left (step m) (rev (segments (negb (isAbsolute x)) x)) res.
Proof.
  intros Hx. rewrite normalize_render by assumption.
  apply fold_step_render, segments_kept.
Qed.

Lemma isAbsolute_normalize x :
  x <> "" -> isAbsolute (normalize x) = isAbsolute x.
Proof.
  intros Hx. rewrite normalize_render by assumption.
  apply isAbsolute_render, segments_kept.
Qed.

Lemma trailing_normalize x :
  x <> "" ->
  trailingSeparator (normalize x)
  = trailingSeparator x
    || (isAbsolute x
        && match segments (negb (isAbsolute x)) x with
           | [] => true | _ => false end).
Proof.
  intros Hx. rewrite normalize_render by assumption.
  apply trailing_render, segments_kept.
Qed.

(** a stack is what its own segments give back *)
Lemma segments_stack m x :
  fold_left (step m) (rev (segments m x)) [] = segments m x.
Proof.
  destruct m.
  - unfold segments. apply refold, split_all_nosep.
  - rewrite fold_step_push.
    + now rewrite rev_involutive, app_nil_r.
    + apply Forall_rev, segments_names.
Qed.

Lemma normalize_ext x y :
  x <> "" -> y <> "" ->
  isAbsolute x = isAbsolute y ->
  segments (negb (isAbsolute x)) x = segments (negb (isAbsolute x)) y ->
  (trailingSeparator x = trailingSeparator y
   \/ (isAbsolute x = true /\ segments (negb (isAbsolute x)) x = [])) ->
  normalize x = normalize y.
Proof.
  intros Hx Hy Ha Hs Ht.
  rewrite (normalize_render x), (normalize_render y) by assumption.
  rewrite <- Ha, <- Hs. now apply render_trailing_irrelevant.
Qed.

Lemma normalize_idempotent x : normalize (normalize x) = normalize x.
Proof.
  destruct (String.eqb_spec x "") as [-> | Hx]; [reflexivity |].
  pose proof (normalize_nonempty x) as Hn.
  rewrite (normalize_render (normalize x)) by assumption.
  rewrite isAbsolute_normalize by assumption.
  unfold segments at 1. rewrite segments_normalize by assumption.
  rewrite segments_stack.
  rewrite trailing_normalize by assumption.
  rewrite (normalize_render x) by assumption.
  apply render_trailing_irrelevant.
  destruct (trailingSeparator x); [now left |].
  destruct (isAbsolute x); [| now left].
  destruct (segments _ x); [now right | now left].
Qed.

(** *** [join] *)

Lemma join_single x : x <> "" -> join [x] = normalize x.
Proof.
  intros Hx%is_empty_false. unfold join. simpl. now rewrite Hx.
Qed.

Lemma join_pair x y :
  x <> "" -> y <> "" -> join [x; y] = normalize (x +:+ "/" +:+ y).
Proof.
  intros Hx%is_empty_false Hy%is_empty_false. unfold join. simpl.
  now rewrite Hx, Hy.
Qed.

Lemma join_empty_l y : y <> "" -> join [""; y] = normalize y.
Proof.
  intros Hy%is_empty_false. unfold join. simpl. now rewrite Hy.
Qed.

Lemma join_empty_r x : x <> "" -> join [x; ""] = normalize x.
Proof.
  intros Hx%is_empty_false. unfold join. simpl. now rewrite Hx.
Qed.

Lemma join_nonempty args : join args <> "".
Proof.
  unfold join. destruct (List.filter _ args); [discriminate |].
  apply normalize_nonempty.
Qed.

Lemma sep_app_nonempty (x y : string) : x +:+ "/" +:+ y <> "".
Proof. intros [_ [=]]%sapp_eq_nil. Qed.

Lemma isAbsolute_app x y : x <> "" -> isAbsolute (x +:+ y) = isAbsolute x.
Proof. apply first_is_app. Qed.

Lemma trailing_app x y :
  y <> "" -> trailingSeparator (x +:+ "/" +:+ y) = trailingSeparator y.
Proof.
  intros Hy. unfold trailingSeparator.
  rewrite endsWith_char_app; [| intros [=]].
  change ("/" +:+ y) with (String "/" y). simpl.
  destruct y; [congruence | reflexivity].
Qed.

Lemma segments_app m x y :
  segments m (x +:+ "/" +:+ y)
  = fold_left (step m) (split y) (segments m x).
Proof. unfold segments. now rewrite split_app_sep, fold_left_app. Qed.

(** joining in two steps, from the left *)
Lemma normalize_join_l x c :
  x <> "" -> c <> "" ->
  normalize (normalize x +:+ "/" +:+ c) = normalize (x +:+ "/" +:+ c).
Proof.
  intros Hx Hc. pose proof (normalize_nonempty x) as Hn.
  apply normalize_ext; try apply sep_app_nonempty.
  - rewrite !isAbsolute_app, isAbsolute_normalize by assumption. reflexivity.
  - rewrite !isAbsolute_app, isAbsolute_normalize by assumption.
    rewrite !segments_app. f_equal.
    unfold segments at 1. rewrite segments_normalize by assumption.
    apply segments_stack.
  - left. now rewrite !trailing_app.
Qed.

(** joining in two steps, from the right: the tail must be relative *)
Lemma normalize_join_r a y :
  a <> "" -> y <> "" -> isAbsolute y = false ->
  normalize (a +:+ "/" +:+ normalize y) = normalize (a +:+ "/" +:+ y).
Proof.
  intros Ha Hy Hrel. pose proof (normalize_nonempty y) as Hn.
  apply normalize_ext; try apply sep_app_nonempty.
  - now rewrite !isAbsolute_app.
  - rewrite !isAbsolute_app by assumption. rewrite !segments_app.
    rewrite segments_normalize by assumption. rewrite Hrel. simpl negb.
    apply refold, split_all_nosep.
  - left. rewrite !trailing_app by assumption.
    rewrite trailing_normalize by assumption. rewrite Hrel.
    now rewrite orb_false_r.
Qed.

Lemma normalize_name n : is_name n = true -> normalize n = n.
Proof.
  intros Hn. pose proof Hn as (H1 & H2 & H3 & H4)%is_name_spec.
  rewrite normalize_render by assumption.
  unfold isAbsolute, trailingSeparator.
  rewrite (has_char_first _ _ H4), (has_char_last _ _ H4).
  unfold segments. rewrite (split_nosep _ H4). simpl fold_left.
  rewrite step_name by assumption. unfold render. simpl.
  now rewrite sapp_nil_r.
Qed.

(** *** [resolve] *)

Lemma resolve_abs_of (pr : process) p :
  resolve (cwd pr) p = abs_of (rev (abs_segments (cwd pr) p)).
Proof.
  unfold resolve, abs_segments, abs_of, normalizeString, segments.
  pose proof (cwd_absolute pr) as Hc.
  assert (Hce : is_empty (cwd pr) = false) by (destruct (cwd pr); [discriminate | reflexivity]).
  destruct (is_empty p) eqn:Hp.
  - apply is_empty_true in Hp. subst p. simpl isAbsolute.
    cbv iota. rewrite Hce, Hc. simpl negb.
    change (cwd pr +:+ "/" +:+ "") with (cwd pr +:+ "/").
    now rewrite split_snoc_sep.
  - destruct (isAbsolute p) eqn:Ha.
    + simpl negb. rewrite split_snoc_sep, fold_left_app. reflexivity.
    + rewrite Hce, Hc. simpl negb.
      rewrite split_app_sep, split_snoc_sep, !fold_left_app. reflexivity.
Qed.

Lemma abs_segments_names (pr : process) p :
  Forall (fun n => is_name n = true) (abs_segments (cwd pr) p).
Proof.
  unfold abs_segments. apply fold_step_names; [| constructor].
  destruct (isAbsolute p); [apply split_all_nosep |].
  apply Forall_app; split; apply split_all_nosep.
Qed.

Lemma child_abs_abs_of segs n :
  Forall (fun s => is_name s = true) segs ->
  child_abs (abs_of segs) n = abs_of (segs ++ [n]).
Proof.
  intros Hs. unfold child_abs, abs_of. destruct segs as [|s segs].
  - reflexivity.
  - destruct (String.eqb_spec ("/" +:+ String.concat sep (s :: segs)) "/")
      as [E | _].
    + exfalso. change "/" with ("/" +:+ "") in E at 2.
      apply sapp_inv_head in E. revert E.
      apply concat_kept_nonempty; [congruence | now apply names_kept].
    + rewrite concat_snoc by congruence. now rewrite !sapp_assoc.
Qed.

Lemma split_abs_of segs :
  Forall (fun s => is_name s = true) segs ->
  fold_left (step false) (split (abs_of segs)) [] = rev segs.
Proof.
  intros Hs. unfold abs_of. change ("/" +:+ ?x) with (String "/" x).
  rewrite split_cons_sep. simpl fold_left at 1.
  destruct segs as [|s segs]; [reflexivity |].
  rewrite split_concat; [| congruence |].
  - rewrite fold_step_push by assumption. now rewrite app_nil_r.
  - eapply Forall_impl; [exact Hs |]. intros x Hx. now apply kept_nosep, name_kept.
Qed.

(** an absolute path resolves to itself: [resolve] is idempotent *)
Lemma resolve_resolve (pr : process) p :
  resolve (cwd pr) (resolve (cwd pr) p) = resolve (cwd pr) p.
Proof.
  rewrite (resolve_abs_of pr p).
  set (segs := rev (abs_segments (cwd pr) p)).
  assert (Hs : Forall (fun s => is_name s = true) segs)
    by apply Forall_rev, abs_segments_names.
  rewrite resolve_abs_of. f_equal. unfold abs_segments.
  change (isAbsolute (abs_of segs)) with true. cbv iota.
  rewrite split_abs_of by assumption. apply rev_involutive.
Qed.

Lemma abs_segments_join (pr : process) p n :
  is_name n = true ->
  abs_segments (cwd pr) (join [p; n]) = n :: abs_segments (cwd pr) p.
Proof.
  intros Hn. pose proof Hn as (H1 & H2 & H3 & H4)%is_name_spec.
  destruct (String.eqb_spec p "") as [-> | Hp].
  - rewrite join_empty_l, normalize_name by assumption.
    unfold abs_segments. unfold isAbsolute at 1 2.
    rewrite (has_char_first _ _ H4). simpl first_is. cbv iota.
    rewrite (split_nosep _ H4), fold_step_snoc.
    rewrite step_name by assumption. f_equal.
    change (split "") with [""]. now rewrite fold_step_snoc.
  - rewrite join_pair by assumption.
    set (x := p +:+ "/" +:+ n).
    assert (Hx : x <> "") by apply sep_app_nonempty.
    assert (Hax : isAbsolute x = isAbsolute p) by now apply isAbsolute_app.
    unfold abs_segments. rewrite isAbsolute_normalize, Hax by assumption.
    destruct (isAbsolute p) eqn:Ha.
    + rewrite segments_normalize by assumption. rewrite Hax. simpl negb.
      rewrite segments_stack. unfold x. rewrite segments_app.
      rewrite (split_nosep _ H4). simpl fold_left at 1.
      now rewrite step_name.
    + rewrite !fold_left_app.
      rewrite segments_normalize by assumption. rewrite Hax. simpl negb.
      unfold segments. rewrite refold by apply split_all_nosep.
      unfold x. rewrite split_app_sep, fold_left_app.
      rewrite (split_nosep _ H4). simpl fold_left at 1.
      now rewrite step_name.
Qed.

(** the absolute form of a listed entry: the directory's, a separator, the
    name *)
Lemma resolve_join (pr : process) p n :
  is_name n = true ->
  resolve (cwd pr) (join [p; n]) = child_abs (resolve (cwd pr) p) n.
Proof.
  intros Hn. rewrite !resolve_abs_of, abs_segments_join by assumption.
  rewrite child_abs_abs_of by apply Forall_rev, abs_segments_names.
  reflexivity.
Qed.

(** *** [join] twice *)

Lemma join_assoc a b c :
  b <> "" -> isAbsolute b = false ->
  join [join [a; b]; c] = join [a; join [b; c]].
Proof.
  intros Hb Hrel.
  pose proof (normalize_nonempty b) as Hnb.
  destruct (String.eqb_spec a "") as [-> | Ha];
    destruct (String.eqb_spec c "") as [-> | Hc].
  - rewrite (join_empty_l b), (join_empty_r b) by assumption.
    now rewrite join_empty_r, join_empty_l.
  - rewrite (join_empty_l b), (join_pair b c) by assumption.
    rewrite join_pair by assumption.
    rewrite join_empty_l by apply normalize_nonempty.
    rewrite normalize_join_l by assumption.
    now rewrite normalize_idempotent.
  - rewrite (join_pair a b), (join_empty_r b) by assumption.
    rewrite join_empty_r by apply normalize_nonempty.
    rewrite join_pair by assumption.
    rewrite normalize_join_r by assumption.
    now rewrite normalize_idempotent.
  - rewrite (join_pair a b), (join_pair b c) by assumption.
    rewrite !join_pair by (assumption || apply normalize_nonempty).
    rewrite normalize_join_l by (assumption || apply sep_app_nonempty).
    rewrite normalize_join_r.
    + now rewrite sapp_assoc.
    + assumption.
    + apply sep_app_nonempty.
    + now rewrite isAbsolute_app.
Qed.

End PosixFacts.

(** ** The object store *)

Section StoreFacts.
Context `{NP : NodePath}.

Lemma Path_path_app_l a (h k : store) :
  a < length h -> Path_path a (h ++ k) = Path_path a h.
Proof. intros H. unfold Path_path. now rewrite lookup_app_l. Qed.

Lemma Path_path_prefix a (h h' : store) :
  a < length h -> h `prefix_of` h' -> Path_path a h' = Path_path a h.
Proof. intros H [k ->]. now apply Path_path_app_l. Qed.

Lemma Path_path_new (h k : store) s :
  Path_path (length h) (h ++ s :: k) = s.
Proof. unfold Path_path. now rewrite list_lookup_middle. Qed.

Lemma Path_clone_eq a h : Path_clone a h = (length h, h ++ [Path_path a h]).
Proof. reflexivity. Qed.

Lemma Path_from_prefix p h : h `prefix_of` snd (Path_from p h).
Proof.
  destruct p as [s | a]; simpl; [now apply prefix_app_r | reflexivity].
Qed.

Lemma Path_from_length p h : length h <= length (snd (Path_from p h)).
Proof. apply prefix_length, Path_from_prefix. Qed.

Lemma set_path_length a s h : length (set_path a s h) = length h.
Proof. apply length_insert. Qed.

Lemma set_path_other a b s h :
  a <> b -> Path_path b (set_path a s h) = Path_path b h.
Proof. intros H. unfold Path_path, set_path. now rewrite list_lookup_insert_ne. Qed.

Lemma set_path_new (h : store) s t :
  set_path (length h) t (h ++ [s]) = h ++ [t].
Proof.
  unfold set_path. rewrite insert_app_r_alt by lia.
  now rewrite Nat.sub_diag.
Qed.

(** *** Induction over a graph *)

Lemma TreeNode_induction (P : TreeNode -> Prop) :
  (forall p d, P (Node p d None)) ->
  (forall p d cs, Forall P cs -> P (Node p d (Some cs))) ->
  forall n, P n.
Proof.
  intros Hnone Hsome. fix IH 1. intros [p d [cs |]]; [| apply Hnone].
  apply Hsome. induction cs as [|c cs IHcs]; constructor; [apply IH | exact IHcs].
Qed.

Lemma in_store_children p d cs h :
  in_store (Node p d (Some cs)) h ->
  p < length h /\ Forall (fun c => in_store c h) cs.
Proof.
  unfold in_store. simpl. intros H. apply Forall_cons_iff in H as [Hp Hcs].
  split; [assumption |]. induction cs as [|c cs IH]; constructor.
  - simpl in Hcs. now apply Forall_app in Hcs as [? ?].
  - apply IH. simpl in Hcs. now apply Forall_app in Hcs as [? ?].
Qed.

Lemma in_store_node p d cs h :
  p < length h -> Forall (fun c => in_store c h) cs ->
  in_store (Node p d (Some cs)) h.
Proof.
  intros Hp Hcs. unfold in_store. simpl. constructor; [assumption |].
  induction Hcs; simpl; [constructor |]. now apply Forall_app.
Qed.

Lemma in_store_prefix n (h h' : store) :
  in_store n h -> h `prefix_of` h' -> in_store n h'.
Proof.
  intros H Hp%prefix_length. unfold in_store in *.
  eapply Forall_impl; [exact H |]. intros; simpl in *; lia.
Qed.

Lemma flat_map_local (s : store -> TreeNode -> list string) cs
  (h h' : store) :
  Forall (fun c => s h' c = s h c) cs ->
  flat_map (s h') cs = flat_map (s h) cs.
Proof.
  induction 1 as [|c cs Hc _ IH]; simpl; [reflexivity |]. now rewrite Hc, IH.
Qed.

Lemma preorder_local : local_view preorder.
Proof.
  intros n. induction n as [p d | p d cs IH] using TreeNode_induction;
    intros h h' Hin Hpre.
  - simpl. f_equal. apply Path_path_prefix; [| assumption].
    unfold in_store in Hin. simpl in Hin. now inversion Hin.
  - apply in_store_children in Hin as [Hp Hcs]. simpl. f_equal.
    + now apply Path_path_prefix.
    + apply flat_map_local. rewrite Forall_forall in IH, Hcs.
      apply Forall_forall. intros c Hc. now apply IH; [| apply Hcs |].
Qed.

Lemma leaf_paths_local : local_view leaf_paths.
Proof.
  intros n. induction n as [p d | p d cs IH] using TreeNode_induction;
    intros h h' Hin Hpre.
  - simpl. rewrite (Path_path_prefix p h h'); [reflexivity | | assumption].
    unfold in_store in Hin. simpl in Hin. now inversion Hin.
  - apply in_store_children in Hin as [Hp Hcs]. simpl.
    rewrite (Path_path_prefix p h h') by assumption. f_equal.
    apply flat_map_local. rewrite Forall_forall in IH, Hcs.
    apply Forall_forall. intros c Hc. now apply IH; [| apply Hcs |].
Qed.

Lemma nonempty_directory_paths_local : local_view nonempty_directory_paths.
Proof.
  intros n. induction n as [p d | p d cs IH] using TreeNode_induction;
    intros h h' Hin Hpre.
  - reflexivity.
  - apply in_store_children in Hin as [Hp Hcs]. simpl.
    rewrite (Path_path_prefix p h h') by assumption. f_equal.
    apply flat_map_local. rewrite Forall_forall in IH, Hcs.
    apply Forall_forall. intros c Hc. now apply IH; [| apply Hcs |].
Qed.

(** *** The loop of the traversals *)

Lemma concat_loop_clones g (s : store -> TreeNode -> list string) cs :
  local_view s ->
  Forall (clones g s) cs ->
  forall paths h,
    Forall (fun c => in_store c h) cs ->
    concat_loop g cs paths h
    = (paths ++ seq (length h) (length (flat_map (s h) cs)),
       h ++ flat_map (s h) cs).
Proof.
  intros Hloc Hcs. induction Hcs as [|c cs Hc _ IH]; intros paths h Hin.
  - simpl. now rewrite !app_nil_r.
  - apply Forall_cons_iff in Hin as [Hinc Hincs]. simpl.
    rewrite (Hc h Hinc).
    assert (Hpre : h `prefix_of` h ++ s h c) by now apply prefix_app_r.
    rewrite IH.
    + rewrite (flat_map_local s cs h (h ++ s h c)).
      * rewrite !length_app, seq_app, <- !app_assoc. reflexivity.
      * eapply Forall_impl; [exact Hincs |]. intros x Hx. now apply Hloc.
    + eapply Forall_impl; [exact Hincs |]. intros x Hx.
      now apply in_store_prefix with h.
Qed.

End StoreFacts.

(** ** The traversals *)

Section TraversalFacts.
Context `{NP : NodePath}.

Lemma strings_of_clones (h : store) (v : list string) :
  strings_of (seq (length h) (length v), h ++ v) = v.
Proof.
  unfold strings_of. simpl. revert h.
  induction v as [|x v IH]; intros h; [reflexivity |].
  simpl. rewrite Path_path_new. f_equal.
  specialize (IH (h ++ [x])). rewrite length_app, <- app_assoc in IH.
  simpl in IH. now rewrite Nat.add_1_r in IH.
Qed.

Lemma well_built_children p d cs :
  well_built (Node p d (Some cs)) = true ->
  d = true /\ cs <> [] /\ Forall (fun c => well_built c = true) cs.
Proof.
  simpl. intros [[Hd Hl]%andb_true_iff Hcs]%andb_true_iff.
  split; [assumption |]. split.
  - intros ->. discriminate.
  - apply List.Forall_forall. now apply forallb_forall.
Qed.

Lemma no_children_built p d cs :
  well_built (Node p d (Some cs)) = true ->
  no_children (Node p d (Some cs)) = false.
Proof.
  intros (-> & Hcs & _)%well_built_children. simpl.
  destruct cs; [congruence | reflexivity].
Qed.

Lemma in_store_leaf p d h : in_store (Node p d None) h -> p < length h.
Proof. unfold in_store. simpl. now inversion 1. Qed.

Lemma built_clones g (s : store -> TreeNode -> list string) cs :
  Forall (fun c => well_built c = true -> clones g s c) cs ->
  Forall (fun c => well_built c = true) cs ->
  Forall (clones g s) cs.
Proof.
  intros H1 H2. rewrite Forall_forall in *. intros c Hc. auto.
Qed.

Lemma tree_flatten_clones n :
  well_built n = true -> clones tree_flatten preorder n.
Proof.
  induction n as [p d | p d cs IH] using TreeNode_induction;
    intros Hb h Hin.
  - simpl. rewrite orb_true_r. reflexivity.
  - pose proof (no_children_built _ _ _ Hb) as Hno.
    apply well_built_children in Hb as (-> & Hne & Hcs).
    apply in_store_children in Hin as [Hp Hin].
    cbn [tree_flatten]. rewrite Path_clone_eq, Hno.
    change (fix loop (cs0 : list TreeNode) (paths : list nat)
              (h0 : list string) {struct cs0} := _)
      with (concat_loop tree_flatten).
    assert (Hpre : h `prefix_of` h ++ [Path_path p h]) by now apply prefix_app_r.
    rewrite (concat_loop_clones tree_flatten preorder cs preorder_local).
    + rewrite (flat_map_local preorder cs h (h ++ [Path_path p h])).
      * simpl preorder. rewrite length_app, <- app_assoc. simpl.
        now rewrite Nat.add_1_r.
      * eapply Forall_impl; [exact Hin |]. intros x Hx.
        now apply preorder_local.
    + now apply built_clones.
    + eapply Forall_impl; [exact Hin |]. intros x Hx.
      now apply in_store_prefix with h.
Qed.

Lemma tree_files_clones n :
  well_built n = true -> clones tree_files leaf_paths n.
Proof.
  induction n as [p d | p d cs IH] using TreeNode_induction;
    intros Hb h Hin.
  - simpl. destruct d; simpl; [now rewrite app_nil_r | reflexivity].
  - apply well_built_children in Hb as (-> & Hne & Hcs).
    apply in_store_children in Hin as [Hp Hin].
    cbn [tree_files negb].
    change (fix loop (cs0 : list TreeNode) (paths : list nat)
              (h0 : list string) {struct cs0} := _)
      with (concat_loop tree_files).
    rewrite (concat_loop_clones tree_files leaf_paths cs leaf_paths_local).
    + destruct cs; [congruence | reflexivity].
    + now apply built_clones.
    + assumption.
Qed.

Lemma tree_directories_clones n :
  well_built n = true -> clones tree_directories nonempty_directory_paths n.
Proof.
  induction n as [p d | p d cs IH] using TreeNode_induction;
    intros Hb h Hin.
  - simpl. rewrite orb_true_r. simpl. now rewrite app_nil_r.
  - pose proof (no_children_built _ _ _ Hb) as Hno.
    apply well_built_children in Hb as (-> & Hne & Hcs).
    apply in_store_children in Hin as [Hp Hin].
    cbn [tree_directories]. rewrite Hno, Path_clone_eq.
    change (fix loop (cs0 : list TreeNode) (paths : list nat)
              (h0 : list string) {struct cs0} := _)
      with (concat_loop tree_directories).
    assert (Hpre : h `prefix_of` h ++ [Path_path p h]) by now apply prefix_app_r.
    rewrite (concat_loop_clones tree_directories nonempty_directory_paths cs
               nonempty_directory_paths_local).
    + rewrite (flat_map_local nonempty_directory_paths cs h
                 (h ++ [Path_path p h])).
      * simpl nonempty_directory_paths.
        destruct cs as [|c cs]; [congruence |]. simpl andb. cbv iota.
        rewrite length_app, <- app_assoc. simpl.
        now rewrite Nat.add_1_r.
      * eapply Forall_impl; [exact Hin |]. intros x Hx.
        now apply nonempty_directory_paths_local.
    + now apply built_clones.
    + eapply Forall_impl; [exact Hin |]. intros x Hx.
      now apply in_store_prefix with h.
Qed.

(** *** The traversals as selections of the nodes *)

Lemma map_flat_map {A B C} (f : B -> C) (g : A -> list B) l :
  map f (flat_map g l) = flat_map (fun x => map f (g x)) l.
Proof.
  induction l as [|x l IH]; simpl; [reflexivity |].
  now rewrite map_app, IH.
Qed.

Lemma filter_flat_map {A B} (f : B -> bool) (g : A -> list B) l :
  List.filter f (flat_map g l) = flat_map (fun x => List.filter f (g x)) l.
Proof.
  induction l as [|x l IH]; simpl; [reflexivity |].
  now rewrite List.filter_app, IH.
Qed.

Lemma flat_map_pointwise {A B} (f g : A -> list B) l :
  Forall (fun x => f x = g x) l -> flat_map f l = flat_map g l.
Proof. induction 1 as [|x l Hx _ IH]; simpl; [reflexivity | now rewrite Hx, IH]. Qed.

Lemma preorder_subnodes h n : preorder h n = map (path_in h) (subnodes n).
Proof.
  induction n as [p d | p d cs IH] using TreeNode_induction; [reflexivity |].
  simpl. f_equal. rewrite map_flat_map. now apply flat_map_pointwise.
Qed.

Lemma leaf_paths_subnodes h n :
  leaf_paths h n = map (path_in h) (List.filter is_leaf (subnodes n)).
Proof.
  induction n as [p d | p d cs IH] using TreeNode_induction.
  - simpl. unfold is_leaf. simpl. destruct d; reflexivity.
  - simpl. unfold is_leaf at 1. simpl node_isDirectory.
    rewrite filter_flat_map.
    replace (flat_map (leaf_paths h) cs)
      with (map (path_in h)
              (flat_map (fun x => List.filter is_leaf (subnodes x)) cs)).
    + now destruct d.
    + rewrite map_flat_map. symmetry. now apply flat_map_pointwise.
Qed.

Lemma nonempty_directory_paths_subnodes h n :
  nonempty_directory_paths h n
  = map (path_in h) (List.filter is_nonempty_directory (subnodes n)).
Proof.
  induction n as [p d | p d cs IH] using TreeNode_induction.
  - simpl. unfold is_nonempty_directory. simpl. now rewrite andb_false_r.
  - simpl. unfold is_nonempty_directory at 1. simpl node_isDirectory.
    unfold children_of. simpl node_children.
    rewrite filter_flat_map.
    replace (flat_map (nonempty_directory_paths h) cs)
      with (map (path_in h)
              (flat_map
                 (fun x => List.filter is_nonempty_directory (subnodes x)) cs)).
    + now destruct (d && negb (Nat.eqb (length cs) 0)).
    + rewrite map_flat_map. symmetry. now apply flat_map_pointwise.
Qed.

(** *** Absent and empty [children] *)

Lemma concat_loop_map g (f : TreeNode -> TreeNode) cs :
  Forall (fun c => forall h, g (f c) h = g c h) cs ->
  forall paths h, concat_loop g (map f cs) paths h = concat_loop g cs paths h.
Proof.
  induction 1 as [|c cs Hc _ IH]; intros paths h; [reflexivity |].
  simpl. rewrite Hc. destruct (g c h) as [sub h']. apply IH.
Qed.

Lemma tree_flatten_absent n h :
  tree_flatten (absent_as_empty n) h = tree_flatten n h.
Proof.
  revert h. induction n as [p d | p d cs IH] using TreeNode_induction;
    intros h.
  - simpl. now rewrite !orb_true_r.
  - cbn [absent_as_empty tree_flatten no_children absent_or_empty].
    rewrite length_map.
    destruct (negb d || Nat.eqb (length cs) 0); [reflexivity |].
    destruct (Path_clone p h) as [c h1].
    change (fix loop (cs0 : list TreeNode) (paths : list nat)
              (h0 : list string) {struct cs0} := _)
      with (concat_loop tree_flatten).
    now apply concat_loop_map.
Qed.

Lemma tree_files_absent n h :
  tree_files (absent_as_empty n) h = tree_files n h.
Proof.
  revert h. induction n as [p d | p d cs IH] using TreeNode_induction;
    intros h.
  - simpl. now destruct d.
  - cbn [absent_as_empty tree_files absent_or_empty]. rewrite length_map.
    destruct (negb d); [reflexivity |].
    destruct (Nat.eqb (length cs) 0); [reflexivity |].
    change (fix loop (cs0 : list TreeNode) (paths : list nat)
              (h0 : list string) {struct cs0} := _)
      with (concat_loop tree_files).
    now apply concat_loop_map.
Qed.

Lemma tree_directories_absent n h :
  tree_directories (absent_as_empty n) h = tree_directories n h.
Proof.
  revert h. induction n as [p d | p d cs IH] using TreeNode_induction;
    intros h.
  - simpl. now rewrite !orb_true_r.
  - cbn [absent_as_empty tree_directories no_children absent_or_empty].
    rewrite length_map.
    destruct (negb d || Nat.eqb (length cs) 0); [reflexivity |].
    destruct (Path_clone p h) as [c h1].
    change (fix loop (cs0 : list TreeNode) (paths : list nat)
              (h0 : list string) {struct cs0} := _)
      with (concat_loop tree_directories).
    now apply concat_loop_map.
Qed.

(** *** Mutation of one [Path] leaves the others alone *)

Lemma set_path_frame a s (h : store) b :
  b <> a -> Path_path b (set_path a s h) = Path_path b h.
Proof. intros H. apply set_path_other. congruence. Qed.

Lemma from_set_frame a (p : path_like) (f : store -> addr -> string)
  (h : store) b :
  b <> a -> b < length h ->
  Path_path b (let '(q, h1) := Path_from p h in set_path a (f h1 q) h1)
  = Path_path b h
  /\ length h
     <= length (let '(q, h1) := Path_from p h in set_path a (f h1 q) h1).
Proof.
  intros Hne Hb. destruct p as [s | q]; simpl.
  - rewrite set_path_frame, set_path_length, length_app by assumption.
    split; [now apply Path_path_app_l | lia].
  - rewrite set_path_frame, set_path_length by assumption. split; reflexivity || lia.
Qed.

Lemma mutate_frame a m (h h' : store) b :
  mutate a m h = Returns h' -> b <> a -> b < length h ->
  Path_path b h' = Path_path b h /\ length h <= length h'.
Proof.
  intros Hm Hne Hb.
  destruct m as [paths | paths | | path | f | pre | post]; simpl in Hm.
  - injection Hm as <-. unfold Path_append.
    now rewrite set_path_frame, set_path_length.
  - injection Hm as <-. unfold Path_prepend.
    now rewrite set_path_frame, set_path_length.
  - unfold Path_pop in Hm.
    destruct (RegExp.compile _); [| discriminate | discriminate].
    injection Hm as <-. now rewrite set_path_frame, set_path_length.
  - injection Hm as <-. unfold Path_push, Path_append.
    now rewrite set_path_frame, set_path_length.
  - injection Hm as <-. unfold Path_replace.
    now rewrite set_path_frame, set_path_length.
  - injection Hm as <-. unfold Path_prefix.
    apply (from_set_frame a pre
             (fun h1 q => npath_join [Path_path q h1; Path_path a h1]));
      assumption.
  - injection Hm as <-. unfold Path_postfix.
    apply (from_set_frame a post
             (fun h1 q => npath_join [Path_path a h1; Path_path q h1]));
      assumption.
Qed.

Lemma mutate_all_frame calls (h : store) (fresh : addr -> Prop) b :
  Forall (fun c => fresh (fst c)) calls ->
  ~ fresh b -> b < length h ->
  Path_path b (mutate_all calls h) = Path_path b h.
Proof.
  revert h. induction calls as [|[a m] calls IH]; intros h Hc Hb Hlt;
    [reflexivity |].
  apply Forall_cons_iff in Hc as [Ha Hc]. simpl in Ha. simpl.
  destruct (mutate a m h) as [h' | e |] eqn:E; [| reflexivity | reflexivity].
  assert (Hne : b <> a) by (intros ->; contradiction).
  destruct (mutate_frame _ _ _ _ _ E Hne Hlt) as [Heq Hlen].
  rewrite IH; [assumption | assumption | assumption | lia].
Qed.

End TraversalFacts.

(** ** The resolver, on any platform and storage *)

Section ResolverFacts.
Context `{NP : NodePath}.
Variable st : Storage.
Variable sched : Scheduler.

Lemma FS_stat_Obj a (h : store) :
  FS_stat st (Obj a) h
  = let abs := Path_absolute a h in
    if nfs_access st (npath_resolve abs) then
      match nfs_stat st abs with
      | Some stat => Returns (stat, h ++ [abs])
      | None => Throws (Native "stat" abs)
      end
    else Throws (NotAccessible abs).
Proof.
  unfold FS_stat, FS_isAccessible. simpl.
  unfold Path_absolute at 1. rewrite Path_path_new.
  now destruct (nfs_access st _).
Qed.

Lemma FS_stat_Returns a (h : store) s h' :
  FS_stat st (Obj a) h = Returns (s, h') ->
  h' = h ++ [Path_absolute a h]
  /\ nfs_stat st (Path_absolute a h) = Some s.
Proof.
  rewrite FS_stat_Obj. cbv zeta.
  destruct (nfs_access st _); [| discriminate].
  destruct (nfs_stat st _); [| discriminate].
  now intros [= -> <-].
Qed.

Lemma ls_subpaths_spec dir names (h : store) :
  dir < length h ->
  ls_subpaths dir names h
  = (seq (length h) (length names),
     h ++ map (fun n => npath_join [Path_path dir h; n]) names).
Proof.
  revert h. induction names as [|n names IH]; intros h Hd.
  - simpl. now rewrite app_nil_r.
  - cbn [ls_subpaths Path_from Path_new alloc path_string].
    unfold Path_prepend. cbn [map path_string].
    rewrite Path_path_new, (Path_path_app_l dir h [n] Hd).
    cbn [app]. rewrite set_path_new.
    rewrite IH by (rewrite length_app; simpl; lia).
    rewrite length_app, <- app_assoc. simpl.
    rewrite Nat.add_1_r. do 3 f_equal.
    apply map_ext. intros x. now rewrite Path_path_app_l.
Qed.

Lemma FS_ls_Returns a (h : store) cs h' :
  a < length h ->
  FS_ls st (Obj a) h = Returns (cs, h') ->
  exists names,
    nfs_readdir st (Path_absolute a h) = Some names
    /\ cs = seq (S (length h)) (length names)
    /\ h' = (h ++ [Path_absolute a h])
              ++ map (fun n => npath_join [Path_path a h; n]) names.
Proof.
  intros Ha. unfold FS_ls. cbn [Path_from].
  destruct (FS_stat st (Obj a) h) as [[s h1] | e |] eqn:E;
    [| discriminate | discriminate].
  apply FS_stat_Returns in E as [-> Hs].
  assert (Habs : Path_absolute a (h ++ [Path_absolute a h]) = Path_absolute a h).
  { unfold Path_absolute at 1 3. now rewrite Path_path_app_l. }
  rewrite Habs.
  destruct (negb (stats_isDirectory s)); [discriminate |].
  destruct (nfs_readdir st _) as [names |]; [| discriminate].
  rewrite ls_subpaths_spec by (rewrite length_app; simpl; lia).
  intros [= <- <-]. exists names. split; [reflexivity |].
  rewrite length_app, Path_path_app_l by assumption. simpl.
  now rewrite Nat.add_1_r.
Qed.

(** *** [Promise.all] *)

Lemma all_settled_length {A} (ps : list (M A)) h :
  length (fst (all_settled ps h)) = length ps.
Proof.
  revert h. induction ps as [|p ps IH]; intros h; [reflexivity |].
  simpl. destruct (p h) as [[a h1] | e |].
  - specialize (IH h1). destruct (all_settled ps h1). simpl in *. lia.
  - specialize (IH h). destruct (all_settled ps h). simpl in *. lia.
  - specialize (IH h). destruct (all_settled ps h). simpl in *. lia.
Qed.

Lemma all_settled_Returns {X A} (f : X -> M A)
  (Q : X -> A -> store -> Prop) xs :
  (forall x v (h1 h2 : store), Q x v h1 -> h1 `prefix_of` h2 -> Q x v h2) ->
  forall h : store,
    (forall x (h0 : store) v h1,
        In x xs -> h `prefix_of` h0 -> f x h0 = Returns (v, h1) ->
        h0 `prefix_of` h1 /\ Q x v h1) ->
    forall rs h',
      all_settled (map f xs) h = (rs, h') ->
      h `prefix_of` h'
      /\ (rejections rs = [] -> existsb is_beyond rs = false ->
          Forall2 (fun x v => Q x v h') xs (values rs)).
Proof.
  intros Hmono. induction xs as [|x xs IH]; intros h Hf rs h' E.
  - injection E as <- <-. split; [reflexivity | constructor].
  - simpl in E. destruct (f x h) as [[v h1] | e |] eqn:Ex.
    + destruct (Hf x h v h1 (or_introl eq_refl) ltac:(reflexivity) Ex)
        as [Hp Hq].
      destruct (all_settled (map f xs) h1) as [rs' h''] eqn:E'.
      injection E as <- <-.
      assert (Hf' : forall y (h0 : store) w h2,
                 In y xs -> h1 `prefix_of` h0 -> f y h0 = Returns (w, h2) ->
                 h0 `prefix_of` h2 /\ Q y w h2).
      { intros y h0 w h2 Hy Hh0. apply Hf; [now right |].
        now transitivity h1. }
      destruct (IH h1 Hf' rs' h'' E') as [Hp' Hall].
      split; [now transitivity h1 |]. simpl. intros Hr Hb.
      constructor; [now apply Hmono with h1 | now apply Hall].
    + destruct (all_settled (map f xs) h) as [rs' h''] eqn:E'.
      injection E as <- <-.
      assert (Hf' : forall y (h0 : store) w h2,
                 In y xs -> h `prefix_of` h0 -> f y h0 = Returns (w, h2) ->
                 h0 `prefix_of` h2 /\ Q y w h2).
      { intros y h0 w h2 Hy Hh0. apply Hf; [now right | assumption]. }
      destruct (IH h Hf' rs' h'' E') as [Hp' _].
      split; [assumption | discriminate].
    + destruct (all_settled (map f xs) h) as [rs' h''] eqn:E'.
      injection E as <- <-.
      assert (Hf' : forall y (h0 : store) w h2,
                 In y xs -> h `prefix_of` h0 -> f y h0 = Returns (w, h2) ->
                 h0 `prefix_of` h2 /\ Q y w h2).
      { intros y h0 w h2 Hy Hh0. apply Hf; [now right | assumption]. }
      destruct (IH h Hf' rs' h'' E') as [Hp' _].
      split; [assumption | discriminate].
Qed.

Lemma Promise_all_Returns {X A} (f : X -> M A)
  (Q : X -> A -> store -> Prop) xs (h : store) vs h' :
  (forall x v (h1 h2 : store), Q x v h1 -> h1 `prefix_of` h2 -> Q x v h2) ->
  (forall x (h0 : store) v h1,
      In x xs -> h `prefix_of` h0 -> f x h0 = Returns (v, h1) ->
      h0 `prefix_of` h1 /\ Q x v h1) ->
  Promise_all sched (map f xs) h = Returns (vs, h') ->
  h `prefix_of` h' /\ Forall2 (fun x v => Q x v h') xs vs.
Proof.
  intros Hmono Hf. unfold Promise_all.
  destruct (all_settled (map f xs) h) as [rs h''] eqn:E.
  destruct (existsb is_beyond rs) eqn:Hb; [discriminate |].
  destruct (rejections rs) eqn:Hr; [| discriminate].
  intros [= <- <-].
  destruct (all_settled_Returns f Q xs Hmono h Hf rs h'' E) as [Hp Hall].
  split; [assumption | now apply Hall].
Qed.

(** *** What a resolved graph satisfies *)

Lemma bind_Returns {A B} (m : M A) (f : A -> M B) (h : store) b h' :
  bind m f h = Returns (b, h') ->
  exists a h1, m h = Returns (a, h1) /\ f a h1 = Returns (b, h').
Proof.
  unfold bind. destruct (m h) as [[a h1] | e |]; [| discriminate | discriminate].
  intros H. now exists a, h1.
Qed.

Lemma subnodes_addrs n : map node_path (subnodes n) = node_addrs n.
Proof.
  induction n as [p d | p d cs IH] using TreeNode_induction; [reflexivity |].
  simpl. f_equal. rewrite map_flat_map. now apply flat_map_pointwise.
Qed.

Lemma agrees_prefix n (h h' : store) :
  in_store n h -> h `prefix_of` h' -> agrees st h n -> agrees st h' n.
Proof.
  intros Hin Hpre Hag. unfold agrees, in_store in *.
  rewrite <- subnodes_addrs in Hin. rewrite Forall_map in Hin.
  rewrite Forall_forall in *. intros m Hm Hd.
  destruct (Hag m Hm Hd) as (names & Hr & Hl). exists names.
  split; [| assumption]. unfold Path_absolute.
  rewrite (Path_path_prefix _ h h'); [assumption | now apply Hin | assumption].
Qed.

Lemma built_prefix n (h h' : store) :
  built st h n -> h `prefix_of` h' -> built st h' n.
Proof.
  intros (Hin & Hwb & Hag) Hpre. repeat split.
  - now apply in_store_prefix with h.
  - assumption.
  - now apply agrees_prefix with h.
Qed.

Lemma built_leaf a d (h : store) :
  a < length h ->
  (d = true -> nfs_readdir st (Path_absolute a h) = Some []) ->
  built st h (Node a d None).
Proof.
  intros Ha Hd. repeat split.
  - unfold in_store. simpl. now repeat constructor.
  - unfold agrees. simpl. constructor; [| constructor].
    intros Hdir. exists []. split; [now apply Hd | reflexivity].
Qed.

Lemma agrees_node a d cs (h : store) :
  listed st h (Node a d (Some cs)) ->
  Forall (agrees st h) cs ->
  agrees st h (Node a d (Some cs)).
Proof.
  intros Hl Hcs. unfold agrees. simpl. constructor; [assumption |].
  clear Hl. induction Hcs as [|c cs Hc _ IH]; simpl; [constructor |].
  now apply Forall_app.
Qed.

Lemma built_node a names cs (h : store) :
  a < length h ->
  nfs_readdir st (Path_absolute a h) = Some names ->
  length cs = length names -> cs <> [] ->
  Forall (built st h) cs ->
  built st h (Node a true (Some cs)).
Proof.
  intros Ha Hr Hl Hne Hcs. repeat split.
  - apply in_store_node; [assumption |].
    eapply Forall_impl; [exact Hcs |]. now intros c (? & _).
  - simpl. apply andb_true_iff. split.
    + destruct cs; [congruence | reflexivity].
    + apply forallb_forall. apply List.Forall_forall.
      eapply Forall_impl; [exact Hcs |]. now intros c (_ & ? & _).
  - apply agrees_node.
    + intros _. now exists names.
    + eapply Forall_impl; [exact Hcs |]. now intros c (_ & _ & ?).
Qed.

Lemma childNodes_Forall (P : TreeNode -> Prop) cs stats kids :
  length stats = length cs ->
  Forall2 (fun x k => P (Node (fst x) (stats_isDirectory (snd x)) k))
    (combine cs stats) kids ->
  Forall P (childNodes cs stats kids)
  /\ length (childNodes cs stats kids) = length cs.
Proof.
  revert stats kids. induction cs as [|c cs IH]; intros stats kids Hl H.
  - simpl. split; [constructor | reflexivity].
  - destruct stats as [|s stats]; [discriminate |]. simpl in Hl.
    injection Hl as Hl. simpl in H. inversion H as [|? k ? kids' Hk Hks]; subst.
    destruct (IH stats kids' Hl Hks) as [HF HL]. simpl.
    split; [now constructor | now rewrite HL].
Qed.

Lemma _resolveChildren_built fuel :
  forall a d (h : store) kids h',
    a < length h ->
    _resolveChildren st sched fuel a d h = Returns (kids, h') ->
    h `prefix_of` h' /\ built st h' (Node a d kids).
Proof.
  induction fuel as [|fuel IH]; intros a d h kids h' Ha E; [discriminate |].
  cbn [_resolveChildren] in E. destruct d; cbn [negb] in E.
  2:{ injection E as <- <-. split; [reflexivity |].
      apply built_leaf; [assumption | discriminate]. }
  apply bind_Returns in E as (cs & h2 & Els & E).
  destruct (FS_ls_Returns a h cs h2 Ha Els) as (names & Hr & Hcs & Hh2).
  assert (Hp2 : h `prefix_of` h2).
  { rewrite Hh2, <- app_assoc. now apply prefix_app_r. }
  assert (Habs : forall h0 : store,
             h `prefix_of` h0 -> Path_absolute a h0 = Path_absolute a h).
  { intros h0 Hh0. unfold Path_absolute. now rewrite (Path_path_prefix a h h0). }
  assert (Hlen : length cs = length names) by (rewrite Hcs; apply length_seq).
  destruct (Nat.eqb (length cs) 0) eqn:Hz.
  - injection E as <- <-. split; [assumption |].
    apply built_leaf.
    + apply prefix_length in Hp2. lia.
    + intros _. rewrite Habs by assumption. rewrite Hr. f_equal.
      apply Nat.eqb_eq in Hz. rewrite Hlen in Hz.
      now destruct names.
  - apply bind_Returns in E as (stats & h3 & Est & E).
    apply bind_Returns in E as (resolved & h4 & Erec & E).
    injection E as <- <-.
    destruct (Promise_all_Returns (fun child => FS_stat st (Obj child))
                (fun _ _ _ => True) cs h2 stats h3) as [Hp3 Hstats];
      [tauto | | exact Est |].
    { intros c h0 s h1 _ _ Hs. apply FS_stat_Returns in Hs as [-> _].
      split; [now apply prefix_app_r | exact I]. }
    assert (Hls : length stats = length cs)
      by (symmetry; eapply Forall2_length; exact Hstats).
    assert (Hcslt : Forall (fun c => c < length h2) cs).
    { rewrite Hcs, Hh2. apply List.Forall_forall. intros c Hc%in_seq.
      rewrite !length_app, length_map. simpl in *. lia. }
    destruct (Promise_all_Returns
                (fun '(child, stat) =>
                   _resolveChildren st sched fuel child (stats_isDirectory stat))
                (fun x k h0 =>
                   built st h0 (Node (fst x) (stats_isDirectory (snd x)) k))
                (combine cs stats) h3 resolved h4) as [Hp4 Hres].
    { intros x k h1 h2'. apply built_prefix. }
    { intros [c s] h0 k h1 Hin Hh0 Hk. simpl. apply IH; [| exact Hk].
      apply in_combine_l in Hin. rewrite List.Forall_forall in Hcslt.
      apply Hcslt in Hin. apply prefix_length in Hp3, Hh0. lia. }
    { exact Erec. }
    assert (Hp : h `prefix_of` h4)
      by (transitivity h2; [assumption |]; now transitivity h3).
    split; [assumption |].
    destruct (childNodes_Forall (built st h4) cs stats resolved Hls Hres)
      as [HF HL].
    apply built_node with names.
    + apply prefix_length in Hp. lia.
    + now rewrite Habs.
    + now rewrite HL.
    + intros Hnil. rewrite Hnil in HL. simpl in HL.
      rewrite <- HL in Hz. discriminate.
    + assumption.
Qed.

Lemma FS_tree_built fuel (path : path_like) (h : store) node h' :
  path_like_in path h ->
  FS_tree st sched fuel path h = Returns (node, h') ->
  h `prefix_of` h' /\ built st h' node.
Proof.
  intros Hv. unfold FS_tree. destruct (Path_from path h) as [a h1] eqn:Ef.
  intros E. apply bind_Returns in E as (s & h2 & Es & E).
  apply bind_Returns in E as (kids & h3 & Ek & E). injection E as <- <-.
  assert (Hp1 : h `prefix_of` h1).
  { pose proof (Path_from_prefix path h) as H. now rewrite Ef in H. }
  assert (Ha : a < length h1).
  { destruct path as [s0 | a0]; simpl in Ef; injection Ef as <- <-.
    - rewrite length_app. simpl. lia.
    - exact Hv. }
  apply FS_stat_Returns in Es as [-> _].
  destruct (_resolveChildren_built fuel a (stats_isDirectory s)
              (h1 ++ [Path_absolute a h1]) kids h3) as [Hp3 Hb];
    [rewrite length_app; lia | exact Ek |].
  split; [| assumption].
  transitivity h1; [assumption |].
  transitivity (h1 ++ [Path_absolute a h1]); [now apply prefix_app_r | assumption].
Qed.

End ResolverFacts.

(** ** Directory subtrees *)

Section EntryFacts.

Lemma entry_induction (P : entry -> Prop) :
  P File -> P Missing -> P Unstatable -> P Unlistable ->
  (forall l, Forall (fun nc => P (snd nc)) l -> P (Dir l)) ->
  forall e, P e.
Proof.
  intros HF HM HU HL HD. fix IH 1. intros [| l | | |]; try assumption.
  apply HD. induction l as [|[n c] l IHl]; constructor; [apply IH | exact IHl].
Qed.

Lemma holds_Dir st abs l :
  holds st abs (Dir l)
  = nfs_access st abs && stat_is st abs true
    && listing_is st abs (map fst l)
    && forallb (fun nc => holds st (Posix.child_abs abs (fst nc)) (snd nc)) l.
Proof.
  cbn [holds]. f_equal.
  induction l as [|[n c] l IH]; [reflexivity |]. simpl. now rewrite IH.
Qed.

Lemma names_ok_Dir l :
  names_ok (Dir l)
  = forallb Posix.is_name (map fst l)
    && (if decide (NoDup (map fst l)) then true else false)
    && forallb (fun nc => names_ok (snd nc)) l.
Proof.
  cbn [names_ok]. f_equal.
  induction l as [|[n c] l IH]; [reflexivity |]. simpl. now rewrite IH.
Qed.

Lemma entries_Dir l :
  entries (Dir l) = list_sum (map (fun nc => S (entries (snd nc))) l).
Proof.
  cbn [entries].
  induction l as [|[n c] l IH]; [reflexivity |]. simpl in *. congruence.
Qed.

Lemma height_Dir l :
  height (Dir l) = S (list_max (map (fun nc => height (snd nc)) l)).
Proof.
  cbn [height]. f_equal.
  induction l as [|[n c] l IH]; [reflexivity |]. simpl. now rewrite IH.
Qed.

Lemma failures_Dir abs l :
  failures abs (Dir l)
  = flat_map (fun nc => failures (Posix.child_abs abs (fst nc)) (snd nc)) l.
Proof.
  cbn [failures].
  induction l as [|[n c] l IH]; [reflexivity |]. simpl. now rewrite IH.
Qed.

Lemma expected_paths_Dir p l :
  expected_paths p (Dir l)
  = p :: flat_map
           (fun nc => expected_paths (Posix.join [p; fst nc]) (snd nc)) l.
Proof.
  cbn [expected_paths]. f_equal.
  induction l as [|[n c] l IH]; [reflexivity |]. simpl. now rewrite IH.
Qed.

Lemma expected_paths_length p e : length (expected_paths p e) = S (entries e).
Proof.
  revert p. induction e as [| | | | l IH] using entry_induction; intros p;
    try reflexivity.
  rewrite expected_paths_Dir, entries_Dir. simpl. f_equal.
  induction IH as [|[n c] l Hc _ IHl]; [reflexivity |].
  simpl. rewrite length_app, Hc, IHl. reflexivity.
Qed.

Lemma stat_is_eq st abs d :
  stat_is st abs d = true ->
  nfs_stat st abs = Some {| stats_isDirectory := d |}.
Proof.
  unfold stat_is. destruct (nfs_stat st abs) as [[b] |]; [| discriminate].
  simpl. intros H%Bool.eqb_prop. now subst.
Qed.

Lemma listing_is_eq st abs names :
  listing_is st abs names = true -> nfs_readdir st abs = Some names.
Proof.
  unfold listing_is. destruct (nfs_readdir st abs) as [l |]; [| discriminate].
  destruct (decide (l = names)); [now subst | discriminate].
Qed.

End EntryFacts.

(** ** The resolver on [path.posix] *)

Section PosixResolver.
Variable pr : Posix.process.
Variable st : Storage.
Variable sched : Scheduler.

#[local] Instance posix_path : NodePath := Posix.npath pr.

Import Posix PosixFacts.

Lemma absolute_join a (h : store) p n :
  Path_path a h = join [p; n] -> is_name n = true ->
  Path_absolute a h = child_abs (resolve (cwd pr) p) n.
Proof.
  intros Hp Hn. unfold Path_absolute. rewrite Hp. now apply resolve_join.
Qed.

Lemma absolute_absolute a (h : store) :
  npath_resolve (Path_absolute a h) = Path_absolute a h.
Proof. apply resolve_resolve. Qed.

Lemma FS_stat_holds a (h : store) e :
  holds st (Path_absolute a h) e = true ->
  FS_stat st (Obj a) h
  = match stat_of (Path_absolute a h) e with
    | Returns s => Returns (s, h ++ [Path_absolute a h])
    | Throws err => Throws err
    | Beyond => Beyond
    end.
Proof.
  intros H. rewrite FS_stat_Obj. cbv zeta. rewrite absolute_absolute.
  destruct e as [| l | | |].
  - cbn [holds] in H. apply andb_true_iff in H as [Ha Hs].
    rewrite Ha, (stat_is_eq _ _ _ Hs). reflexivity.
  - rewrite holds_Dir in H.
    apply andb_true_iff in H as [[[Ha Hs]%andb_true_iff _]%andb_true_iff _].
    rewrite Ha, (stat_is_eq _ _ _ Hs). reflexivity.
  - cbn [holds] in H. apply negb_true_iff in H. now rewrite H.
  - cbn [holds] in H. apply andb_true_iff in H as [Ha Hs]. rewrite Ha.
    now destruct (nfs_stat st _).
  - cbn [holds] in H.
    apply andb_true_iff in H as [[Ha Hs]%andb_true_iff _].
    rewrite Ha, (stat_is_eq _ _ _ Hs). reflexivity.
Qed.

Lemma children_in_store (h0 h1 : store) (cs : list nat) :
  Forall (fun c => c < length h0) cs -> h0 `prefix_of` h1 ->
  Forall (fun c => c < length h1) cs.
Proof.
  intros H Hp%prefix_length. eapply Forall_impl; [exact H |].
  intros; simpl in *; lia.
Qed.

Lemma children_paths_prefix (h0 h1 : store) (cs : list nat) :
  Forall (fun c => c < length h0) cs -> h0 `prefix_of` h1 ->
  map (fun c => Path_path c h1) cs = map (fun c => Path_path c h0) cs.
Proof.
  intros H Hp. induction H as [|c cs Hc _ IH]; [reflexivity |].
  simpl. now rewrite IH, (Path_path_prefix c h0 h1).
Qed.

(** the batch of [FS.stat] calls on the listed children *)
Lemma stats_settled p l :
  forall cs (h0 : store),
    Forall (fun c => c < length h0) cs ->
    map (fun c => Path_path c h0) cs = map (fun nc => join [p; fst nc]) l ->
    Forall (fun nc =>
              is_name (fst nc) = true
              /\ holds st (child_abs (resolve (cwd pr) p) (fst nc)) (snd nc)
                 = true) l ->
    exists h1,
      all_settled (map (fun c => FS_stat st (Obj c)) cs) h0
      = (map (fun nc => stat_of (child_abs (resolve (cwd pr) p) (fst nc))
                          (snd nc)) l, h1)
      /\ h0 `prefix_of` h1.
Proof.
  induction l as [|[n e] l IH]; intros cs h0 Hlt Hmap Hl.
  - destruct cs; [| discriminate]. exists h0. now split.
  - destruct cs as [|c cs]; [discriminate |]. simpl in Hmap.
    injection Hmap as Hc Hmap.
    apply Forall_cons_iff in Hlt as [Hclt Hlt].
    apply Forall_cons_iff in Hl as [[Hn He] Hl]. simpl in Hn, He.
    pose proof (absolute_join c h0 p n Hc Hn) as Habs.
    cbn [map all_settled fst snd].
    rewrite (FS_stat_holds c h0 e) by now rewrite Habs.
    rewrite Habs.
    destruct (stat_of (child_abs (resolve (cwd pr) p) n) e) as [s | err |] eqn:Es.
    + set (h0' := h0 ++ [child_abs (resolve (cwd pr) p) n]).
      assert (Hp : h0 `prefix_of` h0') by now apply prefix_app_r.
      destruct (IH cs h0') as (h1 & E & Hp1).
      * now apply children_in_store with h0.
      * now rewrite children_paths_prefix with (h0 := h0).
      * assumption.
      * rewrite E. exists h1. split; [reflexivity | now transitivity h0'].
    + destruct (IH cs h0 Hlt Hmap Hl) as (h1 & E & Hp1).
      rewrite E. now exists h1.
    + destruct e; discriminate.
Qed.

Lemma stat_of_beyond abs l :
  existsb is_beyond
    (map (fun nc : string * entry => stat_of (child_abs abs (fst nc)) (snd nc)) l)
  = false.
Proof.
  induction l as [|[n e] l IH]; [reflexivity |]. simpl. rewrite IH.
  now destruct e.
Qed.

Lemma stat_of_rejections abs l :
  incl
    (rejections
       (map (fun nc : string * entry =>
               stat_of (child_abs abs (fst nc)) (snd nc)) l))
    (failures abs (Dir l)).
Proof.
  rewrite failures_Dir. induction l as [|[n e] l IH].
  - intros x [].
  - cbn [map flat_map fst snd].
    destruct e as [| l' | | |]; cbn [stat_of rejections].
    + now apply incl_appr.
    + now apply incl_appr.
    + cbn [failures app]. apply incl_cons; [now left | now apply incl_tl].
    + cbn [failures app]. apply incl_cons; [now left | now apply incl_tl].
    + now apply incl_appr.
Qed.

Lemma stat_of_values abs l :
  rejections
    (map (fun nc : string * entry =>
            stat_of (child_abs abs (fst nc)) (snd nc)) l) = [] ->
  Forall (fun nc => statable (snd nc) = true) l
  /\ values
       (map (fun nc : string * entry =>
               stat_of (child_abs abs (fst nc)) (snd nc)) l)
     = map (fun nc => {| stats_isDirectory := is_dir (snd nc) |}) l.
Proof.
  induction l as [|[n e] l IH]; [now split |]. simpl.
  destruct e; simpl; try discriminate; intros H;
    destruct (IH H) as [HF HV]; (split; [now constructor | now rewrite HV]).
Qed.

(** the batch of recursive calls on the listed children *)
Lemma recs_settled p fuel l :
  forall cs (h0 : store),
    Forall (fun c => c < length h0) cs ->
    map (fun c => Path_path c h0) cs = map (fun nc => join [p; fst nc]) l ->
    Forall (fun nc =>
              is_name (fst nc) = true
              /\ holds st (child_abs (resolve (cwd pr) p) (fst nc)) (snd nc)
                 = true
              /\ names_ok (snd nc) = true
              /\ statable (snd nc) = true
              /\ height (snd nc) <= fuel
              /\ resolver_spec st sched (snd nc)) l ->
    exists rs h1,
      all_settled
        (map (fun '(child, stat) =>
                _resolveChildren st sched fuel child (stats_isDirectory stat))
           (combine cs
              (map (fun nc => {| stats_isDirectory := is_dir (snd nc) |}) l)))
        h0 = (rs, h1)
      /\ h0 `prefix_of` h1
      /\ existsb is_beyond rs = false
      /\ incl (rejections rs) (failures (resolve (cwd pr) p) (Dir l))
      /\ (rejections rs = [] ->
          failures (resolve (cwd pr) p) (Dir l) = []
          /\ length (values rs) = length l
          /\ flat_map (preorder h1)
               (childNodes cs
                  (map (fun nc => {| stats_isDirectory := is_dir (snd nc) |}) l)
                  (values rs))
             = flat_map
                 (fun nc => expected_paths (join [p; fst nc]) (snd nc)) l).
Proof.
  induction l as [|[n e] l IH]; intros cs h0 Hlt Hmap Hl.
  - destruct cs; [| discriminate]. exists [], h0.
    repeat split; try reflexivity; easy.
  - destruct cs as [|c cs]; [discriminate |]. simpl in Hmap.
    injection Hmap as Hc Hmap.
    apply Forall_cons_iff in Hlt as [Hclt Hlt].
    apply Forall_cons_iff in Hl as [(Hn & He & Hok & Hst & Hht & Hspec) Hl].
    simpl in Hn, He, Hok, Hst, Hht, Hspec.
    pose proof (absolute_join c h0 p n Hc Hn) as Habs.
    rewrite failures_Dir.
    cbn [map combine all_settled flat_map fst snd stats_isDirectory].
    specialize (Hspec fuel c h0 Hclt). rewrite Habs, Hc in Hspec.
    specialize (Hspec He Hok Hst Hht).
    destruct (failures (child_abs (resolve (cwd pr) p) n) e) as [|f fs] eqn:Ef.
    + destruct Hspec as (kids & h' & Ek & Hpre). rewrite Ek.
      destruct (_resolveChildren_built st sched fuel c (is_dir e) h0 kids h'
                  Hclt Ek) as [Hp (Hin & _)].
      destruct (IH cs h') as (rs & h1 & E & Hp1 & Hb & Hincl & Hok').
      * now apply children_in_store with h0.
      * now rewrite children_paths_prefix with (h0 := h0).
      * assumption.
      * rewrite E. exists (Returns kids :: rs), h1.
        rewrite failures_Dir in Hincl, Hok'.
        repeat split.
        -- now transitivity h'.
        -- exact Hb.
        -- exact Hincl.
        -- now apply Hok'.
        -- simpl. f_equal. now apply Hok'.
        -- cbn [values childNodes flat_map stats_isDirectory].
           destruct (Hok' H) as (_ & _ & ->). f_equal.
           rewrite (preorder_local _ h' h1 Hin Hp1). exact Hpre.
    + destruct Hspec as (err & Ek & Herr). rewrite Ek.
      destruct (IH cs h0 Hlt Hmap Hl) as (rs & h1 & E & Hp1 & Hb & Hincl & _).
      rewrite E. exists (Throws err :: rs), h1.
      rewrite failures_Dir in Hincl.
      repeat split; try assumption; try discriminate.
      cbn [rejections]. apply incl_cons; [apply in_or_app; now left |].
      now apply incl_appr.
Qed.

Lemma absolute_app a (h k : store) :
  a < length h -> Path_absolute a (h ++ k) = Path_absolute a h.
Proof. intros H. unfold Path_absolute. now rewrite Path_path_app_l. Qed.

Lemma FS_ls_holds a (h : store) l :
  a < length h ->
  holds st (Path_absolute a h) (Dir l) = true ->
  FS_ls st (Obj a) h
  = Returns (seq (S (length h)) (length l),
             (h ++ [Path_absolute a h])
               ++ map (fun nc => join [Path_path a h; fst nc]) l).
Proof.
  intros Ha H. unfold FS_ls. cbn [Path_from].
  rewrite (FS_stat_holds a h (Dir l) H). cbn [stat_of is_dir stats_isDirectory negb].
  rewrite absolute_app by assumption.
  rewrite holds_Dir in H.
  apply andb_true_iff in H as [[_ Hr%listing_is_eq]%andb_true_iff _].
  rewrite Hr, ls_subpaths_spec by (rewrite length_app; simpl; lia).
  rewrite length_app, length_map, map_map. simpl length.
  rewrite Nat.add_1_r. do 3 f_equal.
  apply map_ext. intros nc. now rewrite Path_path_app_l.
Qed.

Lemma FS_ls_unlistable a (h : store) :
  a < length h ->
  holds st (Path_absolute a h) Unlistable = true ->
  FS_ls st (Obj a) h = Throws (Native "readdir" (Path_absolute a h)).
Proof.
  intros Ha H. unfold FS_ls. cbn [Path_from].
  rewrite (FS_stat_holds a h Unlistable H).
  cbn [stat_of is_dir stats_isDirectory negb].
  rewrite absolute_app by assumption.
  cbn [holds] in H. apply andb_true_iff in H as [_ Hr].
  now destruct (nfs_readdir st _).
Qed.

Lemma listed_children (h : store) (xs : list string) :
  Forall (fun c => c < length (h ++ xs)) (seq (length h) (length xs))
  /\ map (fun c => Path_path c (h ++ xs)) (seq (length h) (length xs)) = xs.
Proof.
  split.
  - apply List.Forall_forall. intros c Hc%in_seq. rewrite length_app. lia.
  - apply (strings_of_clones h xs).
Qed.

Lemma list_max_le (f : string * entry -> nat) l m :
  list_max (map f l) <= m -> Forall (fun x => f x <= m) l.
Proof.
  induction l as [|x l IH]; [constructor |]. simpl. intros H.
  constructor; [lia | apply IH; lia].
Qed.

(** the resolver does on every subtree what [resolver_spec] says *)
Lemma resolver_holds e : resolver_spec st sched e.
Proof.
  induction e as [| | | | l IH] using entry_induction;
    intros fuel a h Ha Hh Hok Hst Hfuel; try discriminate.
  - destruct fuel as [|fuel]; [simpl in Hfuel; lia |].
    cbn [failures]. exists None, h. split; reflexivity.
  - destruct fuel as [|fuel]; [simpl in Hfuel; lia |].
    cbn [failures]. exists (Native "readdir" (Path_absolute a h)).
    split; [| now left].
    cbn [_resolveChildren is_dir negb]. unfold bind.
    now rewrite FS_ls_unlistable.
  - rewrite height_Dir in Hfuel.
    destruct fuel as [|fuel]; [lia |]. apply le_S_n in Hfuel.
    set (p := Path_path a h) in *.
    set (abs := Path_absolute a h) in *.
    assert (Eabs : abs = resolve (cwd pr) p) by reflexivity.
    pose proof Hh as Hh'. rewrite holds_Dir in Hh'.
    apply andb_true_iff in Hh' as [_ Hkids].
    rewrite forallb_forall in Hkids.
    rewrite names_ok_Dir in Hok.
    apply andb_true_iff in Hok as [[Hnames _]%andb_true_iff Hoks].
    rewrite forallb_forall in Hnames, Hoks.
    assert (Hl1 : Forall (fun nc =>
                is_name (fst nc) = true
                /\ holds st (child_abs (resolve (cwd pr) p) (fst nc)) (snd nc)
                   = true) l).
    { apply List.Forall_forall. intros nc Hnc. split.
      - apply Hnames. now apply in_map.
      - rewrite <- Eabs. now apply Hkids. }
    cbn [is_dir].
    remember (_resolveChildren st sched (S fuel) a true h) as R eqn:HR.
    cbn [_resolveChildren negb] in HR. unfold bind at 1 in HR.
    rewrite (FS_ls_holds a h l Ha Hh) in HR. fold p abs in HR.
    rewrite length_seq in HR.
    destruct (Nat.eqb (length l) 0) eqn:Hz.
    { apply Nat.eqb_eq, length_zero_iff_nil in Hz. subst l.
      rewrite failures_Dir. simpl. eexists None, _. split; [exact HR |].
      simpl. f_equal. rewrite app_nil_r. now apply Path_path_app_l. }
    set (h2 := (h ++ [abs]) ++ map (fun nc => join [p; fst nc]) l) in *.
    set (cs := seq (S (length h)) (length l)) in *.
    assert (Hseq : cs = seq (length (h ++ [abs]))
                       (length (map (fun nc => join [p; fst nc]) l))).
    { unfold cs. rewrite length_app, length_map. simpl. now rewrite Nat.add_1_r. }
    assert (Hcslt : Forall (fun c => c < length h2) cs).
    { rewrite Hseq. apply listed_children. }
    assert (Hcsmap : map (fun c => Path_path c h2) cs
                     = map (fun nc => join [p; fst nc]) l).
    { rewrite Hseq. apply listed_children. }
    unfold bind at 1 in HR. unfold Promise_all at 1 in HR.
    destruct (stats_settled p l cs h2 Hcslt Hcsmap Hl1) as (h3 & Est & Hp3).
    rewrite Est, stat_of_beyond in HR.
    pose proof (stat_of_rejections (resolve (cwd pr) p) l) as Hincl1.
    destruct (rejections (map _ l)) as [|r1 rs1] eqn:Er1.
    2:{ destruct (failures abs (Dir l)) as [|f fs] eqn:Ef.
        - rewrite <- Eabs, Ef in Hincl1. destruct (Hincl1 r1); now left.
        - exists (first_rejection sched r1 rs1). split; [exact HR |].
          rewrite <- Ef, Eabs. apply Hincl1, first_rejection_In. }
    destruct (stat_of_values _ _ Er1) as [Hstat Hvals].
    rewrite Hvals in HR.
    assert (Hl2 : Forall (fun nc =>
                is_name (fst nc) = true
                /\ holds st (child_abs (resolve (cwd pr) p) (fst nc)) (snd nc)
                   = true
                /\ names_ok (snd nc) = true
                /\ statable (snd nc) = true
                /\ height (snd nc) <= fuel
                /\ resolver_spec st sched (snd nc)) l).
    { apply list_max_le in Hfuel.
      rewrite List.Forall_forall in Hl1, Hstat, Hfuel, IH.
      apply List.Forall_forall. intros nc Hnc.
      destruct (Hl1 nc Hnc) as [? ?]. repeat split; auto. }
    destruct (recs_settled p fuel l cs h3) as
      (rs & h4 & Erec & Hp4 & Hb & Hincl2 & Hval).
    { now apply children_in_store with h2. }
    { now rewrite children_paths_prefix with (h0 := h2). }
    { exact Hl2. }
    unfold bind at 1 in HR. unfold Promise_all at 1 in HR.
    rewrite Erec, Hb in HR.
    destruct (rejections rs) as [|r2 rs2] eqn:Er2.
    + destruct (Hval eq_refl) as (Hnone & Hlen & Hflat).
      rewrite <- Eabs in Hnone. rewrite Hnone.
      eexists _, h4. split; [exact HR |].
      rewrite expected_paths_Dir. cbn [preorder]. rewrite Hflat. f_equal.
      apply Path_path_prefix; [assumption |].
      transitivity h2; [| now transitivity h3].
      unfold h2. rewrite <- app_assoc. now apply prefix_app_r.
    + destruct (failures abs (Dir l)) as [|f fs] eqn:Ef.
      * rewrite <- Eabs, Ef in Hincl2. destruct (Hincl2 r2); now left.
      * exists (first_rejection sched r2 rs2). split; [exact HR |].
        rewrite <- Ef, Eabs. apply Hincl2, first_rejection_In.
Qed.

Lemma Path_from_spec (path : path_like) (h : store) :
  path_like_in path h ->
  exists a h1,
    Path_from path h = (a, h1) /\ a < length h1
    /\ Path_path a h1 = path_string path h /\ h `prefix_of` h1.
Proof.
  intros Hv. destruct path as [s | a].
  - exists (length h), (h ++ [s]). simpl. repeat split.
    + rewrite length_app. simpl. lia.
    + apply Path_path_new.
    + now apply prefix_app_r.
  - exists a, h. now repeat split.
Qed.

(** [FS.tree] on a directory subtree: the whole subtree in pre-order, or
    one of the rejections it has in store *)
Lemma FS_tree_holds e fuel (path : path_like) (h : store) :
  path_like_in path h ->
  holds st (resolve (cwd pr) (path_string path h)) e = true ->
  names_ok e = true ->
  height e <= fuel ->
  match failures (resolve (cwd pr) (path_string path h)) e with
  | [] =>
      exists node h',
        FS_tree st sched fuel path h = Returns (node, h')
        /\ preorder h' node = expected_paths (path_string path h) e
  | fs =>
      exists err, FS_tree st sched fuel path h = Throws err /\ In err fs
  end.
Proof.
  intros Hv Hh Hok Hfuel.
  destruct (Path_from_spec path h Hv) as (a & h1 & Ef & Ha & Hp & Hpre).
  remember (FS_tree st sched fuel path h) as R eqn:HR.
  unfold FS_tree in HR. rewrite Ef in HR. unfold bind at 1 in HR.
  assert (Habs : Path_absolute a h1 = resolve (cwd pr) (path_string path h))
    by (unfold Path_absolute; now rewrite Hp).
  rewrite <- Habs in *.
  rewrite (FS_stat_holds a h1 e Hh) in HR.
  destruct (statable e) eqn:Hst.
  2:{ destruct e; try discriminate; cbn [stat_of failures] in *;
        eexists; (split; [exact HR | now left]). }
  assert (Hs : stat_of (Path_absolute a h1) e
               = Returns {| stats_isDirectory := is_dir e |})
    by (destruct e; try discriminate; reflexivity).
  rewrite Hs in HR. cbn [stats_isDirectory] in HR.
  set (h2 := h1 ++ [Path_absolute a h1]) in *.
  assert (Ha2 : a < length h2) by (unfold h2; rewrite length_app; lia).
  assert (Habs2 : Path_absolute a h2 = Path_absolute a h1)
    by now apply absolute_app.
  pose proof (resolver_holds e fuel a h2 Ha2) as Hspec.
  rewrite Habs2 in Hspec. specialize (Hspec Hh Hok Hst Hfuel).
  unfold bind at 1 in HR.
  destruct (failures (Path_absolute a h1) e) as [|f fs].
  - destruct Hspec as (kids & h' & Ek & Hpo). rewrite Ek in HR.
    exists (Node a (is_dir e) kids), h'. split; [exact HR |].
    rewrite Hpo. unfold h2. now rewrite Path_path_app_l, Hp.
  - destruct Hspec as (err & Ek & Hin). rewrite Ek in HR. now exists err.
Qed.

(** *** A child that cannot be stat'ed *)

Lemma stat_of_rejection_inv abs l err :
  In err
    (rejections
       (map (fun nc : string * entry =>
               stat_of (child_abs abs (fst nc)) (snd nc)) l)) ->
  exists n c,
    In (n, c) l /\ statable c = false /\ stat_failure err (child_abs abs n).
Proof.
  induction l as [|[n e] l IH]; [intros [] |].
  cbn [map rejections fst snd]. intros H.
  assert (Hrest : In err (rejections
            (map (fun nc : string * entry =>
                    stat_of (child_abs abs (fst nc)) (snd nc)) l)) ->
          exists n0 c, In (n0, c) ((n, e) :: l) /\ statable c = false
                       /\ stat_failure err (child_abs abs n0)).
  { intros H'. destruct (IH H') as (n0 & c & Hin & Hs & Hf).
    exists n0, c. repeat split; [now right | assumption | assumption]. }
  destruct e as [| l' | | |]; cbn [stat_of rejections] in H; auto.
  - destruct H as [<- | H]; [| auto].
    exists n, Missing. repeat split; [now left | now left].
  - destruct H as [<- | H]; [| auto].
    exists n, Unstatable. repeat split; [now left | now right].
Qed.

Lemma stat_of_rejection_exists abs l :
  Exists (fun nc : string * entry => statable (snd nc) = false) l ->
  rejections
    (map (fun nc : string * entry =>
            stat_of (child_abs abs (fst nc)) (snd nc)) l) <> [].
Proof.
  induction 1 as [[n e] l He | [n e] l _ IH]; cbn [map rejections fst snd].
  - simpl in He. destruct e; try discriminate; cbn [stat_of]; discriminate.
  - destruct e; cbn [stat_of]; try assumption; discriminate.
Qed.

Lemma _resolveChildren_stat_fails a (h : store) l fuel :
  a < length h ->
  holds st (Path_absolute a h) (Dir l) = true ->
  names_ok (Dir l) = true ->
  Exists (fun nc : string * entry => statable (snd nc) = false) l ->
  exists err,
    _resolveChildren st sched (S fuel) a true h = Throws err
    /\ In err
         (rejections
            (map (fun nc : string * entry =>
                    stat_of (child_abs (Path_absolute a h) (fst nc)) (snd nc))
               l)).
Proof.
  intros Ha Hh Hok Hex.
  set (p := Path_path a h) in *.
  set (abs := Path_absolute a h) in *.
  assert (Eabs : abs = resolve (cwd pr) p) by reflexivity.
  pose proof Hh as Hh'. rewrite holds_Dir in Hh'.
  apply andb_true_iff in Hh' as [_ Hkids].
  rewrite forallb_forall in Hkids.
  rewrite names_ok_Dir in Hok.
  apply andb_true_iff in Hok as [[Hnames _]%andb_true_iff Hoks].
  rewrite forallb_forall in Hnames.
  assert (Hl1 : Forall (fun nc =>
              is_name (fst nc) = true
              /\ holds st (child_abs (resolve (cwd pr) p) (fst nc)) (snd nc)
                 = true) l).
  { apply List.Forall_forall. intros nc Hnc. split.
    - apply Hnames. now apply in_map.
    - rewrite <- Eabs. now apply Hkids. }
  remember (_resolveChildren st sched (S fuel) a true h) as R eqn:HR.
  cbn [_resolveChildren negb] in HR. unfold bind at 1 in HR.
  rewrite (FS_ls_holds a h l Ha Hh) in HR. fold p abs in HR.
  rewrite length_seq in HR.
  assert (Hne : l <> []) by (intros ->; inversion Hex).
  replace (Nat.eqb (length l) 0) with false in HR
    by (destruct l; [congruence | reflexivity]).
  set (h2 := (h ++ [abs]) ++ map (fun nc => join [p; fst nc]) l) in *.
  set (cs := seq (S (length h)) (length l)) in *.
  assert (Hseq : cs = seq (length (h ++ [abs]))
                     (length (map (fun nc => join [p; fst nc]) l))).
  { unfold cs. rewrite length_app, length_map. simpl. now rewrite Nat.add_1_r. }
  assert (Hcslt : Forall (fun c => c < length h2) cs).
  { rewrite Hseq. apply listed_children. }
  assert (Hcsmap : map (fun c => Path_path c h2) cs
                   = map (fun nc => join [p; fst nc]) l).
  { rewrite Hseq. apply listed_children. }
  unfold bind at 1 in HR. unfold Promise_all at 1 in HR.
  destruct (stats_settled p l cs h2 Hcslt Hcsmap Hl1) as (h3 & Est & Hp3).
  rewrite Est, stat_of_beyond in HR. rewrite <- Eabs in HR.
  pose proof (stat_of_rejection_exists abs l Hex) as Hrej.
  destruct (rejections (map _ l)) as [|r1 rs1] eqn:Er1; [congruence |].
  exists (first_rejection sched r1 rs1). split; [exact HR |].
  apply first_rejection_In.
Qed.

Lemma FS_tree_stat_fails l fuel (path : path_like) (h : store) :
  path_like_in path h ->
  holds st (resolve (cwd pr) (path_string path h)) (Dir l) = true ->
  names_ok (Dir l) = true ->
  1 <= fuel ->
  Exists (fun nc : string * entry => statable (snd nc) = false) l ->
  exists err n c,
    FS_tree st sched fuel path h = Throws err
    /\ In (n, c) l /\ statable c = false
    /\ stat_failure err
         (child_abs (resolve (cwd pr) (path_string path h)) n).
Proof.
  intros Hv Hh Hok Hfuel Hex.
  destruct fuel as [|fuel]; [lia |].
  destruct (Path_from_spec path h Hv) as (a & h1 & Ef & Ha & Hp & Hpre).
  remember (FS_tree st sched (S fuel) path h) as R eqn:HR.
  unfold FS_tree in HR. rewrite Ef in HR. unfold bind at 1 in HR.
  assert (Habs : Path_absolute a h1 = resolve (cwd pr) (path_string path h))
    by (unfold Path_absolute; now rewrite Hp).
  rewrite <- Habs in *.
  rewrite (FS_stat_holds a h1 (Dir l) Hh) in HR.
  cbn [stat_of is_dir stats_isDirectory] in HR.
  set (h2 := h1 ++ [Path_absolute a h1]) in *.
  assert (Ha2 : a < length h2) by (unfold h2; rewrite length_app; lia).
  assert (Habs2 : Path_absolute a h2 = Path_absolute a h1)
    by now apply absolute_app.
  destruct (_resolveChildren_stat_fails a h2 l fuel Ha2) as (err & Ek & Hin);
    [now rewrite Habs2 | assumption | assumption |].
  unfold bind at 1 in HR. rewrite Ek in HR. rewrite Habs2 in Hin.
  apply stat_of_rejection_inv in Hin as (n & c & Hnc & Hs & Hf).
  now exists err, n, c.
Qed.

End PosixResolver.

(** ** The paths of a subtree are all different *)

Section SubtreePaths.
Import Posix PosixFacts.

Lemma expected_segments_Dir segs l :
  expected_segments segs (Dir l)
  = segs :: flat_map
              (fun nc => expected_segments (segs ++ [fst nc]) (snd nc)) l.
Proof.
  cbn [expected_segments]. f_equal.
  induction l as [|[n c] l IH]; [reflexivity |]. simpl. now rewrite IH.
Qed.

Lemma expected_segments_extend e :
  forall segs x, In x (expected_segments segs e) ->
    exists suffix, x = segs ++ suffix.
Proof.
  induction e as [| | | | l IH] using entry_induction; intros segs x Hx;
    try (destruct Hx as [<- | []]; exists []; now rewrite app_nil_r).
  rewrite expected_segments_Dir in Hx. destruct Hx as [<- | Hx].
  - exists []. now rewrite app_nil_r.
  - apply in_flat_map in Hx as ([n c] & Hnc & Hx). simpl in Hx.
    rewrite List.Forall_forall in IH.
    destruct (IH (n, c) Hnc _ _ Hx) as [suffix ->].
    exists (n :: suffix). now rewrite <- app_assoc.
Qed.

Lemma expected_segments_names e :
  names_ok e = true ->
  forall segs x,
    Forall (fun s => is_name s = true) segs ->
    In x (expected_segments segs e) ->
    Forall (fun s => is_name s = true) x.
Proof.
  induction e as [| | | | l IH] using entry_induction; intros Hok segs x Hs Hx;
    try (destruct Hx as [<- | []]; assumption).
  rewrite expected_segments_Dir in Hx. destruct Hx as [<- | Hx];
    [assumption |].
  apply in_flat_map in Hx as ([n c] & Hnc & Hx). simpl in Hx.
  rewrite names_ok_Dir in Hok.
  apply andb_true_iff in Hok as [[Hnames _]%andb_true_iff Hoks].
  rewrite forallb_forall in Hnames, Hoks. rewrite List.Forall_forall in IH.
  apply (IH (n, c) Hnc (Hoks _ Hnc) (segs ++ [n])); [| assumption].
  apply Forall_app. split; [assumption |]. constructor; [| constructor].
  apply Hnames. now apply (in_map fst) in Hnc.
Qed.

Lemma expected_segments_NoDup e :
  names_ok e = true -> forall segs, NoDup (expected_segments segs e).
Proof.
  induction e as [| | | | l IH] using entry_induction; intros Hok segs;
    try apply NoDup_singleton.
  rewrite expected_segments_Dir. rewrite names_ok_Dir in Hok.
  apply andb_true_iff in Hok as [[_ Hnd]%andb_true_iff Hoks].
  destruct (decide (NoDup (map fst l))) as [Hnd' | ]; [clear Hnd | discriminate].
  rewrite forallb_forall in Hoks.
  constructor.
  - intros Hin%list_elem_of_In.
    apply in_flat_map in Hin as ([n c] & Hnc & Hx). simpl in Hx.
    apply expected_segments_extend in Hx as [suffix Hx].
    apply (f_equal (@length _)) in Hx. rewrite !length_app in Hx.
    simpl in Hx. lia.
  - induction l as [|[n c] l IHl]; [constructor |].
    apply Forall_cons_iff in IH as [IHc IH]. simpl in IHc.
    cbn [map fst] in Hnd'. apply NoDup_cons in Hnd' as [Hn Hnd''].
    cbn [flat_map fst snd]. apply NoDup_app. split; [| split].
    + apply IHc. apply (Hoks (n, c)). now left.
    + intros x Hx%list_elem_of_In Hx'%list_elem_of_In.
      apply expected_segments_extend in Hx as [s1 Hx].
      apply in_flat_map in Hx' as ([m c'] & Hmc & Hx'). simpl in Hx'.
      apply expected_segments_extend in Hx' as [s2 Hx'].
      rewrite Hx, <- !app_assoc in Hx'. apply app_inv_head in Hx'.
      injection Hx' as -> _. apply Hn.
      apply list_elem_of_In. now apply (in_map fst) in Hmc.
    + apply IHl; [assumption | assumption |].
      intros x Hx. apply Hoks. now right.
Qed.

Lemma abs_of_inj l1 l2 :
  Forall (fun s => is_name s = true) l1 ->
  Forall (fun s => is_name s = true) l2 ->
  abs_of l1 = abs_of l2 -> l1 = l2.
Proof.
  intros H1 H2 E.
  apply (f_equal (fun s => fold_left (step false) (split s) [])) in E.
  rewrite !split_abs_of in E by assumption.
  now apply rev_inj in E.
Qed.

Lemma NoDup_map_on {A B} (f : A -> B) (l : list A) :
  (forall x y, In x l -> In y l -> f x = f y -> x = y) ->
  NoDup l -> NoDup (map f l).
Proof.
  intros Hinj Hnd. induction Hnd as [|x l Hx Hnd IH]; [constructor |].
  simpl. constructor.
  - intros Hin%list_elem_of_In. apply in_map_iff in Hin as (y & Hy & Hin).
    apply Hx, list_elem_of_In.
    rewrite (Hinj x y); [assumption | now left | now right | now symmetry].
  - apply IH. intros a b Ha Hb. apply Hinj; now right.
Qed.

Lemma NoDup_map_back {A B} (f : A -> B) (l : list A) :
  NoDup (map f l) -> NoDup l.
Proof.
  induction l as [|x l IH]; [constructor |]. simpl.
  intros [Hx Hl]%NoDup_cons. constructor; [| now apply IH].
  intros Hin%list_elem_of_In. apply Hx, list_elem_of_In. now apply in_map.
Qed.

Lemma resolve_expected_paths (pr : process) e :
  names_ok e = true ->
  forall p,
    map (resolve (cwd pr)) (expected_paths p e)
    = map abs_of (expected_segments (rev (abs_segments (cwd pr) p)) e).
Proof.
  induction e as [| | | | l IH] using entry_induction; intros Hok p;
    try (simpl; now rewrite resolve_abs_of).
  rewrite expected_paths_Dir, expected_segments_Dir. cbn [map].
  rewrite resolve_abs_of. f_equal.
  rewrite names_ok_Dir in Hok.
  apply andb_true_iff in Hok as [[Hnames _]%andb_true_iff Hoks].
  rewrite forallb_forall in Hnames, Hoks.
  rewrite !map_flat_map. apply flat_map_pointwise.
  rewrite List.Forall_forall in IH. apply List.Forall_forall.
  intros [n c] Hnc. cbn [fst snd].
  rewrite (IH (n, c) Hnc (Hoks _ Hnc)).
  rewrite abs_segments_join; [reflexivity |].
  apply Hnames. now apply (in_map fst) in Hnc.
Qed.

(** no path string occurs twice in the pre-order of a subtree *)
Lemma expected_paths_NoDup (pr : process) e p :
  names_ok e = true -> NoDup (expected_paths p e).
Proof.
  intros Hok. apply (NoDup_map_back (resolve (cwd pr))).
  rewrite resolve_expected_paths by assumption.
  apply NoDup_map_on; [| now apply expected_segments_NoDup].
  intros x y Hx Hy. apply abs_of_inj.
  - eapply expected_segments_names; [exact Hok | | exact Hx].
    apply Forall_rev, abs_segments_names.
  - eapply expected_segments_names; [exact Hok | | exact Hy].
    apply Forall_rev, abs_segments_names.
Qed.

End SubtreePaths.

(** ** [Path] calls *)

Section CallFacts.
Context `{NP : NodePath}.
Import Str StrFacts.

Lemma joined_join x y : joined x y = npath_join [x; y].
Proof. reflexivity. Qed.

Lemma postfixed_join x y : postfixed x y = npath_join [x; y].
Proof. reflexivity. Qed.

Lemma inside_of_abs p q :
  inside_of p q = inside_abs (npath_resolve p) (npath_resolve q).
Proof. reflexivity. Qed.

Lemma inside_abs_iff t i :
  inside_abs t i = true
  <-> exists rest, t = i +:+ "/" +:+ rest \/ t = i +:+ "\" +:+ rest.
Proof.
  unfold inside_abs, startsWith. rewrite orb_true_iff, !prefix_iff. split.
  - intros [[r ->] | [r ->]]; exists r; rewrite sapp_assoc; auto.
  - intros [r [-> | ->]]; [left | right]; exists r; now rewrite sapp_assoc.
Qed.

Lemma inside_abs_irreflexive t : inside_abs t t = false.
Proof.
  destruct (inside_abs t t) eqn:E; [| reflexivity].
  apply inside_abs_iff in E as [r [E | E]];
    apply (f_equal String.length) in E; rewrite !sapp_length in E;
    simpl in E; lia.
Qed.

Lemma child_abs_below q y m :
  (exists r, y = q +:+ "/" +:+ r /\ r <> "") ->
  exists r, Posix.child_abs y m = q +:+ "/" +:+ r /\ r <> "".
Proof.
  intros (r & -> & Hr). unfold Posix.child_abs.
  destruct (String.eqb_spec (q +:+ "/" +:+ r) "/") as [E | _].
  - apply (f_equal String.length) in E. rewrite !sapp_length in E.
    destruct r; [congruence | simpl in E; lia].
  - exists (r +:+ "/" +:+ m). split; [now rewrite !sapp_assoc |].
    intros [? _]%sapp_eq_nil. contradiction.
Qed.

Lemma strict_descendant_below t q :
  q <> "/" -> strict_descendant t q ->
  exists r, t = q +:+ "/" +:+ r /\ r <> "".
Proof.
  intros Hq (n & names & Hnames & ->).
  apply Forall_cons_iff in Hnames as [Hn _]. cbn [fold_left].
  assert (H0 : exists r, Posix.child_abs q n = q +:+ "/" +:+ r /\ r <> "").
  { unfold Posix.child_abs. apply String.eqb_neq in Hq. rewrite Hq.
    exists n. split; [reflexivity |].
    apply PosixFacts.is_name_spec in Hn. tauto. }
  revert H0. generalize (Posix.child_abs q n) as y.
  induction names as [|m names IH]; intros y Hy; [exact Hy |].
  cbn [fold_left]. apply IH. now apply child_abs_below.
Qed.

Lemma strict_descendant_inside t q :
  q <> "/" -> strict_descendant t q -> inside_abs t q = true.
Proof.
  intros Hq Hd. destruct (strict_descendant_below t q Hq Hd) as (r & -> & _).
  apply inside_abs_iff. exists r. now left.
Qed.

End CallFacts.

(** ** Descendants and [inside] *)

Section DescendantFacts.
Import Str StrFacts Posix PosixFacts.

(** going down by names, on the segments *)
Lemma descend_abs_of names : forall segs,
  Forall (fun s => is_name s = true) segs ->
  Forall (fun s => is_name s = true) names ->
  fold_left child_abs names (abs_of segs) = abs_of (segs ++ names).
Proof.
  induction names as [|n names IH]; intros segs Hs Hn.
  - now rewrite app_nil_r.
  - apply Forall_cons_iff in Hn as [Hn Hns]. cbn [fold_left].
    rewrite child_abs_abs_of by assumption.
    rewrite IH; [now rewrite <- app_assoc | | assumption].
    apply Forall_app. split; [assumption | now repeat constructor].
Qed.

Lemma names_nosep segs :
  Forall (fun s => is_name s = true) segs -> Forall nosep segs.
Proof.
  intros Hs. eapply Forall_impl; [exact Hs |].
  intros x Hx. apply is_name_spec in Hx. tauto.
Qed.

(** the pieces of an absolute form below the root *)
Lemma pieces_abs_of segs :
  Forall (fun s => is_name s = true) segs -> segs <> [] ->
  split (abs_of segs) = "" :: segs.
Proof.
  intros Hs Hne. unfold abs_of. change ("/" +:+ ?x) with (String "/" x).
  rewrite split_cons_sep, split_concat; [reflexivity | assumption |].
  now apply names_nosep.
Qed.

(** what lies below an absolute form, after a ["/"], is a descendant *)
Lemma below_descendant P Q rest :
  Forall (fun s => is_name s = true) P ->
  Forall (fun s => is_name s = true) Q -> Q <> [] ->
  abs_of P = abs_of Q +:+ "/" +:+ rest ->
  strict_descendant (abs_of P) (abs_of Q).
Proof.
  intros HP HQ HneQ E.
  assert (HneP : P <> []).
  { intros ->. apply (f_equal String.length) in E.
    unfold abs_of in E. rewrite !sapp_length in E. simpl in E. lia. }
  pose proof (f_equal split E) as Es.
  rewrite split_app_sep, !pieces_abs_of in Es by assumption.
  injection Es as Es.
  destruct (split rest) as [|n names] eqn:Er; [now apply split_not_nil in Er |].
  assert (Hnames : Forall (fun s => is_name s = true) (n :: names)).
  { rewrite Es in HP. now apply Forall_app in HP as [_ HP]. }
  exists n, names. split; [exact Hnames |].
  rewrite descend_abs_of by assumption. now rewrite Es.
Qed.

(** [inside] on [path.posix], unless the second path is the root: a
    descendant, or what follows a backslash *)
Lemma inside_abs_descendant (pr : process) p q :
  resolve (cwd pr) q <> "/" ->
  inside_abs (resolve (cwd pr) p) (resolve (cwd pr) q) = true
  <-> strict_descendant (resolve (cwd pr) p) (resolve (cwd pr) q)
      \/ exists rest,
           resolve (cwd pr) p = resolve (cwd pr) q +:+ "\" +:+ rest.
Proof.
  intros Hq. split.
  - intros [rest [E | E]]%inside_abs_iff; [left | right; now exists rest].
    revert Hq E. rewrite !resolve_abs_of. intros Hq E.
    apply (below_descendant _ _ rest); try assumption.
    + apply Forall_rev, abs_segments_names.
    + apply Forall_rev, abs_segments_names.
    + intros H. apply Hq. now rewrite H.
  - intros [Hd | [rest E]].
    + now apply strict_descendant_inside.
    + apply inside_abs_iff. exists rest. now right.
Qed.

End DescendantFacts.

(** ** The traversals of a resolved graph *)

Section TraversalStatements.
Context `{NP : NodePath}.

Lemma clones_strings g (s : store -> TreeNode -> list string) n (h : store) :
  clones g s n -> in_store n h -> strings_of (g n h) = s h n.
Proof. intros Hc Hin. rewrite (Hc h Hin). apply strings_of_clones. Qed.

Lemma path_in_prefix (h h' : store) n l :
  in_store n h -> h `prefix_of` h' -> incl l (subnodes n) ->
  map (path_in h') l = map (path_in h) l.
Proof.
  intros Hin Hp Hl. apply map_ext_in. intros m Hm. unfold path_in.
  apply Path_path_prefix; [| assumption].
  unfold in_store in Hin. rewrite <- subnodes_addrs, Forall_map in Hin.
  rewrite List.Forall_forall in Hin. now apply Hin, Hl.
Qed.

Lemma clones_fresh g (s : store -> TreeNode -> list string) sel n (h : store) :
  clones g s n -> in_store n h ->
  s h n = map (path_in h) sel -> incl sel (subnodes n) ->
  fresh_clones h n sel (g n h).
Proof.
  intros Hc Hin Hs Hsel. rewrite (Hc h Hin).
  assert (Hp : h `prefix_of` h ++ s h n) by now apply prefix_app_r.
  unfold fresh_clones. cbn [fst snd]. repeat split.
  - rewrite strings_of_clones, Hs. rewrite Hs in Hp. symmetry.
    now apply path_in_prefix with n.
  - apply NoDup_seq.
  - apply List.Forall_forall. intros a Ha%in_seq. split.
    + rewrite length_app. lia.
    + intros Hn. unfold in_store in Hin. rewrite List.Forall_forall in Hin.
      apply Hin in Hn. lia.
  - intros calls Hcalls. apply List.Forall_forall. intros b Hb.
    unfold in_store in Hin. rewrite List.Forall_forall in Hin.
    pose proof (Hin b Hb) as Hlt.
    rewrite (mutate_all_frame calls (h ++ s h n)
               (fun a => In a (seq (length h) (length (s h n)))) b).
    + now apply Path_path_app_l.
    + exact Hcalls.
    + intros Hn%in_seq. lia.
    + rewrite length_app. lia.
Qed.

Lemma filter_incl {A} (f : A -> bool) l : incl (List.filter f l) l.
Proof. intros x Hx. now apply List.filter_In in Hx as [? _]. Qed.

Lemma Forall_flat_map_each {A B} (P : B -> Prop) (f : A -> list B) l :
  Forall (fun x => Forall P (f x)) l -> Forall P (flat_map f l).
Proof.
  induction 1 as [|x l Hx _ IH]; simpl; [constructor | now apply Forall_app].
Qed.

Lemma well_built_subnodes n :
  well_built n = true -> Forall (fun m => well_built m = true) (subnodes n).
Proof.
  induction n as [p d | p d cs IH] using TreeNode_induction; intros Hb.
  - now repeat constructor.
  - pose proof Hb as (_ & _ & Hcs)%well_built_children.
    simpl. constructor; [exact Hb |]. apply Forall_flat_map_each.
    rewrite List.Forall_forall in *. intros c Hc. apply IH; auto.
Qed.

End TraversalStatements.

Lemma scenario_node_in_store : in_store scenario_node scenario_store.
Proof. unfold in_store. simpl. repeat constructor. Defined.

(** * The statements of the specification *)

(** C1. On a resolved graph, [flatten] yields the node's own path followed
    by [flatten] of each child in order, and the node's own path alone for
    a node that is not a directory or has no children. So when the storage
    holds, at the root's absolute path, a subtree with [entries e] entries
    below the root and nothing fails, [FS.tree] returns a graph (given the
    recursion depth the subtree needs) and [flatten] of it yields the
    [entries e + 1] path strings of the subtree in pre-order, no string
    twice. *)
Theorem flatten_is_the_preorder :
  (forall (NP : NodePath) (node : TreeNode) (h : list string),
      well_built node = true -> in_store node h ->
      strings_of (tree_flatten node h)
      = path_in h node
          :: flat_map (fun c => strings_of (tree_flatten c h))
               (children_of node)
      /\ (node_isDirectory node = false \/ children_of node = [] ->
          strings_of (tree_flatten node h) = [path_in h node]))
  /\ (forall (pr : Posix.process) (st : Storage) (sched : Scheduler)
             (e : entry) (fuel : nat) (root : path_like) (h0 : list string),
         let NP := Posix.npath pr in
         let abs := Posix.resolve (Posix.cwd pr) (path_string root h0) in
         path_like_in root h0 ->
         holds st abs e = true ->
         names_ok e = true ->
         failures abs e = [] ->
         height e <= fuel ->
         exists node h,
           FS_tree st sched fuel root h0 = Returns (node, h)
           /\ well_built node = true /\ in_store node h
           /\ strings_of (tree_flatten node h)
              = expected_paths (path_string root h0) e
           /\ length (strings_of (tree_flatten node h)) = S (entries e)
           /\ NoDup (strings_of (tree_flatten node h))).
Proof.
  split.
  - intros NP node h Hb Hin.
    assert (Hrec : strings_of (tree_flatten node h)
                   = path_in h node
                       :: flat_map (fun c => strings_of (tree_flatten c h))
                            (children_of node)).
    { rewrite (clones_strings _ _ _ _ (tree_flatten_clones _ Hb) Hin).
      destruct node as [p d [cs |]]; [| reflexivity].
      apply well_built_children in Hb as (_ & _ & Hcs).
      apply in_store_children in Hin as [_ Hins].
      unfold children_of. cbn [preorder path_in node_path node_children].
      f_equal. apply flat_map_pointwise.
      rewrite List.Forall_forall in *. intros c Hc. symmetry.
      apply clones_strings; [apply tree_flatten_clones |]; auto. }
    split; [exact Hrec |].
    intros Hleaf. rewrite Hrec.
    assert (Hnone : children_of node = []).
    { destruct Hleaf as [Hd | Hc]; [| exact Hc].
      destruct node as [p d [cs |]]; [| reflexivity].
      apply well_built_children in Hb as (Hd' & _). simpl in Hd. congruence. }
    now rewrite Hnone.
  - intros pr st sched e fuel root h0 NP abs Hv Hh Hok Hnone Hfuel.
    pose proof (FS_tree_holds pr st sched e fuel root h0 Hv Hh Hok Hfuel)
      as Hspec.
    fold abs in Hspec. rewrite Hnone in Hspec.
    destruct Hspec as (node & h & E & Hpre).
    destruct (FS_tree_built st sched fuel root h0 node h Hv E)
      as [_ (Hin & Hb & _)].
    assert (Hflat : strings_of (tree_flatten node h)
                    = expected_paths (path_string root h0) e).
    { rewrite <- Hpre.
      apply (clones_strings _ _ _ _ (tree_flatten_clones _ Hb) Hin). }
    exists node, h. repeat split; try assumption.
    + rewrite Hflat. apply expected_paths_length.
    + rewrite Hflat. now apply (expected_paths_NoDup pr).
Qed.

Lemma flatten_is_the_preorder_witness :
  let NP := Posix.npath home_process in
  strings_of (tree_flatten scenario_node scenario_store)
  = path_in scenario_store scenario_node
      :: flat_map (fun c => strings_of (tree_flatten c scenario_store))
           (children_of scenario_node)
  /\ exists node h,
       FS_tree scenario_storage in_order 2 (Raw "/a") [] = Returns (node, h)
       /\ length (strings_of (tree_flatten node h)) = 3
       /\ NoDup (strings_of (tree_flatten node h)).
Proof.
  intros NP. split.
  - apply (proj1 flatten_is_the_preorder NP scenario_node scenario_store).
    + reflexivity.
    + exact scenario_node_in_store.
  - destruct (proj2 flatten_is_the_preorder home_process scenario_storage
                in_order scenario_entry 2 (Raw "/a") [])
      as (node & h & E & _ & _ & _ & Hlen & Hnd).
    + exact I.
    + reflexivity.
    + reflexivity.
    + reflexivity.
    + simpl. lia.
    + exists node, h. split; [exact E |]. split; [exact Hlen | exact Hnd].
Defined.

(** C2. When the storage holds, at the root's absolute path, a subtree in
    which some existence check, [stat] or listing fails, [FS.tree] rejects,
    whatever the order in which the I/O completes, with one of those
    failures, and returns no graph. When it is the [stat] of a child of the
    root directory that fails, the rejection is the failure of the [stat] of
    such a child and names that child's absolute path, and it comes before
    any child is resolved: one level of recursion is enough for it. *)
Theorem resolve_fails_fast :
  forall (pr : Posix.process) (st : Storage) (sched : Scheduler)
         (e : entry) (fuel : nat) (root : path_like) (h0 : list string),
    let NP := Posix.npath pr in
    let abs := Posix.resolve (Posix.cwd pr) (path_string root h0) in
    path_like_in root h0 ->
    holds st abs e = true ->
    names_ok e = true ->
    (height e <= fuel ->
     failures abs e <> [] ->
     exists err,
       FS_tree st sched fuel root h0 = Throws err
       /\ In err (failures abs e)
       /\ forall node h, FS_tree st sched fuel root h0 <> Returns (node, h))
    /\ (forall l,
           e = Dir l -> 1 <= fuel ->
           Exists (fun nc => statable (snd nc) = false) l ->
           exists err n c,
             FS_tree st sched fuel root h0 = Throws err
             /\ In (n, c) l /\ statable c = false
             /\ stat_failure err (Posix.child_abs abs n)).
Proof.
  intros pr st sched e fuel root h0 NP abs Hv Hh Hok. split.
  - intros Hfuel Hsome.
    pose proof (FS_tree_holds pr st sched e fuel root h0 Hv Hh Hok Hfuel)
      as Hspec.
    fold abs in Hspec. destruct (failures abs e) as [|f fs]; [congruence |].
    destruct Hspec as (err & E & Hin). exists err.
    split; [exact E |]. split; [exact Hin |].
    intros node h E'. unfold NP in E'.
    change (Posix.npath pr) with (posix_path pr) in E'. congruence.
  - intros l -> Hfuel Hex.
    exact (FS_tree_stat_fails pr st sched l fuel root h0 Hv Hh Hok Hfuel Hex).
Qed.

Lemma resolve_fails_fast_witness :
  let NP := Posix.npath home_process in
  (exists err,
      FS_tree broken_storage in_order 2 (Raw "/a") [] = Throws err
      /\ In err [NotAccessible "/a/x.txt"])
  /\ (exists err n c,
         FS_tree broken_storage in_order 2 (Raw "/a") [] = Throws err
         /\ In (n, c) [("x.txt", Missing); ("y", Dir [])]
         /\ statable c = false
         /\ stat_failure err (Posix.child_abs "/a" n)).
Proof.
  intros NP.
  pose proof (resolve_fails_fast home_process broken_storage in_order
                broken_entry 2 (Raw "/a") [] I eq_refl eq_refl) as [H1 H2].
  split.
  - destruct H1 as (err & E & Hin & _).
    + simpl. lia.
    + vm_compute. discriminate.
    + exists err. split; [exact E | exact Hin].
  - apply (H2 [("x.txt", Missing); ("y", Dir [])]).
    + reflexivity.
    + lia.
    + constructor. reflexivity.
Defined.

(** C3, as the code has it. On [path.posix], when the absolute form of
    [q] is not the root ["/"], [p.inside(q)] is true exactly when the
    absolute form of [p] is a strict descendant of the absolute form of
    [q], or starts with the absolute form of [q] followed by a backslash.
    [p.inside(p)] is false for every [p], on any platform. On
    [path.posix], when the absolute form of [q] is not the root, every
    direct child [join(q, name)] is inside [q]. *)
Theorem inside_is_descendant_or_backslash_prefix :
  (forall (pr : Posix.process) (p q : string),
      let NP := Posix.npath pr in
      @absolute_of NP q <> "/" ->
      (@inside_of NP p q = true
       <-> strict_descendant (@absolute_of NP p) (@absolute_of NP q)
           \/ exists rest,
                @absolute_of NP p = @absolute_of NP q +:+ "\" +:+ rest))
  /\ (forall (NP : NodePath) (p : string), inside_of p p = false)
  /\ (forall (pr : Posix.process) (q name : string),
         let NP := Posix.npath pr in
         @absolute_of NP q <> "/" ->
         Posix.is_name name = true ->
         @inside_of NP (@joined NP q name) q = true).
Proof.
  split; [| split].
  - intros pr p q NP Hq. rewrite inside_of_abs.
    now apply inside_abs_descendant.
  - intros NP p. rewrite inside_of_abs. apply inside_abs_irreflexive.
  - intros pr q name NP Hq Hn. rewrite inside_of_abs.
    apply strict_descendant_inside; [exact Hq |].
    exists name, []. split; [now repeat constructor |].
    cbn [fold_left]. rewrite joined_join.
    apply (PosixFacts.resolve_join pr q name Hn).
Qed.

Lemma inside_is_descendant_or_backslash_prefix_witness :
  let NP := Posix.npath home_process in
  (@inside_of NP "docs/a/b.txt" "docs" = true
   <-> strict_descendant (@absolute_of NP "docs/a/b.txt")
         (@absolute_of NP "docs")
       \/ exists rest,
            @absolute_of NP "docs/a/b.txt"
            = @absolute_of NP "docs" +:+ "\" +:+ rest)
  /\ @inside_of NP (@joined NP "docs" "a.txt") "docs" = true.
Proof.
  intros NP. split.
  - apply (proj1 inside_is_descendant_or_backslash_prefix home_process
             "docs/a/b.txt" "docs").
    vm_compute. discriminate.
  - apply (proj2 (proj2 inside_is_descendant_or_backslash_prefix)
             home_process "docs" "a.txt").
    + vm_compute. discriminate.
    + reflexivity.
Defined.

(** C3 fails as stated: the direct child [/a] of the root [/] is not inside
    it, and [/a\b], the entry [a\b] of the root, is inside [/a] without
    being its descendant. *)
Lemma inside_counterexample :
  let NP := Posix.npath root_process in
  (Posix.is_name "a" = true
   /\ @inside_of NP (@joined NP "/" "a") "/" = false)
  /\ (@inside_of NP "/a\b" "/a" = true
      /\ ~ strict_descendant (@absolute_of NP "/a\b") (@absolute_of NP "/a")).
Proof.
  intros NP. split; [split; reflexivity |]. split; [reflexivity |].
  intros Hd. apply strict_descendant_below in Hd as (r & E & _).
  - vm_compute in E. discriminate.
  - vm_compute. discriminate.
Qed.

(** C4, at an input where the code leaves it. The pattern of [relativeTo]
    is not anchored: [/a] is not a prefix of [/x/a/b], yet
    [new Path("/x/a/b").relativeTo("/a")] is not [/x/a/b] but [/xb], the
    first [/a/] having been cut out of the middle. With [/a] as a prefix
    the same call strips it from the front. *)
Theorem relativeTo_cuts_in_the_middle :
  let NP := Posix.npath root_process in
  String.prefix (@absolute_of NP "/a") (@absolute_of NP "/x/a/b") = false
  /\ @relative_of NP "/x/a/b" "/a" = Returns "/xb"
  /\ @relative_of NP "/a/b/c" "/a" = Returns "b/c".
Proof. intros NP. repeat split; reflexivity. Qed.

(** C5. On a resolved graph, [directories] yields nothing for a node that
    is not a directory and nothing for a node without children; for a
    directory with children it yields the node's own path followed by
    [directories] of each child in order. So what it yields are, in
    pre-order, the paths of exactly the directory nodes that have a child,
    and what [files] yields are the paths of exactly the nodes that are not
    directories. *)
Theorem directories_are_the_nonempty_directories :
  forall (NP : NodePath) (node : TreeNode) (h : list string),
    well_built node = true -> in_store node h ->
    (node_isDirectory node = false -> tree_directories node h = ([], h))
    /\ (children_of node = [] -> tree_directories node h = ([], h))
    /\ (node_isDirectory node = true -> children_of node <> [] ->
        strings_of (tree_directories node h)
        = path_in h node
            :: flat_map (fun c => strings_of (tree_directories c h))
                 (children_of node))
    /\ strings_of (tree_directories node h)
       = map (path_in h) (List.filter is_nonempty_directory (subnodes node))
    /\ strings_of (tree_files node h)
       = map (path_in h) (List.filter is_leaf (subnodes node)).
Proof.
  intros NP node h Hb Hin. split; [| split; [| split; [| split]]].
  - destruct node as [p d c]. simpl. now intros ->.
  - destruct node as [p d [cs |]]; unfold children_of; simpl.
    + intros ->. simpl. now rewrite orb_true_r.
    + intros _. now rewrite orb_true_r.
  - destruct node as [p d [cs |]]; unfold children_of; simpl node_children;
      [| congruence].
    simpl node_isDirectory. intros -> Hne.
    rewrite (clones_strings _ _ _ _ (tree_directories_clones _ Hb) Hin).
    apply well_built_children in Hb as (_ & _ & Hcs).
    apply in_store_children in Hin as [_ Hins].
    cbn [nonempty_directory_paths path_in node_path].
    replace (Nat.eqb (length cs) 0) with false
      by (destruct cs; [congruence | reflexivity]).
    cbn [andb negb app]. f_equal. apply flat_map_pointwise.
    rewrite List.Forall_forall in *. intros c Hc. symmetry.
    apply clones_strings; [apply tree_directories_clones |]; auto.
  - rewrite (clones_strings _ _ _ _ (tree_directories_clones _ Hb) Hin).
    apply nonempty_directory_paths_subnodes.
  - rewrite (clones_strings _ _ _ _ (tree_files_clones _ Hb) Hin).
    apply leaf_paths_subnodes.
Qed.

Lemma directories_are_the_nonempty_directories_witness :
  let NP := Posix.npath root_process in
  strings_of (tree_directories scenario_node scenario_store) = ["/a"]
  /\ strings_of (tree_files scenario_node scenario_store) = ["/a/x.txt"].
Proof.
  intros NP.
  destruct (directories_are_the_nonempty_directories NP scenario_node
              scenario_store eq_refl scenario_node_in_store)
    as (_ & _ & _ & Hd & Hf).
  split; [exact Hd | exact Hf].
Defined.

(** C6, as the code has it. On the scenario, [FS.tree("/a")] returns the
    directory [/a] with the two children [x.txt], a file, and [y], a
    directory without children, in that order; [flatten] yields [/a],
    [/a/x.txt], [/a/y], [files] yields [/a/x.txt], and [directories]
    yields [/a]: the root, a directory with children, is included, and the
    empty directory [/a/y] is excluded. *)
Theorem scenario_directories_is_the_root :
  forall (pr : Posix.process) (sched : Scheduler) (fuel : nat),
    let NP := Posix.npath pr in
    2 <= fuel ->
    FS_tree scenario_storage sched fuel (Raw "/a") []
    = Returns (scenario_node, scenario_store)
    /\ strings_of (tree_flatten scenario_node scenario_store)
       = ["/a"; "/a/x.txt"; "/a/y"]
    /\ strings_of (tree_files scenario_node scenario_store) = ["/a/x.txt"]
    /\ strings_of (tree_directories scenario_node scenario_store) = ["/a"].
Proof.
  intros pr sched fuel NP Hfuel.
  destruct fuel as [|[|k]]; [lia | lia |].
  repeat split; vm_compute; reflexivity.
Qed.

Lemma scenario_directories_is_the_root_witness :
  let NP := Posix.npath root_process in
  strings_of (tree_directories scenario_node scenario_store) = ["/a"].
Proof.
  intros NP.
  apply (scenario_directories_is_the_root root_process in_order 2).
  lia.
Defined.

(** C6 fails as stated: on the scenario [directories] of the resolved root
    is not empty. *)
Lemma scenario_directories_not_empty :
  let NP := Posix.npath root_process in
  ~ (forall node h,
        FS_tree scenario_storage in_order 2 (Raw "/a") [] = Returns (node, h) ->
        strings_of (tree_directories node h) = []).
Proof.
  intros NP H. specialize (H scenario_node scenario_store eq_refl).
  vm_compute in H. discriminate.
Qed.

(** C7, at an input where the code leaves it. The base name is pasted into
    the pattern of [pop] as it is, and so is the absolute form into the
    pattern of [relativeTo]: on a path with an opening parenthesis
    [new RegExp] throws a [SyntaxError], and so does the call. *)
Theorem pop_throws_on_a_parenthesis :
  let NP := Posix.npath root_process in
  @popped NP "a(" = Throws (SyntaxError "[/\\]{0,1}a($")
  /\ @relative_of NP "/b" "/a(" = Throws (SyntaxError "/a([/\\]").
Proof. intros NP. split; reflexivity. Qed.

(** C8, as the code has it. On [path.posix], joining is associative
    whenever the middle path is not empty and not absolute: for all [a] and
    [c] and every such [b], [join(join(a, b), c)] and [join(a, join(b, c))]
    are the same string, and so are their normalized forms, for [append]
    and for [postfix]. *)
Theorem join_associative_on_a_relative_middle :
  forall (pr : Posix.process) (a b c : string),
    let NP := Posix.npath pr in
    b <> "" -> Posix.isAbsolute b = false ->
    @joined NP (@joined NP a b) c = @joined NP a (@joined NP b c)
    /\ Posix.normalize (@joined NP (@joined NP a b) c)
       = Posix.normalize (@joined NP a (@joined NP b c))
    /\ @postfixed NP (@postfixed NP a b) c = @postfixed NP a (@postfixed NP b c)
    /\ Posix.normalize (@postfixed NP (@postfixed NP a b) c)
       = Posix.normalize (@postfixed NP a (@postfixed NP b c)).
Proof.
  intros pr a b c NP Hb Hrel.
  assert (E : Posix.join [Posix.join [a; b]; c]
              = Posix.join [a; Posix.join [b; c]])
    by now apply PosixFacts.join_assoc.
  change (Posix.join [Posix.join [a; b]; c]) with
    (@joined NP (@joined NP a b) c) in E.
  change (Posix.join [a; Posix.join [b; c]]) with
    (@joined NP a (@joined NP b c)) in E.
  repeat split; try exact E; try exact (f_equal Posix.normalize E).
Qed.

Lemma join_associative_on_a_relative_middle_witness :
  let NP := Posix.npath home_process in
  @joined NP (@joined NP "/srv/" "../a") "./b/"
  = @joined NP "/srv/" (@joined NP "../a" "./b/").
Proof.
  intros NP.
  apply (join_associative_on_a_relative_middle home_process
           "/srv/" "../a" "./b/").
  - discriminate.
  - reflexivity.
Defined.

(** C8 fails as stated: with [a] and [b] empty and [c] absolute, joining
    from the left gives the relative [x] and joining from the right the
    absolute [/x]; with the absolute [b = /..], the two sides are [b] and
    [a/b]. *)
Lemma join_not_associative :
  let NP := Posix.npath root_process in
  Posix.normalize (@joined NP (@joined NP "" "") "/x")
  <> Posix.normalize (@joined NP "" (@joined NP "" "/x"))
  /\ Posix.normalize (@joined NP (@joined NP "a" "/..") "b")
     <> Posix.normalize (@joined NP "a" (@joined NP "/.." "b")).
Proof. intros NP. split; vm_compute; discriminate. Qed.

(** C9. In every graph [FS.tree] returns, on any platform and storage,
    every [Path] of the graph is an object of the store, a node that is not
    a directory has no [children], [children] is never the empty sequence,
    and a directory whose listing is empty has no [children]. For the three traversals an absent [children] and an empty
    one are the same, at the root and anywhere below it. *)
Theorem resolved_children_invariant :
  (forall (NP : NodePath) (st : Storage) (sched : Scheduler) (fuel : nat)
          (root : path_like) (h0 : list string) (node : TreeNode)
          (h : list string),
      path_like_in root h0 ->
      FS_tree st sched fuel root h0 = Returns (node, h) ->
      in_store node h /\ well_built node = true
      /\ Forall (fun m =>
                   (node_isDirectory m = false -> node_children m = None)
                   /\ node_children m <> Some []
                   /\ (node_isDirectory m = true ->
                       nfs_readdir st (Path_absolute (node_path m) h)
                       = Some [] ->
                       node_children m = None))
           (subnodes node))
  /\ (forall (NP : NodePath) (n : TreeNode) (h : list string),
         tree_flatten (absent_as_empty n) h = tree_flatten n h
         /\ tree_files (absent_as_empty n) h = tree_files n h
         /\ tree_directories (absent_as_empty n) h = tree_directories n h)
  /\ (forall (NP : NodePath) (p : nat) (d : bool) (h : list string),
         tree_flatten (Node p d (Some [])) h = tree_flatten (Node p d None) h
         /\ tree_files (Node p d (Some [])) h = tree_files (Node p d None) h
         /\ tree_directories (Node p d (Some [])) h
            = tree_directories (Node p d None) h).
Proof.
  split; [| split].
  - intros NP st sched fuel root h0 node h Hv E.
    destruct (FS_tree_built st sched fuel root h0 node h Hv E)
      as [_ (Hin & Hb & Hag)].
    split; [exact Hin |]. split; [exact Hb |].
    apply well_built_subnodes in Hb. unfold agrees in Hag.
    rewrite List.Forall_forall in *. intros m Hm.
    specialize (Hb m Hm). specialize (Hag m Hm).
    unfold listed in Hag.
    destruct m as [p d [cs |]];
      cbn [node_isDirectory node_children node_path well_built] in *.
    + apply andb_true_iff in Hb as [[Hd Hl]%andb_true_iff _].
      repeat split.
      * intros ->. discriminate.
      * intros [= ->]. discriminate.
      * intros _ Hr. destruct (Hag Hd) as (names & Hn & Hlen).
        rewrite Hr in Hn. injection Hn as <-.
        unfold children_of in Hlen. simpl in Hlen.
        destruct cs; [discriminate | discriminate].
    + repeat split; congruence.
  - intros NP n h. split; [| split].
    + apply tree_flatten_absent.
    + apply tree_files_absent.
    + apply tree_directories_absent.
  - intros NP p d h. split; [| split].
    + apply (tree_flatten_absent (Node p d None)).
    + apply (tree_files_absent (Node p d None)).
    + apply (tree_directories_absent (Node p d None)).
Qed.

Lemma resolved_children_invariant_witness :
  let NP := Posix.npath root_process in
  in_store scenario_node scenario_store /\ well_built scenario_node = true
  /\ Forall (fun m =>
            (node_isDirectory m = false -> node_children m = None)
            /\ node_children m <> Some []
            /\ (node_isDirectory m = true ->
                nfs_readdir scenario_storage
                  (Path_absolute (node_path m) scenario_store) = Some [] ->
                node_children m = None))
    (subnodes scenario_node).
Proof.
  intros NP.
  apply (proj1 resolved_children_invariant NP scenario_storage in_order 2
           (Raw "/a") [] scenario_node scenario_store).
  - exact I.
  - reflexivity.
Defined.

(** C10. What [flatten], [files] and [directories] return on a resolved
    graph are fresh clones: the returned [Path] objects hold, in order, the
    path strings of the nodes they stand for; they are new objects, all
    different, none of them the [Path] of a node; and any sequence of
    [append], [prepend], [pop], [push], [replace], [prefix] and [postfix]
    calls on them leaves every path of the graph as it was. *)
Theorem traversals_return_fresh_clones :
  forall (NP : NodePath) (node : TreeNode) (h : list string),
    well_built node = true -> in_store node h ->
    fresh_clones h node (subnodes node) (tree_flatten node h)
    /\ fresh_clones h node (List.filter is_leaf (subnodes node))
         (tree_files node h)
    /\ fresh_clones h node
         (List.filter is_nonempty_directory (subnodes node))
         (tree_directories node h).
Proof.
  intros NP node h Hb Hin. split; [| split].
  - apply clones_fresh with preorder.
    + now apply tree_flatten_clones.
    + assumption.
    + apply preorder_subnodes.
    + apply incl_refl.
  - apply clones_fresh with leaf_paths.
    + now apply tree_files_clones.
    + assumption.
    + apply leaf_paths_subnodes.
    + apply filter_incl.
  - apply clones_fresh with nonempty_directory_paths.
    + now apply tree_directories_clones.
    + assumption.
    + apply nonempty_directory_paths_subnodes.
    + apply filter_incl.
Qed.

Lemma traversals_return_fresh_clones_witness :
  let NP := Posix.npath root_process in
  fresh_clones scenario_store scenario_node (subnodes scenario_node)
    (tree_flatten scenario_node scenario_store).
Proof.
  intros NP.
  exact (proj1 (traversals_return_fresh_clones NP scenario_node
                  scenario_store eq_refl scenario_node_in_store)).
Defined.

(** * Further properties of the code *)

Section OrderFacts.
Context `{NP : NodePath}.
Import Str StrFacts.

Lemma is_of_abs p q :
  is_of p q = String.eqb (npath_resolve p) (npath_resolve q).
Proof. reflexivity. Qed.

Lemma inside_abs_trans t q r :
  inside_abs t q = true -> inside_abs q r = true -> inside_abs t r = true.
Proof.
  intros [x Hx]%inside_abs_iff [y Hy]%inside_abs_iff.
  apply inside_abs_iff.
  destruct Hy as [-> | ->]; destruct Hx as [-> | ->].
  - exists (y +:+ "/" +:+ x). left. now rewrite !sapp_assoc.
  - exists (y +:+ "\" +:+ x). left. now rewrite !sapp_assoc.
  - exists (y +:+ "/" +:+ x). right. now rewrite !sapp_assoc.
  - exists (y +:+ "\" +:+ x). right. now rewrite !sapp_assoc.
Qed.

Lemma inside_abs_length t q :
  inside_abs t q = true -> String.length q < String.length t.
Proof.
  intros [x [-> | ->]]%inside_abs_iff; rewrite !sapp_length; simpl; lia.
Qed.

Lemma inside_abs_asymmetric t q :
  inside_abs t q = true -> inside_abs q t = false.
Proof.
  intros H%inside_abs_length. destruct (inside_abs q t) eqn:E; [| reflexivity].
  apply inside_abs_length in E. lia.
Qed.

End OrderFacts.

(** X1. On any platform, [is] is an equivalence of paths and [inside] a
    strict order that respects it: [p.is(p)]; [is] is symmetric and
    transitive; a path that is another is not inside it; [inside] is
    asymmetric and transitive; and paths that are each other are inside the
    same paths and have the same paths inside them. *)
Theorem is_and_inside_order :
  forall (NP : NodePath) (p q r : string),
    is_of p p = true
    /\ (is_of p q = true -> is_of q p = true)
    /\ (is_of p q = true -> is_of q r = true -> is_of p r = true)
    /\ (is_of p q = true -> inside_of p q = false)
    /\ (inside_of p q = true -> inside_of q p = false)
    /\ (inside_of p q = true -> inside_of q r = true -> inside_of p r = true)
    /\ (is_of p q = true ->
        inside_of p r = inside_of q r /\ inside_of r p = inside_of r q).
Proof.
  intros NP p q r. rewrite !is_of_abs, !inside_of_abs.
  rewrite !String.eqb_eq.
  split; [reflexivity |]. split; [congruence |]. split; [congruence |].
  split; [intros ->; apply inside_abs_irreflexive |].
  split; [apply inside_abs_asymmetric |].
  split; [apply inside_abs_trans |].
  now intros ->.
Qed.

Lemma is_and_inside_order_witness :
  let NP := Posix.npath home_process in
  @is_of NP "docs/../docs" "/home/u/docs" = true
  /\ @inside_of NP "docs/a/b.txt" "docs" = true
  /\ @inside_of NP "docs/../docs" "docs/a/b.txt" = false.
Proof.
  intros NP.
  destruct (is_and_inside_order NP "docs/a/b.txt" "docs/a" "docs")
    as (_ & _ & _ & _ & _ & Htrans & _).
  destruct (is_and_inside_order NP "docs/a/b.txt" "docs" "docs")
    as (_ & _ & _ & _ & Hasym & _).
  destruct (is_and_inside_order NP "docs/../docs" "docs" "docs/a/b.txt")
    as (_ & Hsym & _ & _ & _ & _ & Hcongr).
  assert (H : @inside_of NP "docs/a/b.txt" "docs" = true)
    by (apply Htrans; reflexivity).
  split; [reflexivity |]. split; [exact H |].
  destruct (Hcongr eq_refl) as [E _]. rewrite E. exact (Hasym H).
Defined.

Module NormalFacts.
Import Str StrFacts Posix PosixFacts.

Lemma abs_of_render segs : abs_of segs = render true false (rev segs).
Proof.
  unfold abs_of, render. destruct (rev segs) as [|s T] eqn:E.
  - apply (f_equal (@rev _)) in E. rewrite rev_involutive in E. now subst.
  - rewrite <- E, rev_involutive. now rewrite sapp_nil_r.
Qed.

(** a stack of names is rendered in normal form *)
Lemma stack_render a t T :
  Forall (fun n => is_name n = true) T ->
  normalize (render a t T) = render a t T.
Proof.
  intros HT. pose proof (names_kept _ HT) as HK.
  rewrite normalize_render by now apply render_nonempty.
  rewrite isAbsolute_render by assumption.
  unfold segments. rewrite fold_step_render by assumption.
  rewrite fold_step_push by now apply Forall_rev.
  rewrite rev_involutive, app_nil_r.
  rewrite trailing_render by assumption.
  apply render_trailing_irrelevant.
  destruct t; [now left |]. destruct a; [| now left].
  destruct T; [now right | now left].
Qed.

Lemma normalize_abs_of segs :
  Forall (fun n => is_name n = true) segs ->
  normalize (abs_of segs) = abs_of segs.
Proof.
  intros H. rewrite abs_of_render. apply stack_render. now apply Forall_rev.
Qed.

Lemma trailing_abs_of segs :
  Forall (fun n => is_name n = true) segs ->
  segs <> [] -> trailingSeparator (abs_of segs) = false.
Proof.
  intros H Hne. rewrite abs_of_render.
  rewrite trailing_render by now apply names_kept, Forall_rev.
  destruct (rev segs) eqn:E; [| reflexivity].
  apply (f_equal (@rev _)) in E. rewrite rev_involutive in E. now subst.
Qed.

Lemma normalize_join args : normalize (join args) = join args.
Proof.
  unfold join. destruct (List.filter _ args); [reflexivity |].
  apply normalize_idempotent.
Qed.

Lemma abs_segments_normalize (pr : process) p :
  abs_segments (cwd pr) (normalize p) = abs_segments (cwd pr) p.
Proof.
  destruct (String.eqb_spec p "") as [-> | Hp].
  - unfold abs_segments. simpl. now rewrite !fold_left_app.
  - unfold abs_segments. rewrite isAbsolute_normalize by assumption.
    destruct (isAbsolute p) eqn:Ha.
    + rewrite segments_normalize by assumption. rewrite Ha. simpl negb.
      apply segments_stack.
    + rewrite !fold_left_app, segments_normalize by assumption.
      rewrite Ha. simpl negb. unfold segments.
      apply refold, split_all_nosep.
Qed.

Lemma resolve_normalize (pr : process) p :
  resolve (cwd pr) (normalize p) = resolve (cwd pr) p.
Proof. now rewrite !resolve_abs_of, abs_segments_normalize. Qed.

End NormalFacts.

Section CanonicalForm.
Import Str StrFacts Posix PosixFacts NormalFacts.

(** X2. On [path.posix], the absolute form of a path is an absolute path
    in normal form, without a trailing separator unless it is the root; it
    is its own absolute form, so a [Path] made of it [is] the path it came
    from; and normalizing a path does not change its absolute form. *)
Theorem absolute_is_canonical :
  forall (pr : Posix.process) (p : string),
    let NP := Posix.npath pr in
    Posix.isAbsolute (@absolute_of NP p) = true
    /\ Posix.normalize (@absolute_of NP p) = @absolute_of NP p
    /\ (@absolute_of NP p = "/"
        \/ Posix.trailingSeparator (@absolute_of NP p) = false)
    /\ @absolute_of NP (@absolute_of NP p) = @absolute_of NP p
    /\ @is_of NP (@absolute_of NP p) p = true
    /\ @absolute_of NP (Posix.normalize p) = @absolute_of NP p.
Proof.
  intros pr p NP.
  change (@absolute_of NP) with (resolve (cwd pr)).
  pose proof (abs_segments_names pr p) as Hn.
  apply Forall_rev in Hn.
  split; [now rewrite resolve_abs_of |].
  split; [rewrite resolve_abs_of; now apply normalize_abs_of |].
  split.
  { rewrite resolve_abs_of.
    destruct (rev (abs_segments (cwd pr) p)) as [|s T] eqn:E;
      [now left | right].
    rewrite <- E in *. apply trailing_abs_of; [assumption | congruence]. }
  split; [apply resolve_resolve |].
  split; [| apply resolve_normalize].
  rewrite is_of_abs. apply String.eqb_eq.
  apply (resolve_resolve pr p).
Qed.

End CanonicalForm.

Section MoreStoreFacts.
Context `{NP : NodePath}.

Lemma set_path_same a s (h : store) :
  a < length h -> Path_path a (set_path a s h) = s.
Proof.
  intros H. unfold Path_path, set_path.
  now rewrite list_lookup_insert_eq.
Qed.

Lemma set_path_twice a s t (h : store) :
  set_path a s (set_path a t h) = set_path a s h.
Proof. apply list_insert_insert_eq. Qed.

Lemma path_string_set a s p (h : store) :
  p <> Obj a -> path_string p (set_path a s h) = path_string p h.
Proof.
  destruct p as [x | b]; [reflexivity |]. intros H. simpl.
  apply set_path_other. congruence.
Qed.

End MoreStoreFacts.

Module JoinFacts.
Import Str StrFacts Posix PosixFacts NormalFacts.

Lemma nonempty_all args : Forall (fun s => s <> "") (nonempty args).
Proof.
  apply List.Forall_forall. intros x [_ H]%List.filter_In.
  apply negb_true_iff in H. now apply is_empty_false.
Qed.

Lemma join_parts args :
  nonempty args <> [] ->
  join args = normalize (String.concat sep (nonempty args)).
Proof.
  unfold join, nonempty. now destruct (List.filter _ args).
Qed.

(** one more argument: joining what was joined so far with it *)
Lemma join_snoc args y :
  nonempty args <> [] -> join [join args; y] = join (args ++ [y]).
Proof.
  intros Hne. pose proof (nonempty_all args) as Hall.
  pose proof (concat_nonempty sep _ Hne Hall) as Hc.
  rewrite (join_parts args Hne).
  assert (Hn : normalize (String.concat sep (nonempty args)) <> "")
    by apply normalize_nonempty.
  destruct (String.eqb_spec y "") as [-> | Hy].
  - rewrite join_empty_r by assumption. rewrite normalize_idempotent.
    rewrite join_parts; unfold nonempty in *; rewrite List.filter_app;
      simpl; rewrite app_nil_r; [reflexivity | assumption].
  - rewrite join_pair by assumption.
    rewrite normalize_join_l by assumption.
    assert (Hf : nonempty (args ++ [y]) = nonempty args ++ [y]).
    { unfold nonempty. rewrite List.filter_app. simpl.
      apply is_empty_false in Hy. now rewrite Hy. }
    rewrite join_parts; rewrite Hf.
    + now rewrite concat_snoc.
    + intros E. now apply app_eq_nil in E as [E _].
Qed.

Lemma nonempty_app_l args more :
  nonempty args <> [] -> nonempty (args ++ more) <> [].
Proof.
  unfold nonempty. rewrite List.filter_app.
  intros H E. now apply app_eq_nil in E as [E _].
Qed.

Lemma join_fold x0 x xs :
  nonempty [x0; x] <> [] ->
  fold_left (fun s y => join [s; y]) (x :: xs) x0 = join (x0 :: x :: xs).
Proof.
  intros Hne. induction xs as [|y xs IH] using rev_ind; [reflexivity |].
  change (x :: xs ++ [y]) with ((x :: xs) ++ [y]).
  rewrite fold_left_app. cbn [fold_left] in *. rewrite IH.
  rewrite join_snoc; [reflexivity |].
  now apply (nonempty_app_l [x0; x] xs).
Qed.

End JoinFacts.

Section Composition.
Import Str StrFacts Posix PosixFacts NormalFacts JoinFacts.

(** X3. On [path.posix], after [append], [prepend], [push], [prefix] or
    [postfix], with any arguments, the path of the receiver is in normal
    form and is not the empty string. *)
Theorem composition_normalizes :
  forall (pr : Posix.process) (a : nat) (m : mutation) (h : list string),
    let NP := Posix.npath pr in
    a < length h -> joins m = true ->
    exists h',
      @mutate NP a m h = Returns h'
      /\ Posix.normalize (Path_path a h') = Path_path a h'
      /\ Path_path a h' <> "".
Proof.
  intros pr a m h NP Ha Hm.
  assert (Hset : forall args (h1 : list string),
             a < length h1 ->
             normalize (Path_path a (set_path a (join args) h1))
             = Path_path a (set_path a (join args) h1)
             /\ Path_path a (set_path a (join args) h1) <> "").
  { intros args h1 H1. rewrite set_path_same by assumption.
    split; [apply normalize_join | apply join_nonempty]. }
  destruct m as [paths | paths | | path | f | pre | post];
    try discriminate; cbn [mutate]; eexists; (split; [reflexivity |]).
  - apply Hset, Ha.
  - apply Hset, Ha.
  - apply Hset, Ha.
  - unfold Path_prefix. destruct pre as [s | q]; cbn [Path_from Path_new alloc].
    + apply Hset. rewrite length_app. lia.
    + apply Hset, Ha.
  - unfold Path_postfix. destruct post as [s | q]; cbn [Path_from Path_new alloc].
    + apply Hset. rewrite length_app. lia.
    + apply Hset, Ha.
Qed.

Lemma composition_normalizes_witness :
  let NP := Posix.npath home_process in
  exists h',
    @mutate NP 0 (Mappend [Raw "../b/"; Raw "./c"]) ["a//x"] = Returns h'
    /\ Posix.normalize (Path_path 0 h') = Path_path 0 h'
    /\ Path_path 0 h' <> "".
Proof.
  intros NP.
  apply (composition_normalizes home_process 0
           (Mappend [Raw "../b/"; Raw "./c"]) ["a//x"]).
  - simpl. lia.
  - reflexivity.
Defined.

(** X4. On [path.posix], [append] with several arguments does what [push]
    does with one argument after the other, when none of the arguments is
    the receiver itself and the receiver's path or the first argument is
    not the empty string. *)
Theorem append_is_repeated_push :
  forall (pr : Posix.process) (a : nat) (x : path_like)
         (xs : list path_like) (h : list string),
    let NP := Posix.npath pr in
    a < length h ->
    Forall (fun p => p <> Obj a) (x :: xs) ->
    Path_path a h <> "" \/ path_string x h <> "" ->
    @Path_append NP a (x :: xs) h
    = fold_left (fun h' p => @Path_push NP a p h') (x :: xs) h.
Proof.
  intros pr a x xs h NP Ha Hall Hne.
  assert (Hfold : forall (ys : list path_like) (h1 : list string) s,
             Forall (fun p => p <> Obj a) ys ->
             a < length h1 ->
             fold_left (fun h' p => @Path_push NP a p h') ys
               (set_path a s h1)
             = set_path a
                 (fold_left (fun s y => join [s; y])
                    (map (fun p => path_string p h1) ys) s) h1).
  { induction ys as [|y ys IH]; intros h1 s Hys H1; [reflexivity |].
    apply Forall_cons_iff in Hys as [Hy Hys]. cbn [fold_left map].
    unfold Path_push at 2, Path_append. cbn [map].
    rewrite set_path_same by assumption.
    rewrite path_string_set by assumption.
    rewrite set_path_twice. now apply IH. }
  assert (Hid : h = set_path a (Path_path a h) h).
  { unfold set_path, Path_path. destruct (h !! a) as [s |] eqn:E.
    - symmetry. now apply list_insert_id.
    - apply lookup_ge_None in E. lia. }
  rewrite Hid at 2. rewrite Hfold by assumption.
  unfold Path_append. f_equal. cbn [map].
  symmetry. apply join_fold.
  unfold nonempty. cbn [List.filter].
  destruct Hne as [H | H]; apply is_empty_false in H; rewrite H; simpl.
  - congruence.
  - destruct (is_empty (Path_path a h)); simpl; congruence.
Qed.

Lemma append_is_repeated_push_witness :
  let NP := Posix.npath home_process in
  @Path_append NP 0 [Raw "../b"; Obj 1; Raw ""] ["a/"; "/c"]
  = @Path_push NP 0 (Raw "")
      (@Path_push NP 0 (Obj 1) (@Path_push NP 0 (Raw "../b") ["a/"; "/c"])).
Proof.
  intros NP.
  apply (append_is_repeated_push home_process 0 (Raw "../b")
           [Obj 1; Raw ""] ["a/"; "/c"]).
  - simpl. lia.
  - repeat constructor; discriminate.
  - left. discriminate.
Defined.

End Composition.

Module TextFacts.
Import Str StrFacts RegExp Text.

Lemma substring_all s : String.substring 0 (String.length s) s = s.
Proof. induction s as [|c s IH]; simpl; [reflexivity | now rewrite IH]. Qed.

Lemma substring_prefix a b :
  String.substring 0 (String.length a) (a +:+ b) = a.
Proof.
  induction a as [|c a IH].
  - rewrite sapp_nil_l. now destruct b.
  - rewrite sapp_cons. simpl. now rewrite IH.
Qed.

Lemma substring_suffix a b :
  String.substring (String.length a) (String.length b) (a +:+ b) = b.
Proof.
  induction a as [|c a IH].
  - rewrite sapp_nil_l. apply substring_all.
  - rewrite sapp_cons. exact IH.
Qed.

Lemma substring_none n s : String.substring n 0 s = "".
Proof.
  revert s. induction n as [|n IH]; intros s; destruct s; simpl; auto.
Qed.

Lemma ordinary_char c x :
  syntax_char c = false -> In x (list_ascii_of_string "^$\.*+?()[]{}|") ->
  is_char c x = false.
Proof.
  unfold syntax_char, in_chars, is_char. intros H Hx.
  cbn [has_char] in H.
  repeat (apply orb_false_iff in H as [?%Ascii.eqb_neq H]).
  cbn [list_ascii_of_string In] in Hx. apply Ascii.eqb_neq.
  repeat (destruct Hx as [<- | Hx]; [congruence |]). destruct Hx.
Qed.

Lemma plain_char_cases c :
  plain_char c = true -> c = "."%char \/ syntax_char c = false.
Proof.
  unfold plain_char. intros [H | H]%orb_true_iff.
  - right. now apply negb_true_iff.
  - left. now apply Ascii.eqb_eq.
Qed.

Lemma plain_unquantified s rest :
  plain s = true -> unquantified rest = true ->
  unquantified (s +:+ rest) = true.
Proof.
  destruct s as [|c s]; [now rewrite sapp_nil_l |].
  rewrite sapp_cons. simpl. intros [Hc _]%andb_true_iff _.
  destruct (plain_char_cases c Hc) as [-> | Hc']; [reflexivity |].
  rewrite !(ordinary_char c) by (assumption || (simpl; tauto)).
  reflexivity.
Qed.

Lemma quantify_none r s :
  unquantified s = true -> quantify r s = POk (r, s).
Proof.
  destruct s as [|c s]; [reflexivity |]. simpl.
  intros H%negb_true_iff.
  apply orb_false_iff in H as [[[H1 H2]%orb_false_iff H3]%orb_false_iff H4].
  now rewrite H1, H2, H3, H4.
Qed.

Lemma parse_term_plain f c rest :
  plain_char c = true -> unquantified rest = true ->
  parse_term (S f) c rest
  = POk (if Ascii.eqb c "." then AnyChar else Char c, rest).
Proof.
  intros Hc Hr. destruct (plain_char_cases c Hc) as [-> | Hc'].
  - cbn. now apply quantify_none.
  - cbn [parse_term].
    rewrite !(ordinary_char c) by (assumption || (simpl; tauto)).
    cbn [orb]. now apply quantify_none.
Qed.

Lemma parse_literal n : forall rest f,
  plain n = true -> unquantified rest = true ->
  parse_alternative (String.length n + S f) (n +:+ rest)
  = match parse_alternative (S f) rest with
    | POk (r, rest') => POk (literal n r, rest')
    | e => e
    end.
Proof.
  induction n as [|c n IH]; intros rest f Hn Hr.
  - rewrite sapp_nil_l. simpl plus. simpl literal.
    destruct (parse_alternative (S f) rest) as [[r rest'] | |]; reflexivity.
  - simpl in Hn. apply andb_true_iff in Hn as [Hc Hn].
    rewrite sapp_cons. simpl String.length. simpl plus.
    specialize (IH rest f Hn Hr).
    remember (parse_alternative (S f) rest) as R eqn:HR.
    cbn [parse_alternative].
    assert (Hbar : is_char c "|" || is_char c ")" = false).
    { destruct (plain_char_cases c Hc) as [-> | Hc']; [reflexivity |].
      now rewrite !(ordinary_char c) by (assumption || (simpl; tauto)). }
    rewrite Hbar.
    replace (String.length n + S f) with (S (String.length n + f)) by lia.
    rewrite parse_term_plain by (assumption || now apply plain_unquantified).
    replace (S (String.length n + f)) with (String.length n + S f) by lia.
    rewrite IH. destruct R as [[r rest'] | |]; reflexivity.
Qed.

End TextFacts.

Module CompileFacts.
Import Str StrFacts RegExp Text TextFacts.

Lemma unquantified_first s :
  unquantified s = true -> first_is "?" s = false.
Proof.
  destruct s as [|c s]; [reflexivity |]. simpl.
  intros H%negb_true_iff.
  now apply orb_false_iff in H as [[_ H]%orb_false_iff _].
Qed.

Lemma parse_separators f s :
  unquantified s = true ->
  parse_term (S f) "[" ("/\\]{0,1}" +:+ s) = POk (Opt separators, s).
Proof.
  intros Hs. rewrite !sapp_cons, sapp_nil_l.
  cbn. rewrite Nat.sub_0_r, substring_all, (unquantified_first s Hs).
  now destruct s.
Qed.

Lemma parse_pop_pattern n f :
  plain n = true ->
  parse_disjunction (S (S (String.length n + S (S f)))) (pop_pattern n)
  = POk (pop_re n, "").
Proof.
  intros Hn. unfold pop_pattern.
  change "[/\\]{0,1}" with (String "[" "/\\]{0,1}").
  rewrite sapp_cons.
  assert (Hq : unquantified (n +:+ "$") = true)
    by now apply plain_unquantified.
  cbn [parse_disjunction parse_alternative].
  change (is_char "[" "|" || is_char "[" ")") with false. cbv iota.
  replace (String.length n + S (S f)) with (S (String.length n + S f)) by lia.
  rewrite parse_separators by assumption.
  replace (S (String.length n + S f)) with (String.length n + S (S f)) by lia.
  rewrite parse_literal by (assumption || reflexivity).
  reflexivity.
Qed.

Lemma compile_pop n :
  plain n = true -> compile (pop_pattern n) = POk (pop_re n).
Proof.
  intros Hn. unfold compile.
  replace (3 * String.length (pop_pattern n) + 3)
    with (S (S (String.length n + S (S (2 * String.length n + 32))))).
  - now rewrite parse_pop_pattern.
  - unfold pop_pattern. rewrite !sapp_length. simpl. lia.
Qed.

Lemma parse_relativeTo_pattern a f :
  plain a = true ->
  parse_disjunction (S (String.length a + S (S (S f)))) (relativeTo_pattern a)
  = POk (relativeTo_re a, "").
Proof.
  intros Ha. unfold relativeTo_pattern.
  cbn [parse_disjunction].
  rewrite parse_literal by (assumption || reflexivity).
  reflexivity.
Qed.

Lemma compile_relativeTo a :
  plain a = true -> compile (relativeTo_pattern a) = POk (relativeTo_re a).
Proof.
  intros Ha. unfold compile.
  replace (3 * String.length (relativeTo_pattern a) + 3)
    with (S (String.length a + S (S (S (2 * String.length a + 14))))).
  - now rewrite parse_relativeTo_pattern.
  - unfold relativeTo_pattern. rewrite !sapp_length. simpl. lia.
Qed.

End CompileFacts.

Module MatchFacts.
Import Str StrFacts RegExp Text TextFacts.

Lemma agree_length n : forall t,
  agree n t = true -> String.length t = String.length n.
Proof.
  induction n as [|c n IH]; intros [|d t]; simpl; try discriminate.
  - reflexivity.
  - intros [_ H]%andb_true_iff. now rewrite (IH t H).
Qed.

Lemma agree_refl n : plain n = true -> agree n n = true.
Proof.
  induction n as [|c n IH]; [reflexivity |]. simpl.
  intros [Hc Hn]%andb_true_iff. rewrite (IH Hn), andb_true_r.
  destruct (Ascii.eqb_spec c ".") as [-> | _]; [reflexivity |].
  apply Ascii.eqb_refl.
Qed.

(** a literal consumes text that agrees with it, and nothing else *)
Lemma rmatch_literal n K k : forall i t e,
  rmatch (literal n K) i t k = Some e ->
  exists t1 t2,
    t = t1 +:+ t2 /\ agree n t1 = true
    /\ rmatch K (i + String.length n) t2 k = Some e.
Proof.
  induction n as [|c n IH]; intros i t e H.
  - exists "", t. simpl. now rewrite Nat.add_0_r, sapp_nil_l.
  - cbn [literal rmatch] in H. destruct t as [|d t].
    { destruct (Ascii.eqb c "."); discriminate. }
    assert (H' : (if Ascii.eqb c "." then negb (line_terminator d)
                  else is_char d c) = true
                 /\ rmatch (literal n K) (S i) t k = Some e).
    { destruct (Ascii.eqb c "."); cbn [rmatch] in H.
      - destruct (line_terminator d); [discriminate | now split].
      - destruct (is_char d c); [now split | discriminate]. }
    destruct H' as [Hd H'].
    destruct (IH _ _ _ H') as (t1 & t2 & -> & Ha & Hk).
    exists (String d t1), t2. rewrite sapp_cons. simpl agree.
    rewrite Hd, Ha. simpl String.length.
    replace (i + S (String.length n)) with (S i + String.length n) by lia.
    now repeat split.
Qed.

Lemma rmatch_literal_agree n K k : forall i t1 t2,
  agree n t1 = true ->
  rmatch (literal n K) i (t1 +:+ t2) k
  = rmatch K (i + String.length n) t2 k.
Proof.
  induction n as [|c n IH]; intros i [|d t1] t2 Ha; try discriminate.
  - simpl. now rewrite Nat.add_0_r, sapp_nil_l.
  - simpl in Ha. apply andb_true_iff in Ha as [Hd Ha].
    rewrite sapp_cons. cbn [literal rmatch]. simpl String.length.
    replace (i + S (String.length n)) with (S i + String.length n) by lia.
    destruct (Ascii.eqb c "."); cbn [rmatch].
    + apply negb_true_iff in Hd. rewrite Hd. now apply IH.
    + rewrite Hd. now apply IH.
Qed.

Lemma rmatch_end i t k :
  rmatch (Seq Eol Empty) i t k = if is_empty t then k i t else None.
Proof. reflexivity. Qed.

Lemma rmatch_pop_re n i t k :
  rmatch (pop_re n) i t k
  = match
      match t with
      | String d t' =>
          if in_class d ["/"%char; "\"%char]
          then rmatch (literal n (Seq Eol Empty)) (S i) t' k
          else None
      | EmptyString => None
      end
    with
    | Some e => Some e
    | None => rmatch (literal n (Seq Eol Empty)) i t k
    end.
Proof.
  unfold pop_re, separators. cbn [rmatch].
  destruct t as [|d t']; [reflexivity |].
  destruct (in_class d _); [| reflexivity].
  replace (Nat.eqb (S i) i) with false; [reflexivity |].
  symmetry. apply Nat.eqb_neq. lia.
Qed.

(** the pattern of [pop] matches the end of the text only: the name, or a
    separator and the name *)
Lemma pop_re_end n i t k e :
  rmatch (pop_re n) i t k = Some e ->
  agree n t = true
  \/ exists d t', t = String d t' /\ agree n t' = true.
Proof.
  rewrite rmatch_pop_re. intros H.
  assert (Hend : forall j u,
             rmatch (literal n (Seq Eol Empty)) j u k = Some e ->
             agree n u = true).
  { intros j u Hu. apply rmatch_literal in Hu as (t1 & t2 & -> & Ha & Hk).
    rewrite rmatch_end in Hk. destruct t2; [| discriminate].
    now rewrite sapp_nil_r. }
  destruct t as [|d t'].
  - left. now apply (Hend i).
  - destruct (in_class d _).
    + destruct (rmatch _ (S i) t' k) as [e' |] eqn:E.
      * injection H as ->. right. exists d, t'. split; [reflexivity |].
        now apply (Hend (S i)).
      * left. now apply (Hend i).
    + left. now apply (Hend i).
Qed.

Lemma search_skip r u : forall d i,
  (forall d1 c d2, d = d1 +:+ String c d2 ->
     rmatch r (i + String.length d1) (String c d2 +:+ u) matched = None) ->
  search r i (d +:+ u) = search r (i + String.length d) u.
Proof.
  induction d as [|c d IH]; intros i H.
  - simpl. now rewrite Nat.add_0_r, sapp_nil_l.
  - rewrite sapp_cons. cbn [search].
    pose proof (H "" c d eq_refl) as H0.
    simpl in H0. rewrite Nat.add_0_r, sapp_cons in H0.
    change (fun e (_ : string) => Some e) with matched. rewrite H0.
    rewrite IH.
    + simpl. f_equal. lia.
    + intros d1 c' d2 ->. specialize (H (String c d1) c' d2 eq_refl).
      simpl in H. now replace (S i + String.length d1)
        with (i + S (String.length d1)) by lia.
Qed.

Lemma search_here r i t e :
  rmatch r i t matched = Some e -> search r i t = Some (i, e).
Proof.
  intros H. destruct t; cbn [search];
    change (fun e (_ : string) => Some e) with matched; now rewrite H.
Qed.

Lemma search_nowhere r : forall t i,
  (forall d1 d2, t = d1 +:+ d2 ->
     rmatch r (i + String.length d1) d2 matched = None) ->
  search r i t = None.
Proof.
  induction t as [|c t IH]; intros i H.
  - cbn [search]. change (fun e (_ : string) => Some e) with matched.
    pose proof (H "" "" eq_refl) as H0. simpl in H0.
    rewrite Nat.add_0_r in H0. now rewrite H0.
  - cbn [search]. change (fun e (_ : string) => Some e) with matched.
    pose proof (H "" (String c t) eq_refl) as H0. simpl in H0.
    rewrite Nat.add_0_r in H0. rewrite H0. apply IH.
    intros d1 d2 ->. specialize (H (String c d1) d2).
    rewrite sapp_cons in H. specialize (H eq_refl). simpl in H.
    now replace (S i + String.length d1)
      with (i + S (String.length d1)) by lia.
Qed.

End MatchFacts.

Module PopFacts.
Import Str StrFacts RegExp Text TextFacts CompileFacts MatchFacts.
Import Posix PosixFacts.

Lemma literal_whole n i :
  plain n = true ->
  rmatch (literal n (Seq Eol Empty)) i n matched
  = Some (i + String.length n).
Proof.
  intros Hn. rewrite <- (sapp_nil_r n) at 2.
  rewrite rmatch_literal_agree by now apply agree_refl.
  reflexivity.
Qed.

Lemma pop_re_too_long n i t k :
  String.length n + 2 <= String.length t -> rmatch (pop_re n) i t k = None.
Proof.
  intros Hlen. destruct (rmatch (pop_re n) i t k) as [e |] eqn:E;
    [exfalso | reflexivity].
  apply pop_re_end in E as [Ha | (d & t' & -> & Ha)];
    apply agree_length in Ha; simpl in Hlen; lia.
Qed.

(** the name and the separator before it are what [pop] removes *)
Lemma replace_pop_dir d n :
  plain n = true ->
  replace (pop_re n) "" (d +:+ "/" +:+ n) = d.
Proof.
  intros Hn. unfold replace.
  rewrite search_skip.
  2:{ intros d1 c d2 _. apply pop_re_too_long.
      rewrite !sapp_length. simpl. lia. }
  assert (Hm : rmatch (pop_re n) (0 + String.length d) ("/" +:+ n) matched
               = Some (S (String.length d) + String.length n)).
  { rewrite rmatch_pop_re. change ("/" +:+ n) with (String "/" n).
    change (in_class "/" ["/"%char; "\"%char]) with true. cbv iota.
    now rewrite literal_whole. }
  rewrite (search_here _ _ _ _ Hm).
  change (0 + String.length d) with (String.length d).
  rewrite substring_prefix.
  replace (String.length (d +:+ "/" +:+ n)
           - (S (String.length d) + String.length n)) with 0
    by (rewrite !sapp_length; simpl; lia).
  now rewrite substring_none, !sapp_nil_r.
Qed.

Lemma name_first n :
  plain n = true -> nosep n -> n <> "" ->
  exists c n', n = String c n' /\ in_class c ["/"%char; "\"%char] = false.
Proof.
  intros Hp Hs Hne. destruct n as [|c n']; [congruence |].
  exists c, n'. split; [reflexivity |].
  simpl in Hp. apply andb_true_iff in Hp as [Hc _].
  unfold nosep in Hs. simpl in Hs. apply orb_false_iff in Hs as [Hs _].
  unfold in_class, is_char. cbn [existsb]. rewrite Hs. cbn [orb].
  destruct (plain_char_cases c Hc) as [-> | Hc']; [reflexivity |].
  rewrite orb_false_r.
  apply (ordinary_char c "\" Hc'). simpl. tauto.
Qed.

(** a path that is one name pops to the empty string *)
Lemma replace_pop_bare n :
  plain n = true -> nosep n -> n <> "" ->
  replace (pop_re n) "" n = "".
Proof.
  intros Hn Hs Hne. unfold replace.
  assert (Hm : rmatch (pop_re n) 0 n matched = Some (String.length n)).
  { rewrite rmatch_pop_re.
    destruct (name_first n Hn Hs Hne) as (c & n' & E & Hc).
    rewrite E at 1. rewrite Hc. now rewrite literal_whole. }
  rewrite (search_here _ _ _ _ Hm).
  now rewrite Nat.sub_diag, !substring_none.
Qed.

Lemma agree_last n : forall u,
  agree n u = true -> endsWith_char "/" u = true ->
  endsWith_char "/" n = true \/ endsWith_char "." n = true.
Proof.
  induction n as [|c n IH]; intros [|d u] Ha Hu; try discriminate.
  simpl in Ha. apply andb_true_iff in Ha as [Hd Ha].
  destruct n as [|c' n].
  - destruct u; [| discriminate]. simpl in Hu. apply Ascii.eqb_eq in Hu.
    subst d. simpl.
    destruct (Ascii.eqb_spec c ".") as [-> | _]; [now right |].
    left. unfold is_char in Hd. now rewrite Ascii.eqb_sym.
  - destruct u as [|d' u]; [discriminate |].
    change (endsWith_char "/" (String d (String d' u)))
      with (endsWith_char "/" (String d' u)) in Hu.
    exact (IH _ Ha Hu).
Qed.

Lemma suffix_ends x d1 d2 :
  x +:+ "/" = d1 +:+ d2 -> d2 <> "" -> endsWith_char "/" d2 = true.
Proof.
  intros E Hd. rewrite <- (endsWith_char_app "/" d1 d2 Hd), <- E.
  now rewrite endsWith_char_app.
Qed.

(** after a trailing separator the name is not at the end, and [pop]
    removes nothing *)
Lemma replace_pop_trailing n x :
  nosep n -> n <> "" -> endsWith_char "." n = false ->
  replace (pop_re n) "" (x +:+ "/") = x +:+ "/".
Proof.
  intros Hs Hne Hdot. unfold replace. rewrite search_nowhere; [reflexivity |].
  intros d1 d2 E.
  destruct (rmatch (pop_re n) (0 + String.length d1) d2 matched) as [e |] eqn:Em;
    [exfalso | reflexivity].
  assert (Hu : exists u, agree n u = true /\ endsWith_char "/" u = true).
  { apply pop_re_end in Em as [Ha | (d & t' & -> & Ha)].
    - exists d2. split; [assumption |]. apply (suffix_ends x d1); [assumption |].
      intros ->. apply agree_length in Ha. destruct n; [congruence | discriminate].
    - exists t'. split; [assumption |].
      apply (suffix_ends x (d1 +:+ String d "")).
      + rewrite E, sapp_assoc. now rewrite sapp_cons, sapp_nil_l.
      + intros ->. apply agree_length in Ha.
        destruct n; [congruence | discriminate]. }
  destruct Hu as (u & Ha & Hu).
  destruct (agree_last n u Ha Hu) as [H | H]; [| congruence].
  rewrite (has_char_last "/" n Hs) in H. discriminate.
Qed.

(** *** [basename] *)

Lemma last_snoc {A} (l : list A) (x d : A) : List.last (l ++ [x]) d = x.
Proof.
  induction l as [|y l IH]; [reflexivity |].
  simpl. destruct (l ++ [x]) eqn:E; [now destruct l | exact IH].
Qed.

Lemma basename_dir d n :
  nosep n -> n <> "" -> basename (d +:+ "/" +:+ n) = n.
Proof.
  intros Hs Hne. unfold basename.
  rewrite split_app_sep, (split_nosep n Hs), List.filter_app.
  cbn [List.filter]. apply is_empty_false in Hne. rewrite Hne. cbn [negb].
  apply last_snoc.
Qed.

Lemma basename_bare n : nosep n -> n <> "" -> basename n = n.
Proof.
  intros Hs Hne. unfold basename. rewrite (split_nosep n Hs).
  cbn [List.filter]. apply is_empty_false in Hne. now rewrite Hne.
Qed.

Lemma basename_nosep s : nosep (basename s).
Proof.
  unfold basename.
  assert (H : Forall nosep
                (List.filter (fun a => negb (is_empty a)) (split s))).
  { apply List.Forall_forall. intros x [Hx _]%List.filter_In.
    pose proof (split_all_nosep s) as Hall.
    rewrite List.Forall_forall in Hall. now apply Hall. }
  induction H as [|x l Hx Hl IH]; [reflexivity |].
  destruct l; [exact Hx | exact IH].
Qed.

Lemma trailing_snoc s :
  trailingSeparator s = true -> exists x, s = x +:+ "/".
Proof.
  unfold trailingSeparator. induction s as [|c s IH]; [discriminate |].
  destruct s as [|c' s].
  - simpl. intros ->%Ascii.eqb_eq. now exists "".
  - intros H. destruct (IH H) as [x ->]. now exists (String c x).
Qed.

(** the join of a path in normal form and a name is the path, a separator
    and the name *)
Lemma join_name p n :
  normalize p = p -> p <> "." -> trailingSeparator p = false ->
  is_name n = true -> join [p; n] = p +:+ "/" +:+ n.
Proof.
  intros Hnp Hdot Htr Hn.
  pose proof Hn as (Hne & _ & _ & Hsep)%is_name_spec.
  assert (Hp : p <> "") by (intros ->; discriminate).
  assert (Hr : p = render (isAbsolute p) false
                     (segments (negb (isAbsolute p)) p)).
  { rewrite <- Hnp at 1. rewrite normalize_render by assumption.
    now rewrite Htr. }
  rewrite join_pair by assumption.
  rewrite normalize_render by apply sep_app_nonempty.
  rewrite isAbsolute_app, trailing_app, segments_app by assumption.
  rewrite (split_nosep n Hsep). cbn [fold_left].
  rewrite step_name by assumption.
  unfold trailingSeparator at 1. rewrite (has_char_last "/" n Hsep).
  set (a := isAbsolute p) in *.
  set (T := segments (negb a) p) in *.
  enough (Hgoal : render a false (n :: T) = render a false T +:+ "/" +:+ n).
  { rewrite Hgoal. now rewrite <- Hr. }
  clearbody T a. destruct T as [|t T].
  - exfalso. unfold render in Hr. destruct a; subst p;
      [discriminate | congruence].
  - unfold render. cbn [rev]. rewrite (concat_snoc sep (rev T ++ [t]) n).
    + now rewrite !sapp_nil_r, !sapp_assoc.
    + intros H%(f_equal (@length _)). rewrite length_app in H.
      simpl in H. lia.
Qed.

End PopFacts.

Section PopStatements.
Import Str StrFacts RegExp Text TextFacts CompileFacts MatchFacts.
Import Posix PosixFacts PopFacts.

Lemma popped_plain (pr : process) p :
  plain (basename p) = true ->
  @popped (Posix.npath pr) p
  = Returns (replace (pop_re (basename p)) "" p).
Proof.
  intros Hb. unfold popped, Path_pop. cbn [Path_new alloc path_string].
  change (@Path_basename (Posix.npath pr) 0 [p]) with (basename p).
  now rewrite compile_pop.
Qed.

(** X5. On [path.posix], for a name of plain characters (none of the
    characters that are special in a pattern, the dot apart), [pop] on a
    path that ends with a separator and the name leaves what was before
    that separator, and [pop] on the name alone leaves the empty string. *)
Theorem pop_removes_the_last_segment :
  forall (pr : Posix.process) (d n : string),
    let NP := Posix.npath pr in
    Text.plain n = true -> Posix.nosep n -> n <> "" ->
    @popped NP (d +:+ "/" +:+ n) = Returns d
    /\ @popped NP n = Returns "".
Proof.
  intros pr d n NP Hp Hs Hne. subst NP. split.
  - rewrite popped_plain; rewrite basename_dir by assumption;
      [| assumption].
    now rewrite replace_pop_dir.
  - rewrite popped_plain; rewrite basename_bare by assumption;
      [| assumption].
    now rewrite replace_pop_bare.
Qed.

Lemma pop_removes_the_last_segment_witness :
  let NP := Posix.npath home_process in
  @popped NP ("/srv//www" +:+ "/" +:+ "index.html") = Returns "/srv//www"
  /\ @popped NP "index.html" = Returns "".
Proof.
  intros NP.
  apply (pop_removes_the_last_segment home_process "/srv//www" "index.html").
  - reflexivity.
  - reflexivity.
  - discriminate.
Defined.

(** X6. On [path.posix], [pop] changes nothing on a path that ends with a
    separator, when the base name of the path is not empty, is of plain
    characters and does not end with a dot. *)
Theorem pop_keeps_a_trailing_separator :
  forall (pr : Posix.process) (p : string),
    let NP := Posix.npath pr in
    Posix.trailingSeparator p = true ->
    Posix.basename p <> "" ->
    Text.plain (Posix.basename p) = true ->
    Str.endsWith_char "." (Posix.basename p) = false ->
    @popped NP p = Returns p.
Proof.
  intros pr p NP Htr Hne Hp Hdot. subst NP.
  rewrite popped_plain by assumption.
  destruct (trailing_snoc p Htr) as [x ->]. f_equal.
  apply replace_pop_trailing; [apply basename_nosep | assumption..].
Qed.

Lemma pop_keeps_a_trailing_separator_witness :
  let NP := Posix.npath home_process in
  @popped NP "/srv/www/" = Returns "/srv/www/".
Proof.
  intros NP.
  apply (pop_keeps_a_trailing_separator home_process "/srv/www/").
  - reflexivity.
  - discriminate.
  - reflexivity.
  - reflexivity.
Defined.

(** X7. On [path.posix], [push] of a name of plain characters and then
    [pop] gives back the path, when the path is in normal form, is not
    ["."] and does not end with a separator. *)
Theorem push_then_pop :
  forall (pr : Posix.process) (p n : string),
    let NP := Posix.npath pr in
    Posix.normalize p = p -> p <> "." ->
    Posix.trailingSeparator p = false ->
    Posix.is_name n = true -> Text.plain n = true ->
    @joined NP p n = p +:+ "/" +:+ n
    /\ @popped NP (@joined NP p n) = Returns p.
Proof.
  intros pr p n NP Hnp Hdot Htr Hn Hp.
  pose proof Hn as (Hne & _ & _ & Hsep)%is_name_spec.
  assert (E : @joined NP p n = p +:+ "/" +:+ n).
  { rewrite joined_join. now apply join_name. }
  split; [exact E |]. rewrite E. subst NP.
  rewrite popped_plain; rewrite basename_dir by assumption; [| assumption].
  now rewrite replace_pop_dir.
Qed.

Lemma push_then_pop_witness :
  let NP := Posix.npath home_process in
  @popped NP (@joined NP "../srv/www" "index.html") = Returns "../srv/www".
Proof.
  intros NP.
  apply (push_then_pop home_process "../srv/www" "index.html");
    reflexivity || discriminate.
Defined.

End PopStatements.

Module RelativeFacts.
Import Str StrFacts RegExp Text TextFacts CompileFacts MatchFacts.
Import Posix PosixFacts NormalFacts.

(** the directory and the separator after it are what [relativeTo]
    removes from the front *)
Lemma replace_relativeTo a c rest :
  plain a = true -> in_class c ["/"%char; "\"%char] = true ->
  replace (relativeTo_re a) "" (a +:+ String c rest) = rest.
Proof.
  intros Ha Hc. unfold replace.
  assert (Hm : rmatch (relativeTo_re a) 0 (a +:+ String c rest) matched
               = Some (S (String.length a))).
  { unfold relativeTo_re.
    rewrite rmatch_literal_agree by now apply agree_refl.
    unfold separators. cbn [rmatch]. now rewrite Hc. }
  rewrite (search_here _ _ _ _ Hm). rewrite substring_none, !sapp_nil_l.
  replace (a +:+ String c rest) with ((a +:+ String c "") +:+ rest)
    by now rewrite sapp_assoc.
  replace (S (String.length a)) with (String.length (a +:+ String c ""))
    by (rewrite sapp_length; simpl; lia).
  replace (String.length ((a +:+ String c "") +:+ rest)
           - String.length (a +:+ String c ""))
    with (String.length rest) by (rewrite (sapp_length (_ +:+ _)); lia).
  apply substring_suffix.
Qed.

Lemma split_abs_of_names segs :
  Forall (fun s => is_name s = true) segs -> segs <> [] ->
  split (abs_of segs) = "" :: segs.
Proof.
  intros Hs Hne. unfold abs_of. change ("/" +:+ ?x) with (String "/" x).
  rewrite split_cons_sep, split_concat; [reflexivity | assumption |].
  eapply Forall_impl; [exact Hs |]. intros x Hx. now apply kept_nosep, name_kept.
Qed.

(** in an absolute path in normal form, what follows a separator is not
    empty and does not start with a separator *)
Lemma abs_of_tail segs x y :
  Forall (fun s => is_name s = true) segs ->
  abs_of segs = x +:+ "/" +:+ y -> x <> "" ->
  y <> "" /\ isAbsolute y = false.
Proof.
  intros Hs E Hx.
  assert (Hne : segs <> []).
  { intros ->. apply (f_equal String.length) in E.
    rewrite !sapp_length in E. simpl in E. destruct x; [congruence |].
    simpl in E. lia. }
  split.
  - intros ->. pose proof (trailing_abs_of segs Hs Hne) as Ht.
    rewrite E in Ht. unfold trailingSeparator in Ht.
    rewrite endsWith_char_app in Ht by discriminate. discriminate.
  - destruct y as [|c y]; [reflexivity |]. simpl.
    destruct (Ascii.eqb_spec c "/") as [-> | _]; [exfalso | reflexivity].
    apply (f_equal split) in E.
    rewrite split_abs_of_names, split_app_sep, split_cons_sep in E
      by assumption.
    destruct (split x) as [|x0 X] eqn:Ex; [now apply split_not_nil in Ex |].
    injection E as _ E. rewrite E in Hs.
    apply Forall_app in Hs as [_ Hs]. apply Forall_cons_iff in Hs as [Hs _].
    discriminate.
Qed.

(** the absolute form of a join: the segments of the tail, from those of
    the head *)
Lemma abs_segments_join_tail (pr : process) q y :
  y <> "" -> q <> "" \/ isAbsolute y = false ->
  abs_segments (cwd pr) (join [q; y])
  = fold_left (step false) (split y) (abs_segments (cwd pr) q).
Proof.
  intros Hy Hq. destruct (String.eqb_spec q "") as [-> | Hne].
  - destruct Hq as [Hq | Hrel]; [congruence |].
    rewrite join_empty_l, abs_segments_normalize by assumption.
    unfold abs_segments. rewrite Hrel. simpl isAbsolute. cbv iota.
    rewrite !fold_left_app. reflexivity.
  - rewrite join_pair, abs_segments_normalize by assumption.
    unfold abs_segments. rewrite isAbsolute_app by assumption.
    rewrite split_app_sep.
    destruct (isAbsolute q); now rewrite !fold_left_app.
Qed.

Lemma resolve_join_tail (pr : process) q y :
  y <> "" -> q <> "" \/ isAbsolute y = false ->
  resolve (cwd pr) (join [q; y])
  = resolve (cwd pr) (resolve (cwd pr) q +:+ "/" +:+ y).
Proof.
  intros Hy Hq. rewrite (resolve_abs_of pr (join _)).
  rewrite abs_segments_join_tail by assumption.
  rewrite (resolve_abs_of pr (_ +:+ _)). do 2 f_equal.
  unfold abs_segments at 2.
  rewrite isAbsolute_app by (rewrite resolve_abs_of; discriminate).
  rewrite (resolve_abs_of pr q) at 1.
  change (isAbsolute (abs_of ?s)) with true. cbv iota.
  rewrite split_app_sep, fold_left_app. f_equal.
  rewrite resolve_abs_of, split_abs_of by apply Forall_rev, abs_segments_names.
  now rewrite rev_involutive.
Qed.

End RelativeFacts.

Section RelativeStatements.
Import Str StrFacts RegExp Text TextFacts CompileFacts MatchFacts.
Import Posix PosixFacts NormalFacts RelativeFacts.

(** X8. On [path.posix], when [p] is inside [q] and the absolute form of
    [q] is of plain characters, [p.relativeTo(q)] is what follows the
    absolute form of [q] and the separator in the absolute form of [p];
    and when that separator is ["/"], appending the result to [q] gives a
    path that is [p]. *)
Theorem relativeTo_inside :
  forall (pr : Posix.process) (p q : string),
    let NP := Posix.npath pr in
    Text.plain (@absolute_of NP q) = true ->
    @inside_of NP p q = true ->
    exists rest,
      @relative_of NP p q = Returns rest
      /\ (@absolute_of NP p = @absolute_of NP q +:+ "/" +:+ rest
          \/ @absolute_of NP p = @absolute_of NP q +:+ "\" +:+ rest)
      /\ (@absolute_of NP p = @absolute_of NP q +:+ "/" +:+ rest ->
          @is_of NP (@joined NP q rest) p = true).
Proof.
  intros pr p q NP Hq Hin.
  rewrite inside_of_abs in Hin. apply inside_abs_iff in Hin as [rest Hin].
  change (@absolute_of NP) with (resolve (cwd pr)) in *.
  change (@npath_resolve NP) with (resolve (cwd pr)) in *.
  exists rest. split; [| split; [exact Hin |]].
  - unfold relative_of, Path_relativeTo.
    cbn [Path_new Path_from alloc path_string app length].
    change (@Path_absolute NP 1 [p; q]) with (resolve (cwd pr) q).
    change (@Path_absolute NP 0 [p; q]) with (resolve (cwd pr) p).
    rewrite compile_relativeTo by assumption. cbn [Path_from Path_new alloc].
    unfold Path_path. cbn [path_string app length]. simpl lookup. f_equal.
    destruct Hin as [-> | ->]; now apply replace_relativeTo.
  - intros E. rewrite is_of_abs, joined_join. apply String.eqb_eq.
    change (@npath_resolve NP) with (resolve (cwd pr)).
    change (@npath_join NP) with join.
    assert (Ht : rest <> "" /\ isAbsolute rest = false).
    { rewrite (resolve_abs_of pr p) in E.
      eapply abs_of_tail; [| exact E |].
      - apply Forall_rev, abs_segments_names.
      - rewrite resolve_abs_of. discriminate. }
    destruct Ht as [Hne Hrel].
    rewrite resolve_join_tail by auto.
    rewrite <- E. apply resolve_resolve.
Qed.

Lemma relativeTo_inside_witness :
  let NP := Posix.npath home_process in
  exists rest,
    @relative_of NP "docs/v1.2/a.txt" "docs" = Returns rest
    /\ @is_of NP (@joined NP "docs" rest) "docs/v1.2/a.txt" = true.
Proof.
  intros NP.
  destruct (relativeTo_inside home_process "docs/v1.2/a.txt" "docs"
              eq_refl eq_refl) as (rest & Hr & Ha & Hj).
  exists rest. split; [exact Hr |]. apply Hj.
  destruct Ha as [Ha | Ha]; [exact Ha |].
  exfalso. apply (f_equal (String.get 12)) in Ha.
  vm_compute in Ha. discriminate.
Defined.

End RelativeStatements.

Section ListingFacts.
Variable pr : Posix.process.
Variable st : Storage.
Import Str StrFacts Posix PosixFacts NormalFacts PopFacts.

#[local] Instance posix_listing : NodePath := Posix.npath pr.

(** [FS.stat] and [FS.ls] on [path.posix], in full *)
Lemma FS_stat_posix (path : path_like) (h : store) :
  path_like_in path h ->
  FS_stat st path h
  = let abs := resolve (cwd pr) (path_string path h) in
    let h1 := snd (Path_from path h) in
    if nfs_access st abs then
      match nfs_stat st abs with
      | Some stat => Returns (stat, h1 ++ [abs])
      | None => Throws (Native "stat" abs)
      end
    else Throws (NotAccessible abs).
Proof.
  intros Hv. destruct (Path_from_spec path h Hv) as (a & h1 & Ef & Ha & Hp & _).
  assert (E : FS_stat st path h = FS_stat st (Obj a) h1).
  { unfold FS_stat. now rewrite Ef. }
  rewrite E, FS_stat_Obj, Ef. cbv zeta. cbn [snd].
  unfold Path_absolute. rewrite Hp.
  change (@npath_resolve posix_listing) with (resolve (cwd pr)).
  now rewrite resolve_resolve.
Qed.

Lemma FS_ls_posix (path : path_like) (h : store) :
  path_like_in path h ->
  FS_ls st path h
  = let abs := resolve (cwd pr) (path_string path h) in
    let h1 := snd (Path_from path h) in
    if nfs_access st abs then
      match nfs_stat st abs with
      | Some stat =>
          if stats_isDirectory stat then
            match nfs_readdir st abs with
            | Some names =>
                Returns (seq (S (length h1)) (length names),
                         (h1 ++ [abs])
                           ++ map (fun n => join [path_string path h; n]) names)
            | None => Throws (Native "readdir" abs)
            end
          else Throws (NotADirectory abs)
      | None => Throws (Native "stat" abs)
      end
    else Throws (NotAccessible abs).
Proof.
  intros Hv. destruct (Path_from_spec path h Hv) as (a & h1 & Ef & Ha & Hp & _).
  unfold FS_ls. rewrite Ef. cbv zeta. cbn [snd].
  rewrite (FS_stat_posix (Obj a) h1 Ha). cbv zeta. cbn [Path_from snd path_string].
  rewrite Hp.
  destruct (nfs_access st _); [| reflexivity].
  destruct (nfs_stat st _) as [stat |]; [| reflexivity].
  assert (Habs : Path_absolute a (h1 ++ [resolve (cwd pr) (path_string path h)])
                 = resolve (cwd pr) (path_string path h)).
  { unfold Path_absolute. now rewrite Path_path_app_l, Hp. }
  rewrite Habs. destruct (stats_isDirectory stat); [| reflexivity].
  cbn [negb]. destruct (nfs_readdir st _) as [names |]; [| reflexivity].
  rewrite ls_subpaths_spec by (rewrite length_app; simpl; lia).
  rewrite length_app. simpl length. rewrite Nat.add_1_r.
  now rewrite Path_path_app_l, Hp.
Qed.

(** the base name of a listed entry is its name *)
Lemma basename_render a n T :
  Forall kept (n :: T) -> basename (render a false (n :: T)) = n.
Proof.
  intros HK. unfold render, basename.
  assert (HK' : Forall kept (rev T ++ [n])).
  { apply Forall_app. apply Forall_cons_iff in HK as [Hn HT].
    split; [now apply Forall_rev | now constructor]. }
  assert (Hne : rev T ++ [n] <> []).
  { intros H%(f_equal (@length _)). rewrite length_app in H. simpl in H. lia. }
  assert (Hsp : split (String.concat sep (rev T ++ [n])) = rev T ++ [n]).
  { apply split_concat; [assumption |].
    eapply Forall_impl; [exact HK' | apply kept_nosep]. }
  assert (Hn : negb (is_empty n) = true).
  { apply negb_true_iff, is_empty_false, kept_nonempty.
    now apply Forall_cons_iff in HK as [Hn _]. }
  cbn [rev]. rewrite sapp_nil_r.
  destruct a; rewrite ?sapp_nil_l.
  - change ("/" +:+ ?x) with (String "/" x). rewrite split_cons_sep, Hsp.
    cbn [List.filter is_empty negb]. rewrite List.filter_app.
    cbn [List.filter]. rewrite Hn. apply last_snoc.
  - rewrite Hsp, List.filter_app. cbn [List.filter]. rewrite Hn.
    apply last_snoc.
Qed.

Lemma basename_join p n :
  is_name n = true -> basename (join [p; n]) = n.
Proof.
  intros Hn. pose proof Hn as (Hne & _ & _ & Hsep)%is_name_spec.
  destruct (String.eqb_spec p "") as [-> | Hp].
  - rewrite join_empty_l, normalize_name by assumption.
    now apply basename_bare.
  - rewrite join_pair by assumption.
    rewrite normalize_render by apply sep_app_nonempty.
    rewrite trailing_app, segments_app by assumption.
    rewrite (split_nosep n Hsep). cbn [fold_left].
    rewrite step_name by assumption.
    unfold trailingSeparator. rewrite (has_char_last "/" n Hsep).
    apply basename_render. constructor; [now left | apply segments_kept].
Qed.

Lemma child_abs_inside a n :
  a <> "/" -> inside_abs (child_abs a n) a = true.
Proof.
  intros Ha. unfold child_abs. apply String.eqb_neq in Ha. rewrite Ha.
  apply inside_abs_iff. exists n. now left.
Qed.

End ListingFacts.

Section ListingStatements.
Import Str StrFacts Posix PosixFacts NormalFacts PopFacts.

(** X9. On [path.posix], [FS.ls] rejects in this order: with the error of
    [FS.stat] naming the absolute path when the path is not accessible;
    with the rejection of [nfs.stat] when that rejects; with its own error
    naming the absolute path when the path is not a directory; with the
    rejection of [nfs.readdir] when that rejects. *)
Theorem ls_rejections :
  forall (pr : Posix.process) (st : Storage) (path : path_like)
         (h : list string),
    let NP := Posix.npath pr in
    let abs := Posix.resolve (Posix.cwd pr) (path_string path h) in
    path_like_in path h ->
    (nfs_access st abs = false ->
     FS_ls st path h = Throws (NotAccessible abs))
    /\ (nfs_access st abs = true -> nfs_stat st abs = None ->
        FS_ls st path h = Throws (Native "stat" abs))
    /\ (forall s, nfs_access st abs = true -> nfs_stat st abs = Some s ->
          stats_isDirectory s = false ->
          FS_ls st path h = Throws (NotADirectory abs))
    /\ (forall s, nfs_access st abs = true -> nfs_stat st abs = Some s ->
          stats_isDirectory s = true -> nfs_readdir st abs = None ->
          FS_ls st path h = Throws (Native "readdir" abs)).
Proof.
  intros pr st path h NP abs Hv.
  pose proof (FS_ls_posix pr st path h Hv) as E. cbv zeta in E. fold abs in E.
  change (posix_listing pr) with NP in E.
  repeat split.
  - intros Ha. now rewrite E, Ha.
  - intros Ha Hs. now rewrite E, Ha, Hs.
  - intros s Ha Hs Hd. now rewrite E, Ha, Hs, Hd.
  - intros s Ha Hs Hd Hr. now rewrite E, Ha, Hs, Hd, Hr.
Qed.

Lemma ls_rejections_witness :
  let NP := Posix.npath home_process in
  FS_ls scenario_storage (Raw "/b") [] = Throws (NotAccessible "/b")
  /\ FS_ls scenario_storage (Raw "/a/x.txt") []
     = Throws (NotADirectory "/a/x.txt").
Proof.
  intros NP. split.
  - apply (proj1 (ls_rejections home_process scenario_storage (Raw "/b") [] I)).
    reflexivity.
  - apply (proj1 (proj2 (proj2 (ls_rejections home_process scenario_storage
                                  (Raw "/a/x.txt") [] I)))
             {| stats_isDirectory := false |}); reflexivity.
Defined.

(** X10. On [path.posix], [FS.ls] of an accessible directory returns one
    new [Path] for each name of the listing, in listing order, holding the
    join of the given path and the name, and changes no [Path] that
    existed. When the listing holds names, the base name of each returned
    path is its name, its absolute form is the directory's followed by a
    separator and the name, and, unless the directory is the root, it is
    inside the directory. *)
Theorem ls_lists_the_entries :
  forall (pr : Posix.process) (st : Storage) (path : path_like)
         (h : list string) (s : Stats) (names : list string),
    let NP := Posix.npath pr in
    let abs := Posix.resolve (Posix.cwd pr) (path_string path h) in
    path_like_in path h ->
    nfs_access st abs = true -> nfs_stat st abs = Some s ->
    stats_isDirectory s = true -> nfs_readdir st abs = Some names ->
    exists subpaths h',
      FS_ls st path h = Returns (subpaths, h')
      /\ h `prefix_of` h'
      /\ NoDup subpaths
      /\ Forall (fun c => length h <= c < length h') subpaths
      /\ map (fun c => Path_path c h') subpaths
         = map (fun n => Posix.join [path_string path h; n]) names
      /\ (Forall (fun n => Posix.is_name n = true) names ->
          map (fun c => Path_basename c h') subpaths = names
          /\ map (fun c => Path_absolute c h') subpaths
             = map (Posix.child_abs abs) names
          /\ (abs <> "/" ->
              Forall (fun c => inside_abs (Path_absolute c h') abs = true)
                subpaths)).
Proof.
  intros pr st path h s names NP abs Hv Ha Hs Hd Hr.
  pose proof (FS_ls_posix pr st path h Hv) as E. cbv zeta in E. fold abs in E.
  change (posix_listing pr) with NP in E.
  rewrite Ha, Hs, Hd, Hr in E.
  destruct (Path_from_spec path h Hv) as (a & h1 & Ef & Hlt & Hp & Hpre).
  rewrite Ef in E. cbn [snd] in E.
  set (joins := map (fun n => join [path_string path h; n]) names) in *.
  set (h2 := h1 ++ [abs]) in *.
  assert (Hlen : length h2 = S (length h1))
    by (unfold h2; rewrite length_app; simpl; lia).
  rewrite <- Hlen in E.
  replace (length names) with (length joins) in E
    by (unfold joins; apply length_map).
  assert (Hstr : map (fun c => Path_path c (h2 ++ joins))
                   (seq (length h2) (length joins)) = joins)
    by apply (strings_of_clones h2 joins).
  exists (seq (length h2) (length joins)), (h2 ++ joins).
  split; [exact E |]. split.
  { transitivity h1; [assumption |]. unfold h2. rewrite <- app_assoc.
    now apply prefix_app_r. }
  split; [apply NoDup_seq |]. split.
  { apply List.Forall_forall. intros c Hc%in_seq.
    apply list.prefix_length in Hpre. rewrite length_app. lia. }
  split; [exact Hstr |].
  intros Hnames.
  assert (Hb : map (fun c => Path_basename c (h2 ++ joins))
                 (seq (length h2) (length joins)) = names).
  { unfold Path_basename.
    rewrite <- (map_map (fun c => Path_path c (h2 ++ joins)) npath_basename).
    rewrite Hstr. unfold joins. rewrite map_map.
    rewrite <- (map_id names) at 2. apply map_ext_in. intros n Hn.
    rewrite List.Forall_forall in Hnames. now apply basename_join, Hnames. }
  assert (Hab : map (fun c => Path_absolute c (h2 ++ joins))
                  (seq (length h2) (length joins))
                = map (child_abs abs) names).
  { unfold Path_absolute.
    rewrite <- (map_map (fun c => Path_path c (h2 ++ joins)) npath_resolve).
    rewrite Hstr. unfold joins. rewrite map_map.
    apply map_ext_in. intros n Hn.
    rewrite List.Forall_forall in Hnames.
    now apply (resolve_join pr), Hnames. }
  split; [exact Hb |]. split; [exact Hab |].
  intros Hroot. rewrite <- Forall_map with (f := fun c => Path_absolute c _)
                  (P := fun t => inside_abs t abs = true).
  rewrite Hab. apply Forall_map, List.Forall_forall. intros n _.
  now apply child_abs_inside.
Qed.

Lemma ls_lists_the_entries_witness :
  let NP := Posix.npath home_process in
  exists subpaths h',
    FS_ls scenario_storage (Raw "/a") [] = Returns (subpaths, h')
    /\ map (fun c => Path_path c h') subpaths = ["/a/x.txt"; "/a/y"]
    /\ map (fun c => Path_basename c h') subpaths = ["x.txt"; "y"].
Proof.
  intros NP.
  destruct (ls_lists_the_entries home_process scenario_storage (Raw "/a") []
              {| stats_isDirectory := true |} ["x.txt"; "y"]
              I eq_refl eq_refl eq_refl eq_refl)
    as (subpaths & h' & E & _ & _ & _ & Hp & Hn).
  exists subpaths, h'. split; [exact E |]. split; [exact Hp |].
  apply Hn. repeat constructor.
Defined.

End ListingStatements.

Section MoreResolverFacts.
Context `{NP : NodePath}.
Variable st : Storage.
Variable sched : Scheduler.

Lemma Path_inside_abs c (path : path_like) (h h' : store) :
  path_like_in path h -> h `prefix_of` h' -> c < length h' ->
  fst (Path_inside c path h')
  = inside_abs (Path_absolute c h') (npath_resolve (path_string path h)).
Proof.
  intros Hv Hp Hc. unfold Path_inside. destruct path as [s | a].
  - cbn [Path_from Path_new alloc path_string fst].
    unfold Path_absolute. now rewrite Path_path_new, Path_path_app_l.
  - cbn [Path_from path_string fst]. unfold Path_absolute.
    simpl in Hv. now rewrite (Path_path_prefix a h h').
Qed.

Lemma FS_tree_root fuel (path : path_like) (h : store) node h' :
  FS_tree st sched fuel path h = Returns (node, h') ->
  node_path node = fst (Path_from path h).
Proof.
  unfold FS_tree. destruct (Path_from path h) as [a h1].
  intros E. apply bind_Returns in E as (s & h2 & _ & E).
  apply bind_Returns in E as (kids & h3 & _ & E). now injection E as <- _.
Qed.

Lemma FS_tree_from fuel (path : path_like) (h : store) node h' :
  path_like_in path h ->
  FS_tree st sched fuel path h = Returns (node, h') ->
  snd (Path_from path h) `prefix_of` h'.
Proof.
  intros Hv. unfold FS_tree.
  destruct (Path_from_spec path h Hv) as (a & h1 & Ef & Ha & _ & _).
  rewrite Ef. cbn [snd].
  intros E. apply bind_Returns in E as (s & h2 & Es & E).
  apply bind_Returns in E as (kids & h3 & Ek & E). injection E as _ <-.
  apply FS_stat_Returns in Es as [-> _].
  destruct (_resolveChildren_built st sched fuel a (stats_isDirectory s)
              (h1 ++ [Path_absolute a h1]) kids h3) as [Hp3 _];
    [rewrite length_app; lia | exact Ek |].
  transitivity (h1 ++ [Path_absolute a h1]);
    [now apply prefix_app_r | assumption].
Qed.

Lemma sublist_map_filter {A B} (f : A -> B) (g : A -> bool) l :
  sublist (map f (List.filter g l)) (map f l).
Proof.
  induction l as [|x l IH]; simpl; [constructor |].
  destruct (g x); simpl; now constructor.
Qed.

Lemma subnodes_partition (l : list TreeNode) :
  length l
  = length (List.filter is_leaf l)
    + length (List.filter is_nonempty_directory l)
    + length (List.filter is_empty_directory l).
Proof.
  induction l as [|n l IH]; [reflexivity |]. simpl.
  unfold is_leaf at 1, is_nonempty_directory at 1, is_empty_directory at 1.
  destruct (node_isDirectory n), (Nat.eqb (length (children_of n)) 0);
    simpl; lia.
Qed.

End MoreResolverFacts.

Section TreeStatements.
Import Str StrFacts Posix PosixFacts NormalFacts.

(** X11. On any platform and storage, the root node of the graph
    [FS.tree] returns holds the very [Path] it was given, not a copy, or
    the one new [Path] made of the string it was given; and [FS.tree]
    changes no [Path] that existed: it only creates new ones. *)
Theorem tree_keeps_the_given_path :
  forall (NP : NodePath) (st : Storage) (sched : Scheduler) (fuel : nat)
         (root : path_like) (h : list string) (node : TreeNode)
         (h' : list string),
    path_like_in root h ->
    FS_tree st sched fuel root h = Returns (node, h') ->
    h `prefix_of` h'
    /\ (forall a, a < length h -> Path_path a h' = Path_path a h)
    /\ (forall a, root = Obj a -> node_path node = a)
    /\ (forall s, root = Raw s -> node_path node = length h)
    /\ Path_path (node_path node) h' = path_string root h.
Proof.
  intros NP st sched fuel root h node h' Hv E.
  destruct (FS_tree_built st sched fuel root h node h' Hv E) as [Hp _].
  pose proof (FS_tree_root st sched fuel root h node h' E) as Hr.
  split; [exact Hp |]. split.
  { intros a Ha. now apply Path_path_prefix. }
  split; [now intros a -> |]. split; [now intros s -> |].
  rewrite Hr.
  pose proof (FS_tree_from st sched fuel root h node h' Hv E) as Hf.
  destruct root as [s | a].
  - cbn [Path_from Path_new alloc fst snd path_string] in *.
    destruct Hf as [k ->]. rewrite <- app_assoc. apply Path_path_new.
  - cbn [Path_from fst path_string]. now apply Path_path_prefix.
Qed.

Lemma tree_keeps_the_given_path_witness :
  let NP := Posix.npath root_process in
  node_path scenario_node = 0
  /\ Path_path (node_path scenario_node) scenario_store = "/a".
Proof.
  intros NP.
  destruct (tree_keeps_the_given_path NP scenario_storage in_order 2
              (Raw "/a") [] scenario_node scenario_store I eq_refl)
    as (_ & _ & _ & Hr & Hs).
  split; [exact (Hr "/a" eq_refl) | exact Hs].
Defined.

(** X12. On a resolved graph, what [files] yields and what [directories]
    yields are subsequences of what [flatten] yields, and [flatten] yields
    as many paths as [files] and [directories] together and the
    directories without children; of a node that is not a directory,
    [flatten] and [files] yield the same one path. *)
Theorem traversals_split_the_flattening :
  forall (NP : NodePath) (node : TreeNode) (h : list string),
    well_built node = true -> in_store node h ->
    sublist (strings_of (tree_files node h)) (strings_of (tree_flatten node h))
    /\ sublist (strings_of (tree_directories node h))
         (strings_of (tree_flatten node h))
    /\ length (strings_of (tree_flatten node h))
       = length (strings_of (tree_files node h))
         + length (strings_of (tree_directories node h))
         + length (List.filter is_empty_directory (subnodes node))
    /\ (node_isDirectory node = false ->
        strings_of (tree_flatten node h) = [path_in h node]
        /\ strings_of (tree_files node h) = [path_in h node]).
Proof.
  intros NP node h Hb Hin.
  rewrite (clones_strings _ _ _ _ (tree_flatten_clones _ Hb) Hin).
  rewrite (clones_strings _ _ _ _ (tree_files_clones _ Hb) Hin).
  rewrite (clones_strings _ _ _ _ (tree_directories_clones _ Hb) Hin).
  rewrite preorder_subnodes, leaf_paths_subnodes,
    nonempty_directory_paths_subnodes.
  split; [apply sublist_map_filter |]. split; [apply sublist_map_filter |].
  split.
  - rewrite !length_map. apply subnodes_partition.
  - intros Hd. destruct node as [p d [cs |]]; simpl in Hd; subst d.
    + now apply well_built_children in Hb as [Hd _].
    + split; reflexivity.
Qed.

Lemma traversals_split_the_flattening_witness :
  let NP := Posix.npath root_process in
  sublist (strings_of (tree_files scenario_node scenario_store))
    (strings_of (tree_flatten scenario_node scenario_store))
  /\ length (strings_of (tree_flatten scenario_node scenario_store))
     = length (strings_of (tree_files scenario_node scenario_store))
       + length (strings_of (tree_directories scenario_node scenario_store))
       + 1.
Proof.
  intros NP.
  destruct (traversals_split_the_flattening NP scenario_node scenario_store
              eq_refl scenario_node_in_store) as (Hf & _ & Hl & _).
  split; [exact Hf | exact Hl].
Defined.

End TreeStatements.

Section BelowTheRoot.
Import Str StrFacts Posix PosixFacts NormalFacts.

Lemma concat_app (sp : string) (l1 l2 : list string) :
  l1 <> [] -> l2 <> [] ->
  String.concat sp (l1 ++ l2)
  = String.concat sp l1 +:+ sp +:+ String.concat sp l2.
Proof.
  intros H1 H2. induction l1 as [|x l1 IH]; [congruence |].
  destruct l1 as [|y l1].
  - destruct l2 as [|z l2]; [congruence | reflexivity].
  - change ((x :: y :: l1) ++ l2) with (x :: (y :: l1) ++ l2).
    change ((y :: l1) ++ l2) with (y :: l1 ++ l2) at 1.
    rewrite concat_cons2.
    change (y :: l1 ++ l2) with ((y :: l1) ++ l2).
    rewrite IH by congruence. rewrite concat_cons2.
    now rewrite !sapp_assoc.
Qed.

Lemma abs_of_below segs n suffix :
  segs <> [] ->
  inside_abs (abs_of (segs ++ n :: suffix)) (abs_of segs) = true.
Proof.
  intros Hne. apply inside_abs_iff.
  exists (String.concat sep (n :: suffix)). left.
  unfold abs_of. rewrite concat_app by congruence.
  now rewrite !sapp_assoc.
Qed.

Lemma expected_segments_tail e segs x :
  In x (tl (expected_segments segs e)) ->
  exists n suffix, x = segs ++ n :: suffix.
Proof.
  destruct e as [| l | | |]; try (intros []).
  rewrite expected_segments_Dir. cbn [tl].
  intros ([n c] & Hnc & Hx)%in_flat_map. cbn [fst snd] in Hx.
  destruct (expected_segments_extend c _ _ Hx) as [suffix ->].
  exists n, suffix. now rewrite <- app_assoc.
Qed.

Lemma tl_map {A B} (f : A -> B) l : tl (map f l) = map f (tl l).
Proof. now destruct l. Qed.

Lemma expected_paths_below (pr : process) e p :
  names_ok e = true -> resolve (cwd pr) p <> "/" ->
  Forall (fun s => inside_abs (resolve (cwd pr) s) (resolve (cwd pr) p) = true)
    (tl (expected_paths p e)).
Proof.
  intros Hok Hroot.
  rewrite <- Forall_map with (f := resolve (cwd pr))
             (P := fun t => inside_abs t (resolve (cwd pr) p) = true).
  rewrite <- tl_map, resolve_expected_paths by assumption. rewrite tl_map.
  rewrite Forall_map. apply List.Forall_forall. intros x Hx.
  apply expected_segments_tail in Hx as (n & suffix & ->).
  rewrite (resolve_abs_of pr p). apply abs_of_below.
  intros E. apply Hroot. rewrite resolve_abs_of, E. reflexivity.
Qed.

Lemma expected_paths_head p e :
  expected_paths p e = p :: tl (expected_paths p e).
Proof. now destruct e. Qed.

(** X13. On [path.posix], when the storage holds a subtree at the root's
    absolute path, nothing fails and the root is not ["/"], [FS.tree]
    returns a graph of which [flatten] yields the path it was given and
    then only paths that are inside it. *)
Theorem tree_stays_inside_the_root :
  forall (pr : Posix.process) (st : Storage) (sched : Scheduler)
         (e : entry) (fuel : nat) (root : path_like) (h0 : list string),
    let NP := Posix.npath pr in
    let abs := Posix.resolve (Posix.cwd pr) (path_string root h0) in
    path_like_in root h0 ->
    holds st abs e = true ->
    names_ok e = true ->
    failures abs e = [] ->
    height e <= fuel ->
    abs <> "/" ->
    exists node h below,
      FS_tree st sched fuel root h0 = Returns (node, h)
      /\ strings_of (tree_flatten node h) = path_string root h0 :: below
      /\ Forall (fun s => @inside_of NP s (path_string root h0) = true) below.
Proof.
  intros pr st sched e fuel root h0 NP abs Hv Hh Hok Hnone Hfuel Hroot.
  pose proof (FS_tree_holds pr st sched e fuel root h0 Hv Hh Hok Hfuel)
    as Hspec.
  fold abs in Hspec. rewrite Hnone in Hspec.
  destruct Hspec as (node & h & E & Hpre).
  destruct (FS_tree_built st sched fuel root h0 node h Hv E)
    as [_ (Hin & Hb & _)].
  exists node, h, (tl (expected_paths (path_string root h0) e)).
  split; [exact E |]. split.
  - change (posix_path pr) with NP in *.
    rewrite (clones_strings _ _ _ _ (tree_flatten_clones _ Hb) Hin).
    rewrite Hpre. apply expected_paths_head.
  - eapply Forall_impl; [apply (expected_paths_below pr); eassumption |].
    intros s Hs. now rewrite inside_of_abs.
Qed.

Lemma tree_stays_inside_the_root_witness :
  let NP := Posix.npath home_process in
  exists node h below,
    FS_tree scenario_storage in_order 2 (Raw "/a") [] = Returns (node, h)
    /\ strings_of (tree_flatten node h) = "/a" :: below
    /\ Forall (fun s => @inside_of NP s "/a" = true) below.
Proof.
  intros NP.
  apply (tree_stays_inside_the_root home_process scenario_storage in_order
           scenario_entry 2 (Raw "/a") []).
  - exact I.
  - reflexivity.
  - reflexivity.
  - reflexivity.
  - simpl. lia.
  - discriminate.
Defined.

End BelowTheRoot.

Module PrependFacts.
Import Str StrFacts Posix PosixFacts NormalFacts JoinFacts.

Lemma concat_relative (parts : list string) :
  parts <> [] -> Forall (fun s => s <> "") parts ->
  Forall (fun s => isAbsolute s = false) parts ->
  isAbsolute (String.concat sep parts) = false.
Proof.
  destruct parts as [|x parts]; [congruence |]. intros _ Hne Hrel.
  apply Forall_cons_iff in Hne as [Hx _].
  apply Forall_cons_iff in Hrel as [Hr _].
  destruct parts; [exact Hr |].
  rewrite concat_cons2. now rewrite isAbsolute_app.
Qed.

Lemma nonempty_relative args :
  Forall (fun s => isAbsolute s = false) args ->
  Forall (fun s => isAbsolute s = false) (nonempty args).
Proof.
  intros H. apply List.Forall_forall. intros x [Hx _]%List.filter_In.
  rewrite List.Forall_forall in H. now apply H.
Qed.

(** one more argument in front: joining it with what was joined so far *)
Lemma join_cons x args :
  nonempty args <> [] -> Forall (fun s => isAbsolute s = false) args ->
  join [x; join args] = join (x :: args).
Proof.
  intros Hne Hrel. pose proof (nonempty_all args) as Hall.
  pose proof (concat_nonempty sep _ Hne Hall) as Hc.
  rewrite (join_parts args Hne).
  destruct (String.eqb_spec x "") as [-> | Hx].
  - rewrite join_empty_l by apply normalize_nonempty.
    rewrite normalize_idempotent.
    rewrite (join_parts ("" :: args)); [reflexivity | exact Hne].
  - rewrite join_pair by (assumption || apply normalize_nonempty).
    rewrite normalize_join_r; [| assumption | assumption |].
    + assert (Hf : nonempty (x :: args) = x :: nonempty args).
      { unfold nonempty. cbn [List.filter].
        apply is_empty_false in Hx. now rewrite Hx. }
      rewrite join_parts; rewrite Hf; [| congruence].
      destruct (nonempty args) as [|y l]; [congruence |].
      now rewrite concat_cons2.
    + apply concat_relative; [assumption | assumption |].
      now apply nonempty_relative.
Qed.

Lemma join_fold_right x xs p :
  p <> "" -> isAbsolute p = false ->
  Forall (fun s => isAbsolute s = false) xs ->
  fold_right (fun y s => join [y; s]) p (x :: xs) = join (x :: xs ++ [p]).
Proof.
  intros Hp Hrel. revert x. induction xs as [|y ys IH]; intros x Hxs.
  - reflexivity.
  - apply Forall_cons_iff in Hxs as [Hy Hys].
    change (fold_right (fun y s => join [y; s]) p (x :: y :: ys))
      with (join [x; fold_right (fun y s => join [y; s]) p (y :: ys)]).
    rewrite IH by assumption.
    apply (join_cons x (y :: ys ++ [p])).
    + change (y :: ys ++ [p]) with ((y :: ys) ++ [p]).
      unfold nonempty. rewrite List.filter_app. cbn [List.filter].
      apply is_empty_false in Hp. rewrite Hp. cbn [negb].
      intros E. now apply app_eq_nil in E as [_ E].
    + constructor; [assumption |]. apply Forall_app. split; [assumption |].
      now constructor.
Qed.

End PrependFacts.

Section Prepending.
Import Str StrFacts Posix PosixFacts NormalFacts JoinFacts PrependFacts.

Lemma prefixes_fold (pr : process) a (h : store) :
  a < length h ->
  forall ys,
    Forall (fun p => p <> Obj a /\ path_like_in p h) ys ->
    let h' := fold_right (fun p h' => @Path_prefix (Posix.npath pr) a p h')
                h ys in
    length h <= length h'
    /\ (forall b, b < length h -> b <> a -> Path_path b h' = Path_path b h)
    /\ Path_path a h'
       = fold_right (fun y s => join [y; s]) (Path_path a h)
           (map (fun p => path_string p h) ys).
Proof.
  intros Ha. induction ys as [|y ys IH]; intros Hys h'.
  - subst h'. now repeat split.
  - apply Forall_cons_iff in Hys as [[Hy Hin] Hys].
    destruct (IH Hys) as (Hlen & Hframe & Hpath). clear IH.
    subst h'. cbn [fold_right map].
    set (h1 := fold_right _ h ys) in *.
    unfold Path_prefix. destruct y as [s | b].
    + cbn [Path_from Path_new alloc path_string].
      rewrite set_path_length, length_app. split; [lia |]. split.
      * intros c Hc Hca. rewrite set_path_other by congruence.
        rewrite Path_path_app_l by lia. now apply Hframe.
      * rewrite set_path_same by (rewrite length_app; lia).
        rewrite Path_path_new, Path_path_app_l by lia. now rewrite Hpath.
    + cbn [Path_from path_string]. simpl in Hin.
      assert (Hba : b <> a) by congruence.
      rewrite set_path_length. split; [lia |]. split.
      * intros c Hc Hca. rewrite set_path_other by congruence.
        now apply Hframe.
      * rewrite set_path_same by lia.
        now rewrite (Hframe b Hin Hba), Hpath.
Qed.

(** X14. On [path.posix], [prepend] with several arguments leaves in the
    receiver the path that [prefix] leaves with one argument after the
    other, from the last to the first, when the receiver's path is not
    empty and not absolute, no argument but the first is absolute, and
    none of the arguments is the receiver itself. *)
Theorem prepend_is_repeated_prefix :
  forall (pr : Posix.process) (a : nat) (x : path_like)
         (xs : list path_like) (h : list string),
    let NP := Posix.npath pr in
    a < length h ->
    Forall (fun p => p <> Obj a /\ path_like_in p h) (x :: xs) ->
    Forall (fun p => Posix.isAbsolute (path_string p h) = false) xs ->
    Path_path a h <> "" -> Posix.isAbsolute (Path_path a h) = false ->
    Path_path a (@Path_prepend NP a (x :: xs) h)
    = Path_path a (fold_right (fun p h' => @Path_prefix NP a p h') h (x :: xs)).
Proof.
  intros pr a x xs h NP Ha Hall Hrel Hne Hp.
  destruct (prefixes_fold pr a h Ha (x :: xs) Hall) as (_ & _ & E).
  cbv zeta in E. fold NP in E. rewrite E.
  unfold Path_prepend. rewrite set_path_same by assumption.
  cbn [map]. rewrite join_fold_right; [reflexivity | assumption..|].
  now apply Forall_map.
Qed.

Lemma prepend_is_repeated_prefix_witness :
  let NP := Posix.npath home_process in
  Path_path 0 (@Path_prepend NP 0 [Raw "/srv/"; Obj 1; Raw ""]
                 ["a.txt"; "../www"])
  = Path_path 0
      (@Path_prefix NP 0 (Raw "/srv/")
         (@Path_prefix NP 0 (Obj 1)
            (@Path_prefix NP 0 (Raw "") ["a.txt"; "../www"]))).
Proof.
  intros NP.
  apply (prepend_is_repeated_prefix home_process 0 (Raw "/srv/")
           [Obj 1; Raw ""] ["a.txt"; "../www"]).
  - simpl. lia.
  - repeat constructor; discriminate.
  - repeat constructor.
  - discriminate.
  - reflexivity.
Defined.

End Prepending.

Module DirnameFacts.
Import Str StrFacts Posix PosixFacts NormalFacts PopFacts PosixDirname TextFacts.

Example dirname_documented :
  map dirname [""; "/"; "//"; "a"; "/a"; "//a"; "/a/b"; "a/b/"; "a//b";
               "/foo/bar/baz/asdf/quux"; "a///"; "./a"; ".."]
  = ["."; "/"; "/"; "."; "/"; "//"; "/a"; "a"; "a/";
     "/foo/bar/baz/asdf"; "."; "."; "."].
Proof. reflexivity. Qed.

Lemma chars_app (a b : string) :
  list_ascii_of_string (a +:+ b)
  = list_ascii_of_string a ++ list_ascii_of_string b.
Proof.
  induction a as [|c a IH]; [now rewrite sapp_nil_l |].
  rewrite sapp_cons. simpl. now rewrite IH.
Qed.

Lemma chars_length (s : string) :
  length (list_ascii_of_string s) = String.length s.
Proof. induction s as [|c s IH]; simpl; [reflexivity | now rewrite IH]. Qed.

Lemma chars_slashes k :
  rev (list_ascii_of_string (slashes k)) = repeat "/"%char k.
Proof.
  induction k as [|k IH]; [reflexivity |]. simpl. rewrite IH.
  clear IH. induction k as [|k IH]; [reflexivity |]. simpl. now rewrite IH.
Qed.

Lemma slashes_length k : String.length (slashes k) = k.
Proof. induction k as [|k IH]; simpl; [reflexivity | now rewrite IH]. Qed.

Lemma chars_nosep n :
  nosep n -> Forall (fun c => Ascii.eqb c "/" = false)
               (rev (list_ascii_of_string n)).
Proof.
  unfold nosep. intros H. apply Forall_rev.
  induction n as [|c n IH]; [constructor |]. simpl in H.
  apply orb_false_iff in H as [Hc Hn]. constructor; [exact Hc | now apply IH].
Qed.

(** the loop skips the separators at the end *)
Lemma loop_slashes k chars i :
  dirname_loop (repeat "/"%char k ++ chars) (k + i) true
  = dirname_loop chars i true.
Proof. induction k as [|k IH]; [reflexivity |]. simpl. exact IH. Qed.

(** and then the characters of the last segment *)
Lemma loop_segment seg : forall chars i m,
  Forall (fun c => Ascii.eqb c "/" = false) seg ->
  dirname_loop (seg ++ chars) (length seg + i) m
  = dirname_loop chars i (match seg with [] => m | _ => false end).
Proof.
  induction seg as [|c seg IH]; intros chars i m H; [reflexivity |].
  apply Forall_cons_iff in H as [Hc Hs]. simpl. rewrite Hc.
  rewrite IH by assumption. now destruct seg.
Qed.

Lemma loop_bare n k :
  nosep n -> n <> "" ->
  dirname_loop (rev (list_ascii_of_string (n +:+ slashes k)))
    (String.length (n +:+ slashes k) - 1) true
  = None.
Proof.
  intros Hs Hne. rewrite chars_app, rev_app_distr, chars_slashes.
  rewrite sapp_length, slashes_length.
  destruct n as [|c n]; [congruence |].
  assert (Hn : nosep n).
  { unfold nosep in *. simpl in Hs. now apply orb_false_iff in Hs as [_ Hs]. }
  simpl list_ascii_of_string. simpl rev. simpl String.length.
  replace (S (String.length n) + k - 1) with (k + (String.length n + 0)) by lia.
  rewrite loop_slashes. rewrite <- chars_length, <- length_rev.
  rewrite loop_segment by now apply chars_nosep.
  now destruct (rev (list_ascii_of_string n)).
Qed.

Lemma loop_dir d n k :
  nosep n -> n <> "" ->
  dirname_loop (rev (list_ascii_of_string (d +:+ "/" +:+ n +:+ slashes k)))
    (String.length (d +:+ "/" +:+ n +:+ slashes k) - 1) true
  = match String.length d with 0 => None | S _ => Some (String.length d) end.
Proof.
  intros Hs Hne.
  rewrite !chars_app, !rev_app_distr, chars_slashes, <- !app_assoc.
  rewrite !sapp_length, slashes_length. simpl String.length.
  replace (String.length d + (1 + (String.length n + k)) - 1)
    with (k + (String.length n + String.length d)) by lia.
  rewrite loop_slashes. rewrite <- (chars_length n), <- length_rev.
  rewrite loop_segment by now apply chars_nosep.
  assert (Hr : rev (list_ascii_of_string n) <> []).
  { intros E%(f_equal (@length _)). rewrite length_rev, chars_length in E.
    destruct n; [congruence | discriminate]. }
  destruct (rev (list_ascii_of_string n)); [congruence |].
  simpl. now destruct (String.length d).
Qed.

(** [dirname] of a path that ends with a name and separators *)
Lemma dirname_bare n k :
  nosep n -> n <> "" -> dirname (n +:+ slashes k) = ".".
Proof.
  intros Hs Hne. unfold dirname. rewrite loop_bare by assumption.
  destruct n as [|c n]; [congruence |]. rewrite sapp_cons. simpl.
  unfold nosep in Hs. simpl in Hs. apply orb_false_iff in Hs as [Hc _].
  now rewrite Hc.
Qed.

Lemma dirname_dir d n k :
  nosep n -> n <> "" ->
  dirname (d +:+ "/" +:+ n +:+ slashes k)
  = if Str.is_empty d then "/"
    else if String.eqb d "/" then "//" else d.
Proof.
  intros Hs Hne. unfold dirname. rewrite loop_dir by assumption.
  destruct d as [|c d].
  - reflexivity.
  - rewrite sapp_cons. cbn [is_empty first_is String.length].
    destruct (String.eqb_spec (String c d) "/") as [E | E].
    + injection E as -> ->. reflexivity.
    + replace (Ascii.eqb c "/" && Nat.eqb (S (String.length d)) 1) with false.
      * change (S (String.length d)) with (String.length (String c d)).
        rewrite <- sapp_cons. apply substring_prefix.
      * symmetry. apply andb_false_iff.
        destruct (Ascii.eqb_spec c "/") as [-> | _]; [right | now left].
        destruct d; [congruence | reflexivity].
Qed.

End DirnameFacts.

Module ParentFacts.
Import Str StrFacts Posix PosixFacts NormalFacts PopFacts PosixDirname.
Import TextFacts DirnameFacts.

(** the pieces of a path, joined again *)
Lemma concat_split p : String.concat sep (split p) = p.
Proof.
  induction p as [|c p IH]; [reflexivity |]. simpl.
  destruct (split p) as [|seg segs] eqn:E; [now apply split_not_nil in E |].
  destruct (Ascii.eqb_spec c "/") as [-> | _].
  - rewrite concat_cons2, IH. reflexivity.
  - rewrite <- IH. destruct segs; [reflexivity |].
    rewrite !concat_cons2. now rewrite sapp_cons.
Qed.

Lemma all_empty (l : list string) :
  List.filter (fun a => negb (is_empty a)) l = [] ->
  l = repeat "" (length l).
Proof.
  induction l as [|x l IH]; [reflexivity |]. simpl.
  destruct x; simpl; [| discriminate]. intros H. now rewrite <- IH.
Qed.

Lemma last_cons {A} (x : A) l d : l <> [] -> List.last (x :: l) d = List.last l d.
Proof. now destruct l. Qed.

(** the pieces of a path around its base name *)
Lemma pieces_around (l : list string) n :
  List.last (List.filter (fun a => negb (is_empty a)) l) "" = n ->
  n <> "" ->
  exists front k, l = front ++ n :: repeat "" k.
Proof.
  induction l as [|x l IH]; intros Hl Hn; [simpl in Hl; congruence |].
  destruct (List.filter (fun a => negb (is_empty a)) l) as [|y f] eqn:E.
  - simpl in Hl. rewrite E in Hl.
    destruct (negb (is_empty x)); simpl in Hl; [| congruence].
    subst x. exists [], (length l). simpl. f_equal. now apply all_empty.
  - assert (Hl' : List.last (y :: f) "" = n).
    { simpl in Hl. rewrite E in Hl.
      destruct (negb (is_empty x)); [| exact Hl].
      now rewrite last_cons in Hl. }
    destruct (IH Hl' Hn) as (front & k & ->).
    now exists (x :: front), k.
Qed.

Lemma concat_name n k :
  String.concat sep (n :: repeat "" k) = n +:+ slashes k.
Proof.
  revert n. induction k as [|k IH]; intros n; [simpl; now rewrite sapp_nil_r |].
  change (repeat "" (S k)) with ("" :: repeat "" k).
  rewrite concat_cons2, IH. now rewrite sapp_nil_l.
Qed.

(** a path with a base name: the name and separators, after nothing or
    after a directory and a separator *)
Lemma path_around p :
  basename p <> "" ->
  (exists k, p = basename p +:+ slashes k)
  \/ (exists d k, p = d +:+ "/" +:+ basename p +:+ slashes k).
Proof.
  intros Hn. destruct (pieces_around (split p) (basename p) eq_refl Hn)
    as (front & k & E).
  pose proof (concat_split p) as Hp. rewrite E in Hp.
  destruct front as [|x front].
  - left. exists k. rewrite <- concat_name. symmetry. exact Hp.
  - right. exists (String.concat sep (x :: front)), k.
    rewrite <- concat_name, <- concat_app by congruence.
    symmetry. exact Hp.
Qed.

Lemma split_name n k :
  nosep n -> split (n +:+ slashes k) = n :: repeat "" k.
Proof.
  intros Hn. rewrite <- concat_name. apply split_concat; [congruence |].
  constructor; [assumption |]. apply List.Forall_forall.
  intros x ->%repeat_spec. reflexivity.
Qed.

Lemma fold_step_empty m k res :
  fold_left (step m) (repeat "" k) res = res.
Proof. induction k as [|k IH]; [reflexivity |]. simpl. exact IH. Qed.

Lemma fold_step_last m pieces n k res :
  is_name n = true ->
  fold_left (step m) (pieces ++ n :: repeat "" k) res
  = n :: fold_left (step m) pieces res.
Proof.
  intros Hn. rewrite fold_left_app. cbn [fold_left].
  now rewrite step_name, fold_step_empty.
Qed.

(** the segments of the absolute form: those of the directory, and the
    base name *)
Lemma abs_segments_dirname (pr : process) p :
  is_name (basename p) = true ->
  abs_segments (cwd pr) p = basename p :: abs_segments (cwd pr) (dirname p).
Proof.
  intros Hn. pose proof Hn as (Hne & _ & _ & Hs)%is_name_spec.
  set (n := basename p) in *.
  destruct (path_around p Hne) as [[k E] | (d & k & E)]; fold n in E;
    rewrite E.
  - rewrite dirname_bare by assumption. unfold abs_segments.
    rewrite isAbsolute_app by assumption.
    unfold isAbsolute. rewrite (has_char_first "/" n Hs). simpl first_is.
    cbv iota. rewrite split_name by assumption.
    rewrite fold_step_last by assumption.
    change (split ".") with ["."]. now rewrite fold_step_snoc.
  - rewrite dirname_dir by assumption. unfold abs_segments.
    rewrite !split_app_sep, split_name by assumption.
    destruct d as [|c d].
    + rewrite sapp_nil_l. simpl.
      rewrite fold_step_empty, step_name by assumption. reflexivity.
    + rewrite isAbsolute_app by discriminate. cbn [is_empty].
      destruct (String.eqb_spec (String c d) "/") as [Ed | Ed].
      * rewrite Ed. simpl isAbsolute. cbv iota.
        now rewrite fold_step_last.
      * destruct (isAbsolute (String c d)).
        -- now rewrite fold_step_last.
        -- rewrite app_assoc. now rewrite fold_step_last, fold_left_app.
Qed.

Lemma resolve_dirname (pr : process) p :
  is_name (basename p) = true ->
  child_abs (resolve (cwd pr) (dirname p)) (basename p) = resolve (cwd pr) p.
Proof.
  intros Hn. rewrite !resolve_abs_of.
  rewrite (abs_segments_dirname pr p) by assumption.
  rewrite child_abs_abs_of by apply Forall_rev, abs_segments_names.
  reflexivity.
Qed.

End ParentFacts.

Section DirnameStatements.
Import Str StrFacts Posix PosixFacts NormalFacts PopFacts PosixDirname.
Import TextFacts DirnameFacts ParentFacts.

(** X15. On [path.posix], when the base name of a path is a name, neither
    empty nor ["."] nor [".."], the absolute form of the path is the
    absolute form of its [dirname], a separator and its [basename]. *)
Theorem absolute_of_dirname_and_basename :
  forall (pr : Posix.process) (p : string),
    let NP := Posix.npath pr in
    Posix.is_name (@basename_of NP p) = true ->
    Posix.child_abs (@absolute_of NP (dirname_of p)) (@basename_of NP p)
    = @absolute_of NP p.
Proof. intros pr p NP Hn. now apply resolve_dirname. Qed.

Lemma absolute_of_dirname_and_basename_witness :
  let NP := Posix.npath home_process in
  Posix.child_abs (@absolute_of NP (dirname_of "docs/../notes//a.txt/"))
    (@basename_of NP "docs/../notes//a.txt/")
  = @absolute_of NP "docs/../notes//a.txt/".
Proof.
  intros NP.
  apply (absolute_of_dirname_and_basename home_process
           "docs/../notes//a.txt/").
  reflexivity.
Defined.

(** X16. On [path.posix], below a directory that is neither empty nor the
    root, [pop] of a name of plain characters leaves the [dirname] of the
    path; at the root and on a name alone it leaves the empty string,
    where [dirname] is ["/"] and ["."]. *)
Theorem pop_leaves_the_dirname :
  forall (pr : Posix.process) (d n : string),
    let NP := Posix.npath pr in
    Text.plain n = true -> Posix.nosep n -> n <> "" ->
    (d <> "" -> d <> "/" ->
     @popped NP (d +:+ "/" +:+ n) = Returns (dirname_of (d +:+ "/" +:+ n)))
    /\ (@popped NP ("/" +:+ n) = Returns ""
        /\ dirname_of ("/" +:+ n) = "/")
    /\ (@popped NP n = Returns "" /\ dirname_of n = ".").
Proof.
  intros pr d n NP Hp Hs Hne.
  assert (Hdir : forall x, dirname_of (x +:+ "/" +:+ n)
                   = if is_empty x then "/"
                     else if String.eqb x "/" then "//" else x).
  { intros x. rewrite <- (sapp_nil_r n) at 1.
    now apply (dirname_dir x n 0). }
  subst NP. split; [| split; split].
  - intros Hd Hroot. rewrite Hdir.
    apply is_empty_false in Hd. apply String.eqb_neq in Hroot.
    rewrite Hd, Hroot.
    rewrite popped_plain; rewrite basename_dir by assumption; [| assumption].
    now rewrite replace_pop_dir.
  - change ("/" +:+ n) with ("" +:+ "/" +:+ n).
    rewrite popped_plain; rewrite basename_dir by assumption; [| assumption].
    now rewrite replace_pop_dir.
  - apply (Hdir "").
  - rewrite popped_plain; rewrite basename_bare by assumption; [| assumption].
    now rewrite replace_pop_bare.
  - rewrite <- (sapp_nil_r n). now apply (dirname_bare n 0).
Qed.

Lemma pop_leaves_the_dirname_witness :
  let NP := Posix.npath home_process in
  @popped NP ("/srv/www" +:+ "/" +:+ "index.html")
  = Returns (dirname_of ("/srv/www" +:+ "/" +:+ "index.html")).
Proof.
  intros NP.
  apply (pop_leaves_the_dirname home_process "/srv/www" "index.html");
    reflexivity || discriminate.
Defined.

End DirnameStatements.

Section FilesFacts.
Variable pr : Posix.process.
Context {disk : Type}.
Variable F : Files disk.
Import Str StrFacts Posix PosixFacts NormalFacts PosixDirname.
Import DirnameFacts ParentFacts.

#[local] Instance posix_files : NodePath := Posix.npath pr.

(** [FS.read], [FS.write], [FS.append] and [FS.mkdir] on [path.posix], in
    full *)
Lemma FS_read_posix (path : path_like) (d : disk) (h : store) :
  path_like_in path h ->
  FS_read F path d h
  = let abs := resolve (cwd pr) (path_string path h) in
    let st := files_storage F d in
    if nfs_access st abs then
      match nfs_stat st abs with
      | Some _ =>
          if files_isFile F d abs then
            match nfs_readFile F d abs with
            | Some content =>
                Resolves (content, snd (Path_from path h) ++ [abs])
            | None => Rejects (NativeFile "readFile" abs)
            end
          else Rejects (NotAFile abs)
      | None => Rejects (OfStat (Native "stat" abs))
      end
    else Rejects (OfStat (NotAccessible abs)).
Proof.
  intros Hv. destruct (Path_from_spec path h Hv) as (a & h1 & Ef & Ha & Hp & _).
  unfold FS_read. rewrite Ef. cbv zeta. cbn [snd].
  rewrite (FS_stat_posix pr _ (Obj a) h1 Ha). cbv zeta.
  cbn [Path_from snd path_string]. rewrite Hp.
  assert (Habs : forall k, Path_absolute a (h1 ++ k)
                           = resolve (cwd pr) (path_string path h)).
  { intros k. unfold Path_absolute. now rewrite Path_path_app_l, Hp. }
  pose proof (Habs []) as Habs0. rewrite app_nil_r in Habs0.
  destruct (nfs_access _ _); [| reflexivity].
  destruct (nfs_stat _ _); [| reflexivity].
  rewrite Habs0, Habs. now destruct (files_isFile F d _).
Qed.

Lemma FS_write_posix (path : path_like) (content : string) (d : disk)
  (h : store) :
  path_like_in path h ->
  FS_write F path content d h
  = let parent := resolve (cwd pr) (dirname (path_string path h)) in
    let target := resolve (cwd pr) (path_string path h) in
    let st := files_storage F d in
    if nfs_access st parent then
      match nfs_stat st parent with
      | Some dirstat =>
          if stats_isDirectory dirstat then
            match nfs_writeFile F target content d with
            | Some d' =>
                Resolves (d', snd (Path_from path h)
                                ++ [dirname (path_string path h); parent;
                                    parent])
            | None => Rejects (NativeFile "writeFile" target)
            end
          else Rejects (NotADirectoryToWrite parent)
      | None => Rejects (OfStat (Native "stat" parent))
      end
    else Rejects (OfStat (NotAccessible parent)).
Proof.
  intros Hv. destruct (Path_from_spec path h Hv) as (a & h1 & Ef & Ha & Hp & _).
  unfold FS_write. rewrite Ef. cbv zeta. cbn [snd].
  unfold Path_dirname. rewrite Hp.
  cbn [Path_from Path_new alloc path_string].
  change (npath_dirname ?x) with (dirname x).
  set (dn := dirname (path_string path h)).
  assert (Hparent : forall k, Path_absolute (length h1) ((h1 ++ [dn]) ++ k)
                              = resolve (cwd pr) dn).
  { intros k. unfold Path_absolute. rewrite <- app_assoc. cbn [app].
    now rewrite Path_path_new. }
  pose proof (Hparent []) as Hparent0. rewrite app_nil_r in Hparent0.
  rewrite Hparent0.
  rewrite (FS_stat_posix pr _ (Raw (resolve (cwd pr) dn)) (h1 ++ [dn]) I).
  cbv zeta. cbn [Path_from Path_new alloc snd path_string].
  rewrite resolve_resolve.
  destruct (nfs_access _ _); [| reflexivity].
  destruct (nfs_stat _ _) as [dirstat |]; [| reflexivity].
  rewrite <- !app_assoc. rewrite (app_assoc h1 [dn]), Hparent.
  assert (Htarget : forall k, Path_absolute a (h1 ++ k)
                              = resolve (cwd pr) (path_string path h)).
  { intros k. unfold Path_absolute. now rewrite Path_path_app_l, Hp. }
  rewrite <- app_assoc, Htarget.
  now destruct (stats_isDirectory dirstat).
Qed.

Lemma FS_append_posix (path : path_like) (content : string) (d : disk)
  (h : store) :
  path_like_in path h ->
  FS_append F path content d h
  = let parent := resolve (cwd pr) (dirname (path_string path h)) in
    let target := resolve (cwd pr) (path_string path h) in
    let st := files_storage F d in
    if nfs_access st parent then
      match nfs_stat st parent with
      | Some dirstat =>
          if stats_isDirectory dirstat then
            match nfs_appendFile F target content d with
            | Some d' =>
                Resolves (d', snd (Path_from path h)
                                ++ [dirname (path_string path h); parent;
                                    parent])
            | None => Rejects (NativeFile "appendFile" target)
            end
          else Rejects (NotADirectoryToWrite parent)
      | None => Rejects (OfStat (Native "stat" parent))
      end
    else Rejects (OfStat (NotAccessible parent)).
Proof.
  intros Hv. destruct (Path_from_spec path h Hv) as (a & h1 & Ef & Ha & Hp & _).
  unfold FS_append. rewrite Ef. cbv zeta. cbn [snd].
  unfold Path_dirname. rewrite Hp.
  cbn [Path_from Path_new alloc path_string].
  change (npath_dirname ?x) with (dirname x).
  set (dn := dirname (path_string path h)).
  assert (Hparent : forall k, Path_absolute (length h1) ((h1 ++ [dn]) ++ k)
                              = resolve (cwd pr) dn).
  { intros k. unfold Path_absolute. rewrite <- app_assoc. cbn [app].
    now rewrite Path_path_new. }
  pose proof (Hparent []) as Hparent0. rewrite app_nil_r in Hparent0.
  rewrite Hparent0.
  rewrite (FS_stat_posix pr _ (Raw (resolve (cwd pr) dn)) (h1 ++ [dn]) I).
  cbv zeta. cbn [Path_from Path_new alloc snd path_string].
  rewrite resolve_resolve.
  destruct (nfs_access _ _); [| reflexivity].
  destruct (nfs_stat _ _) as [dirstat |]; [| reflexivity].
  rewrite <- !app_assoc. rewrite (app_assoc h1 [dn]), Hparent.
  assert (Htarget : forall k, Path_absolute a (h1 ++ k)
                              = resolve (cwd pr) (path_string path h)).
  { intros k. unfold Path_absolute. now rewrite Path_path_app_l, Hp. }
  rewrite <- app_assoc, Htarget.
  now destruct (stats_isDirectory dirstat).
Qed.

Lemma FS_mkdir_posix (path : path_like) (d : disk) (h : store) :
  path_like_in path h ->
  FS_mkdir F path d h
  = let abs := resolve (cwd pr) (path_string path h) in
    match nfs_mkdir F abs d with
    | Some d' => Resolves (d', snd (Path_from path h))
    | None => Rejects (NativeFile "mkdir" abs)
    end.
Proof.
  intros Hv. destruct (Path_from_spec path h Hv) as (a & h1 & Ef & Ha & Hp & _).
  unfold FS_mkdir. rewrite Ef. cbv zeta. cbn [snd].
  unfold Path_absolute. now rewrite Hp.
Qed.

(** a path means the same string in a store that has grown *)
Lemma path_string_prefix (path : path_like) (h h' : store) :
  path_like_in path h -> h `prefix_of` h' ->
  path_like_in path h' /\ path_string path h' = path_string path h.
Proof.
  intros Hv Hp. destruct path as [s | a]; [now split |]. simpl in *.
  split; [apply list.prefix_length in Hp; lia |].
  now apply Path_path_prefix.
Qed.

(** the directory of the join of a path and a name is the path *)
Lemma resolve_dirname_join p n :
  is_name n = true ->
  resolve (cwd pr) (dirname (join [p; n])) = resolve (cwd pr) p.
Proof.
  intros Hn. pose proof (basename_join p n Hn) as Hb.
  assert (Hn' : is_name (basename (join [p; n])) = true) by now rewrite Hb.
  pose proof (abs_segments_dirname pr _ Hn') as E.
  rewrite abs_segments_join, Hb in E by assumption.
  injection E as E. now rewrite !resolve_abs_of, E.
Qed.

End FilesFacts.

Lemma memory_lawful : lawful memory_files.
Proof.
  split.
  - intros abs content d d' [= <-]. cbn.
    unfold memory_is_file. cbn. rewrite String.eqb_refl. eauto.
  - intros abs content d d' before Hb. cbn in *. rewrite Hb.
    intros [= <-]. cbn. unfold memory_is_file. cbn.
    rewrite String.eqb_refl. eauto.
  - intros abs d d'. cbn. destruct (memory_is_file d abs) eqn:E; [discriminate |].
    intros [= <-]. split; [reflexivity |]. eexists. split; [reflexivity |].
    cbn. now rewrite E.
Defined.

Section FilesStatements.
Import Str StrFacts Posix PosixFacts NormalFacts PosixDirname.
Import DirnameFacts ParentFacts.

(** X17. On [path.posix], [FS.read] rejects with the error of [FS.stat]
    when the absolute path is not accessible or [nfs.stat] rejects, with
    its own error naming the absolute path when that is not a file, and
    with the rejection of [nfs.readFile] when that rejects; otherwise it
    resolves with what [nfs.readFile] gives for the absolute path. *)
Theorem read_outcomes :
  forall (pr : Posix.process) (disk : Type) (F : Files disk)
         (path : path_like) (d : disk) (h : list string),
    let NP := Posix.npath pr in
    let abs := Posix.resolve (Posix.cwd pr) (path_string path h) in
    let st := files_storage F d in
    path_like_in path h ->
    (nfs_access st abs = false ->
     FS_read F path d h = Rejects (OfStat (NotAccessible abs)))
    /\ (nfs_access st abs = true -> nfs_stat st abs = None ->
        FS_read F path d h = Rejects (OfStat (Native "stat" abs)))
    /\ (forall s, nfs_access st abs = true -> nfs_stat st abs = Some s ->
          files_isFile F d abs = false ->
          FS_read F path d h = Rejects (NotAFile abs))
    /\ (forall s, nfs_access st abs = true -> nfs_stat st abs = Some s ->
          files_isFile F d abs = true -> nfs_readFile F d abs = None ->
          FS_read F path d h = Rejects (NativeFile "readFile" abs))
    /\ (forall s content,
          nfs_access st abs = true -> nfs_stat st abs = Some s ->
          files_isFile F d abs = true ->
          nfs_readFile F d abs = Some content ->
          settled_with (FS_read F path d h) = Resolves content).
Proof.
  intros pr disk F path d h NP abs st Hv.
  pose proof (FS_read_posix pr F path d h Hv) as E. cbv zeta in E.
  fold abs st in E. change (posix_files pr) with NP in E.
  split; [| split; [| split; [| split]]].
  - intros Ha. now rewrite E, Ha.
  - intros Ha Hs. now rewrite E, Ha, Hs.
  - intros s Ha Hs Hf. now rewrite E, Ha, Hs, Hf.
  - intros s Ha Hs Hf Hr. now rewrite E, Ha, Hs, Hf, Hr.
  - intros s content Ha Hs Hf Hr. now rewrite E, Ha, Hs, Hf, Hr.
Qed.

Lemma read_outcomes_witness :
  let NP := Posix.npath home_process in
  FS_read memory_files (Raw "notes") [("/home/u/a.txt", "x")] []
  = Rejects (NotAFile "/home/u/notes")
  /\ settled_with
       (FS_read memory_files (Raw "a.txt") [("/home/u/a.txt", "x")] [])
     = Resolves "x".
Proof.
  intros NP.
  destruct (read_outcomes home_process memory memory_files (Raw "notes")
              [("/home/u/a.txt", "x")] [] I) as (_ & _ & H & _).
  destruct (read_outcomes home_process memory memory_files (Raw "a.txt")
              [("/home/u/a.txt", "x")] [] I) as (_ & _ & _ & _ & H').
  split.
  - apply (H {| stats_isDirectory := true |}); reflexivity.
  - apply (H' {| stats_isDirectory := false |}); reflexivity.
Defined.

(** X18. On [path.posix], [FS.write] and [FS.append] first check the
    directory named by the [dirname] of the path: they reject with the
    error of [FS.stat] when it is not accessible or [nfs.stat] rejects, and
    with their own error naming it when it is not a directory; otherwise
    they settle as [nfs.writeFile] and [nfs.appendFile] do on the absolute
    form of the path. When the base name of the path is a name, the
    directory they check is the one that holds the file they write. *)
Theorem write_and_append_check_the_directory :
  forall (pr : Posix.process) (disk : Type) (F : Files disk)
         (path : path_like) (content : string) (d : disk) (h : list string),
    let NP := Posix.npath pr in
    let p := path_string path h in
    let parent := @absolute_of NP (dirname_of p) in
    let target := @absolute_of NP p in
    let st := files_storage F d in
    path_like_in path h ->
    (Posix.is_name (@basename_of NP p) = true ->
     Posix.child_abs parent (@basename_of NP p) = target)
    /\ (nfs_access st parent = false ->
        FS_write F path content d h = Rejects (OfStat (NotAccessible parent))
        /\ FS_append F path content d h
           = Rejects (OfStat (NotAccessible parent)))
    /\ (nfs_access st parent = true -> nfs_stat st parent = None ->
        FS_write F path content d h
        = Rejects (OfStat (Native "stat" parent))
        /\ FS_append F path content d h
           = Rejects (OfStat (Native "stat" parent)))
    /\ (forall s, nfs_access st parent = true -> nfs_stat st parent = Some s ->
          stats_isDirectory s = false ->
          FS_write F path content d h = Rejects (NotADirectoryToWrite parent)
          /\ FS_append F path content d h
             = Rejects (NotADirectoryToWrite parent))
    /\ (forall s, nfs_access st parent = true -> nfs_stat st parent = Some s ->
          stats_isDirectory s = true ->
          settled_with (FS_write F path content d h)
          = match nfs_writeFile F target content d with
            | Some d' => Resolves d'
            | None => Rejects (NativeFile "writeFile" target)
            end
          /\ settled_with (FS_append F path content d h)
             = match nfs_appendFile F target content d with
               | Some d' => Resolves d'
               | None => Rejects (NativeFile "appendFile" target)
               end).
Proof.
  intros pr disk F path content d h NP p parent target st Hv.
  pose proof (FS_write_posix pr F path content d h Hv) as Ew.
  pose proof (FS_append_posix pr F path content d h Hv) as Ea.
  cbv zeta in Ew, Ea. change (posix_files pr) with NP in Ew, Ea.
  change (resolve (cwd pr) (dirname (path_string path h))) with parent
    in Ew, Ea.
  change (resolve (cwd pr) (path_string path h)) with target in Ew, Ea.
  fold st in Ew, Ea.
  split; [| split; [| split; [| split]]].
  - intros Hn. now apply (resolve_dirname pr p).
  - intros Ha. now rewrite Ew, Ea, Ha.
  - intros Ha Hs. now rewrite Ew, Ea, Ha, Hs.
  - intros s Ha Hs Hd. now rewrite Ew, Ea, Ha, Hs, Hd.
  - intros s Ha Hs Hd. rewrite Ew, Ea, Ha, Hs, Hd.
    split; [now destruct (nfs_writeFile _ _ _ _)
           | now destruct (nfs_appendFile _ _ _ _)].
Qed.

Lemma write_and_append_check_the_directory_witness :
  let NP := Posix.npath home_process in
  Posix.child_abs (@absolute_of NP (dirname_of "notes/today.txt"))
    (@basename_of NP "notes/today.txt")
  = @absolute_of NP "notes/today.txt"
  /\ FS_write memory_files (Raw "a.txt/b.txt") "y" [("/home/u/a.txt", "x")] []
     = Rejects (NotADirectoryToWrite "/home/u/a.txt").
Proof.
  intros NP.
  destruct (write_and_append_check_the_directory home_process memory
              memory_files (Raw "notes/today.txt") "" [] [] I) as (H & _).
  destruct (write_and_append_check_the_directory home_process memory
              memory_files (Raw "a.txt/b.txt") "y" [("/home/u/a.txt", "x")]
              [] I) as (_ & _ & _ & H' & _).
  split.
  - apply H. reflexivity.
  - apply (H' {| stats_isDirectory := false |}); reflexivity.
Defined.

(** X19. On [path.posix], over a file system on which a file that was
    written holds what was written and a file that was appended to holds
    what it held and then what was appended: when [FS.write] resolves,
    [FS.read] of the same path resolves with the content that was written;
    and when [FS.read] resolves and then [FS.append] does, [FS.read] of the
    same path resolves with what it read before followed by what was
    appended. *)
Theorem read_gives_back_what_was_written :
  forall (pr : Posix.process) (disk : Type) (F : Files disk)
         (path : path_like) (content : string) (d d' : disk)
         (h h' : list string),
    let NP := Posix.npath pr in
    lawful F -> path_like_in path h ->
    (FS_write F path content d h = Resolves (d', h') ->
     settled_with (FS_read F path d' h') = Resolves content)
    /\ (forall before,
          settled_with (FS_read F path d h) = Resolves before ->
          FS_append F path content d h = Resolves (d', h') ->
          settled_with (FS_read F path d' h')
          = Resolves (before +:+ content)).
Proof.
  intros pr disk F path content d d' h h' NP HF Hv.
  set (abs := resolve (cwd pr) (path_string path h)).
  assert (Hread : forall c,
             h `prefix_of` h' ->
             nfs_access (files_storage F d') abs = true ->
             (exists s, nfs_stat (files_storage F d') abs = Some s) ->
             files_isFile F d' abs = true ->
             nfs_readFile F d' abs = Some c ->
             settled_with (FS_read F path d' h') = Resolves c).
  { intros c Hp Ha [s Hs] Hf Hr.
    destruct (path_string_prefix path h h' Hv Hp) as [Hv' Hstr].
    pose proof (FS_read_posix pr F path d' h' Hv') as E. cbv zeta in E.
    change (posix_files pr) with NP in E.
    rewrite E, Hstr. fold abs. now rewrite Ha, Hs, Hf, Hr. }
  assert (Hgrow : h `prefix_of`
                    snd (Path_from path h)
                      ++ [dirname (path_string path h);
                          resolve (cwd pr) (dirname (path_string path h));
                          resolve (cwd pr) (dirname (path_string path h))]).
  { transitivity (snd (Path_from path h));
      [apply Path_from_prefix | now apply prefix_app_r]. }
  pose proof (FS_write_posix pr F path content d h Hv) as Ew.
  pose proof (FS_append_posix pr F path content d h Hv) as Ea.
  pose proof (FS_read_posix pr F path d h Hv) as Er.
  cbv zeta in Ew, Ea, Er. change (posix_files pr) with NP in Ew, Ea, Er.
  fold abs in Ew, Ea, Er.
  set (parent := resolve (cwd pr) (dirname (path_string path h))) in *.
  split.
  - rewrite Ew.
    destruct (nfs_access (files_storage F d) parent); [| easy].
    destruct (nfs_stat (files_storage F d) parent) as [s |]; [| easy].
    destruct (stats_isDirectory s); [| easy].
    destruct (nfs_writeFile F abs content d) as [d1 |] eqn:Hw; [| easy].
    intros H. injection H as Hd Hh. subst d' h'.
    destruct (written F HF _ _ _ _ Hw) as (Ha & Hs & Hf & Hr).
    now apply Hread.
  - intros before Hb. rewrite Er in Hb.
    assert (Hbefore : nfs_readFile F d abs = Some before).
    { destruct (nfs_access (files_storage F d) abs); [| easy].
      destruct (nfs_stat (files_storage F d) abs); [| easy].
      destruct (files_isFile F d abs); [| easy].
      destruct (nfs_readFile F d abs); [| easy].
      now injection Hb as ->. }
    rewrite Ea.
    destruct (nfs_access (files_storage F d) parent); [| easy].
    destruct (nfs_stat (files_storage F d) parent) as [s |]; [| easy].
    destruct (stats_isDirectory s); [| easy].
    destruct (nfs_appendFile F abs content d) as [d1 |] eqn:Hw;
      [| easy].
    intros H. injection H as Hd Hh. subst d' h'.
    destruct (appended F HF _ _ _ _ _ Hbefore Hw) as (Ha & Hs & Hf & Hr).
    now apply Hread.
Qed.

Lemma read_gives_back_what_was_written_witness :
  let NP := Posix.npath home_process in
  settled_with
    (FS_read memory_files (Raw "notes/a.txt") [("/home/u/notes/a.txt", "x")]
       ["notes/a.txt"; "notes"; "/home/u/notes"; "/home/u/notes"])
  = Resolves "x".
Proof.
  intros NP.
  apply (proj1 (read_gives_back_what_was_written home_process memory
                  memory_files (Raw "notes/a.txt") "x" []
                  [("/home/u/notes/a.txt", "x")] []
                  ["notes/a.txt"; "notes"; "/home/u/notes"; "/home/u/notes"]
                  memory_lawful I)).
  reflexivity.
Defined.

(** X20. On [path.posix], over a file system on which a directory that
    was made is there and is a directory: when [FS.mkdir] of a path
    resolves, [FS.write] to the path joined with a name is not turned down
    by its own check, and settles as [nfs.writeFile] does on the absolute
    form of the path, a separator and the name. *)
Theorem write_into_a_made_directory :
  forall (pr : Posix.process) (disk : Type) (F : Files disk)
         (path : path_like) (n content : string) (d d' : disk)
         (h h' : list string),
    let NP := Posix.npath pr in
    let abs := @absolute_of NP (path_string path h) in
    lawful F -> path_like_in path h -> Posix.is_name n = true ->
    FS_mkdir F path d h = Resolves (d', h') ->
    settled_with
      (FS_write F (Raw (@joined NP (path_string path h) n)) content d' h')
    = match nfs_writeFile F (Posix.child_abs abs n) content d' with
      | Some d'' => Resolves d''
      | None => Rejects (NativeFile "writeFile" (Posix.child_abs abs n))
      end.
Proof.
  intros pr disk F path n content d d' h h' NP abs HF Hv Hn.
  pose proof (FS_mkdir_posix pr F path d h Hv) as Em0. cbv zeta in Em0.
  change (posix_files pr) with NP in Em0.
  change (resolve (cwd pr) (path_string path h)) with abs in Em0.
  rewrite Em0.
  destruct (nfs_mkdir F abs d) as [d1 |] eqn:Em; [| easy].
  intros H. injection H as Hd Hh. subst d' h'.
  destruct (made F HF _ _ _ Em) as (Ha & s & Hs & Hd).
  pose proof (FS_write_posix pr F (Raw (@joined NP (path_string path h) n))
                content d1 (snd (Path_from path h)) I) as Ew.
  cbv zeta in Ew. change (posix_files pr) with NP in Ew.
  rewrite Ew. clear Ew.
  cbn [path_string]. rewrite joined_join.
  change (@npath_join NP) with join.
  rewrite resolve_dirname_join, (resolve_join pr) by assumption.
  change (resolve (cwd pr) (path_string path h)) with abs.
  rewrite Ha, Hs, Hd.
  now destruct (nfs_writeFile _ _ _ _).
Qed.

Lemma write_into_a_made_directory_witness :
  let NP := Posix.npath home_process in
  settled_with
    (FS_write memory_files (Raw (@joined NP "notes" "a.txt")) "x" []
       ["notes"])
  = Resolves [("/home/u/notes/a.txt", "x")].
Proof.
  intros NP.
  apply (write_into_a_made_directory home_process memory memory_files
           (Raw "notes") "a.txt" "x" [] [] [] ["notes"] memory_lawful I);
    reflexivity.
Defined.

End FilesStatements.
